(** * Realtime agent console: session, event channel, event log, tool dispatcher

    A shallow embedding of the console's core:
    - [App] (session lifecycle, [sendClientEvent], the data-channel listeners),
    - [EventLog] (the coalescing of delta events for display),
    - [ToolPanel] (one-time registration of the tool manifest, routing of
      function-call outputs, deferred follow-up prompts).

    React state is modelled by explicit state passing.  A render sees one
    snapshot of the state; an effect runs against the snapshot of the render
    that created it and queues updates, so the closures it creates (the
    follow-up timers) keep the data channel of that render.  Browser objects
    that the code only holds references to (data channels, peer connections)
    live in a store and are referred to by index. *)

From Stdlib Require Import Ascii String.
From stdpp Require Import base numbers option list gmap strings.

Open Scope string_scope.
Open Scope list_scope.
Open Scope nat_scope.

(** ** JSON values, as produced by [JSON.parse] on function-call arguments *)

#[local] Set Warnings "-register-all".

Inductive JValue : Type :=
| JNull
| JBool (b : bool)
| JNumber (n : Z)
| JString (s : string)
| JArray (items : list JValue)
| JObject (members : list (string * JValue)).

(** Own property lookup [v.k] on an object's members. *)
Fixpoint member (k : string) (ms : list (string * JValue)) : option JValue :=
  match ms with
  | [] => None
  | (k', v) :: rest => if String.eqb k k' then Some v else member k rest
  end.

Inductive Error := InvalidStateError | TypeError | SyntaxError | Rejected.

Inductive Completion := Normal | Throw (e : Error).

(** [const { direction } = v]: destructuring [null] throws, an object yields
    its member (or [undefined]), every other value yields [undefined]. *)
Definition destructure_direction (v : JValue) : Error + option JValue :=
  match v with
  | JNull => inl TypeError
  | JObject ms => inr (member "direction" ms)
  | _ => inr None
  end.

(** ** Events *)

(** One entry of [response.output]. *)
Record Output := {
  output_type : string;
  name : string;
  arguments : string
}.

Record Response := {
  output : option (list Output);
  instructions : option string
}.

(** A tool of the manifest; of the JSON-schema only the required property
    names are kept. *)
Record Tool := {
  tool_type : string;
  tool_name : string;
  description : string;
  required : list string
}.

Record Session := {
  tools : list Tool;
  tool_choice : string
}.

(** [item] of a "conversation.item.create" event: a user message with one
    "input_text" part. *)
Record Item := {
  role : string;
  text : string
}.

(** The fields of an event object that the core reads or writes.  A missing
    property is [None]. *)
Record Event := {
  event_id : option string;
  type : option string;
  response : option Response;
  session : option Session;
  item : option Item;
  command : option JValue
}.

Definition with_event_id (i : option string) (m : Event) : Event :=
  {| event_id := i; type := type m; response := response m;
     session := session m; item := item m; command := command m |}.

Definition plain_event (t : string) : Event :=
  {| event_id := None; type := Some t; response := None;
     session := None; item := None; command := None |}.

Definition type_is (t : string) (e : Event) : bool :=
  bool_decide (type e = Some t).

(** [s.endsWith(suf)] *)
Definition ends_with (s suf : string) : bool :=
  let n := String.length s in
  let k := String.length suf in
  if decide (k ≤ n)%nat then String.eqb (substring (n - k) k s) suf else false.

(** ** Browser objects *)

Inductive ReadyState := connecting | open | closing | closed.

#[global] Instance ReadyState_eq_dec : EqDecision ReadyState.
Proof. solve_decision. Defined.

(** An RTCDataChannel: its state and what was put on the wire through it,
    oldest first. *)
Record Channel := {
  readyState : ReadyState;
  sent : list Event
}.

(** An RTCPeerConnection and the data channel created from it, if one has
    been created. *)
Record Peer := {
  peer_closed : bool;
  peer_channel : option nat
}.

Inductive LogEntry :=
| ConsoleError (label : string)
| ConsoleLog (label : string) (detail : string).

(** A pending [setTimeout] callback of the tool panel.  The callback closes
    over the [sendClientEvent] of the render that scheduled it, hence over that
    render's [dataChannel]; the message it builds depends only on the captured
    output name. *)
Record Timer := {
  timer_delay : nat;
  timer_channel : option nat;
  timer_message : Event
}.

(** ** State *)

Record AppState := {
  isSessionActive : bool;
  events : list Event;
  dataChannel : option nat;
  peerConnection : option nat
}.

Record PanelState := {
  functionAdded : bool;
  functionCallOutput : option Output;
  activeFunction : option string;
  snakeCommand : option JValue
}.

Record Env := {
  channels : list Channel;
  peers : list Peer;
  timers : list Timer;
  console : list LogEntry;
  uuids : nat;                           (* calls of crypto.randomUUID so far *)
  sessionUpdate_event_id : option string (* event_id of the module-level sessionUpdate object *)
}.

Record World := {
  app : AppState;
  panel : PanelState;
  env : Env
}.

Definition set_isSessionActive (b : bool) (a : AppState) : AppState :=
  {| isSessionActive := b; events := events a;
     dataChannel := dataChannel a; peerConnection := peerConnection a |}.

Definition set_events (l : list Event) (a : AppState) : AppState :=
  {| isSessionActive := isSessionActive a; events := l;
     dataChannel := dataChannel a; peerConnection := peerConnection a |}.

Definition set_dataChannel (d : option nat) (a : AppState) : AppState :=
  {| isSessionActive := isSessionActive a; events := events a;
     dataChannel := d; peerConnection := peerConnection a |}.

Definition set_peerConnection (p : option nat) (a : AppState) : AppState :=
  {| isSessionActive := isSessionActive a; events := events a;
     dataChannel := dataChannel a; peerConnection := p |}.

Definition set_functionAdded (b : bool) (p : PanelState) : PanelState :=
  {| functionAdded := b; functionCallOutput := functionCallOutput p;
     activeFunction := activeFunction p; snakeCommand := snakeCommand p |}.

Definition set_functionCallOutput (o : option Output) (p : PanelState) : PanelState :=
  {| functionAdded := functionAdded p; functionCallOutput := o;
     activeFunction := activeFunction p; snakeCommand := snakeCommand p |}.

Definition set_activeFunction (f : option string) (p : PanelState) : PanelState :=
  {| functionAdded := functionAdded p; functionCallOutput := functionCallOutput p;
     activeFunction := f; snakeCommand := snakeCommand p |}.

Definition set_snakeCommand (c : option JValue) (p : PanelState) : PanelState :=
  {| functionAdded := functionAdded p; functionCallOutput := functionCallOutput p;
     activeFunction := activeFunction p; snakeCommand := c |}.

Definition set_channels (l : list Channel) (e : Env) : Env :=
  {| channels := l; peers := peers e; timers := timers e; console := console e;
     uuids := uuids e; sessionUpdate_event_id := sessionUpdate_event_id e |}.

Definition set_peers (l : list Peer) (e : Env) : Env :=
  {| channels := channels e; peers := l; timers := timers e; console := console e;
     uuids := uuids e; sessionUpdate_event_id := sessionUpdate_event_id e |}.

Definition set_timers (l : list Timer) (e : Env) : Env :=
  {| channels := channels e; peers := peers e; timers := l; console := console e;
     uuids := uuids e; sessionUpdate_event_id := sessionUpdate_event_id e |}.

Definition set_console (l : list LogEntry) (e : Env) : Env :=
  {| channels := channels e; peers := peers e; timers := timers e; console := l;
     uuids := uuids e; sessionUpdate_event_id := sessionUpdate_event_id e |}.

Definition set_uuids (n : nat) (e : Env) : Env :=
  {| channels := channels e; peers := peers e; timers := timers e; console := console e;
     uuids := n; sessionUpdate_event_id := sessionUpdate_event_id e |}.

Definition set_sessionUpdate_event_id (i : option string) (e : Env) : Env :=
  {| channels := channels e; peers := peers e; timers := timers e; console := console e;
     uuids := uuids e; sessionUpdate_event_id := i |}.

Definition upd_app (f : AppState → AppState) (w : World) : World :=
  {| app := f (app w); panel := panel w; env := env w |}.

Definition upd_panel (f : PanelState → PanelState) (w : World) : World :=
  {| app := app w; panel := f (panel w); env := env w |}.

Definition upd_env (f : Env → Env) (w : World) : World :=
  {| app := app w; panel := panel w; env := f (env w) |}.

Definition console_error (label : string) (w : World) : World :=
  upd_env (λ e, set_console (console e ++ [ConsoleError label]) e) w.

Definition console_log (label detail : string) (w : World) : World :=
  upd_env (λ e, set_console (console e ++ [ConsoleLog label detail]) e) w.

(** The state of a freshly mounted application. *)
Definition initial : World :=
  {| app := {| isSessionActive := false; events := [];
               dataChannel := None; peerConnection := None |};
     panel := {| functionAdded := false; functionCallOutput := None;
                 activeFunction := None; snakeCommand := None |};
     env := {| channels := []; peers := []; timers := []; console := [];
               uuids := 0; sessionUpdate_event_id := None |} |}.

(** ** The tool manifest (ToolPanel.jsx, [sessionUpdate]) *)

Definition sessionUpdate : Event :=
  {| event_id := None;
     type := Some "session.update";
     response := None;
     session := Some
       {| tools :=
            [ {| tool_type := "function"; tool_name := "control_snake";
                 description := "Control the snake in the game. Use this to move the snake up, down, left, right, or stop it.";
                 required := ["direction"] |};
              {| tool_type := "function"; tool_name := "display_color_palette";
                 description := "Generate and display a color palette based on a theme";
                 required := ["theme"; "colors"] |};
              {| tool_type := "function"; tool_name := "create_pixel_art";
                 description := "Generate and display simple pixel art drawings";
                 required := ["description"; "pixels"; "size"] |} ];
          tool_choice := "auto" |};
     item := None;
     command := None |}.

(** ** EventLog *)

(** The body of [events.forEach], on the pair of [deltaEvents] (an object used
    as a map from type to event) and [eventsToDisplay]. *)
Definition record_event (st : gmap string Event * list Event) (event : option Event)
  : gmap string Event * list Event :=
  match event with
  | None => st
  | Some ev =>
      match type ev with
      | Some t =>
          if ends_with t "delta" then
            match st.1 !! t with
            | Some _ => st
            | None => (<[t := ev]> st.1, (st.2 ++ [ev])%list)
            end
          else (st.1, (st.2 ++ [ev])%list)
      | None => (st.1, (st.2 ++ [ev])%list)
      end
  end.

(** The entries [EventLog] renders, top to bottom. *)
Definition EventLog (events : list (option Event)) : list Event :=
  (fold_left record_event events (∅, [])).2.

(** ** App *)

Inductive StartOutcome :=
| start_fails_before_channel   (* the token request fails: nothing has been created *)
| start_fails_at_microphone    (* the microphone request rejects: the peer connection exists *)
| start_fails_negotiating      (* the offer/answer exchange rejects *)
| start_succeeds.

(** Platform functions the code calls.  [randomUUID n] is the result of the
    [n]-th call of [crypto.randomUUID()]; [JSON_parse] is [JSON.parse] on a
    function-call argument string ([None] when it throws a SyntaxError);
    [decode_event] is [JSON.parse] on an inbound message, read as an event. *)
Class Platform := {
  randomUUID : nat → string;
  JSON_parse : string → option JValue;
  decode_event : string → option Event
}.

Section Console.

Context `{Platform}.

(** Truthiness of [message.event_id]: a missing or empty id counts as absent. *)
Definition carries_id (m : Event) : bool :=
  match event_id m with
  | Some i => negb (String.eqb i "")
  | None => false
  end.

(** What [sendClientEvent] is called with: a fresh object literal, or the one
    module-level [sessionUpdate] object, whose [event_id] property survives
    from one call to the next. *)
Inductive Message := Literal (m : Event) | SessionUpdateObject.

Definition read_message (msg : Message) (w : World) : Event :=
  match msg with
  | Literal m => m
  | SessionUpdateObject => with_event_id (sessionUpdate_event_id (env w)) sessionUpdate
  end.

(** [message.event_id = message.event_id || crypto.randomUUID()] *)
Definition assign_event_id (msg : Message) (w : World) : Event * World :=
  let m := read_message msg w in
  if carries_id m then (m, w)
  else
    let i := randomUUID (uuids (env w)) in
    let w1 := upd_env (set_uuids (S (uuids (env w)))) w in
    let w2 := match msg with
              | SessionUpdateObject => upd_env (set_sessionUpdate_event_id (Some i)) w1
              | Literal _ => w1
              end in
    (with_event_id (Some i) m, w2).

(** [dc.send(...)]: an RTCDataChannel accepts data only while it is open and
    raises InvalidStateError otherwise. *)
Definition channel_send (c : nat) (m : Event) (w : World) : Completion * World :=
  match channels (env w) !! c with
  | Some ch =>
      match readyState ch with
      | open =>
          (Normal,
           upd_env (λ e, set_channels
                           (<[c := {| readyState := open; sent := sent ch ++ [m] |}]> (channels e)) e) w)
      | _ => (Throw InvalidStateError, w)
      end
  | None => (Throw TypeError, w)
  end.

(** [dc.close()]; the intermediate "closing" state is not kept apart. *)
Definition channel_close (c : nat) (w : World) : World :=
  match channels (env w) !! c with
  | Some ch =>
      upd_env (λ e, set_channels
                      (<[c := {| readyState := closed; sent := sent ch |}]> (channels e)) e) w
  | None => w
  end.

(** [pc.close()]: closes the connection and the data channel created from it. *)
Definition peer_close (p : nat) (w : World) : World :=
  match peers (env w) !! p with
  | Some pr =>
      let w1 :=
        upd_env (λ e, set_peers
                        (<[p := {| peer_closed := true; peer_channel := peer_channel pr |}]> (peers e)) e) w in
      match peer_channel pr with
      | Some c => channel_close c w1
      | None => w1
      end
  | None => w
  end.

(** [startSession], by the point at which it stops.  The peer connection
    is created after the token has been fetched and before the microphone is
    requested; the data channel is created and stored with [setDataChannel]
    before the negotiation; [peerConnection.current] is assigned after it. *)
Definition startSession (o : StartOutcome) (w : World) : Completion * World :=
  match o with
  | start_fails_before_channel => (Throw Rejected, w)
  | start_fails_at_microphone =>
      (Throw Rejected,
       upd_env (λ e, set_peers (peers e ++ [{| peer_closed := false; peer_channel := None |}]) e) w)
  | _ =>
      let c := length (channels (env w)) in
      let p := length (peers (env w)) in
      let w1 :=
        upd_env (λ e, set_peers (peers e ++ [{| peer_closed := false; peer_channel := Some c |}])
                        (set_channels (channels e ++ [{| readyState := connecting; sent := [] |}]) e)) w in
      let w2 := upd_app (set_dataChannel (Some c)) w1 in
      match o with
      | start_succeeds => (Normal, upd_app (set_peerConnection (Some p)) w2)
      | _ => (Throw Rejected, w2)
      end
  end.

(** [stopSession] *)
Definition stopSession (w : World) : Completion * World :=
  let w1 := match dataChannel (app w) with
            | Some c => channel_close c w
            | None => w
            end in
  let w2 := match peerConnection (app w) with
            | Some p => peer_close p w1
            | None => w1
            end in
  (Normal,
   upd_app (λ a, set_peerConnection None (set_dataChannel None (set_isSessionActive false a))) w2).

(** [sendClientEvent], as created by a render whose [dataChannel] is [d]. *)
Definition sendClientEvent (d : option nat) (msg : Message) (w : World) : Completion * World :=
  match d with
  | Some c =>
      let '(m, w1) := assign_event_id msg w in
      match channel_send c m w1 with
      | (Normal, w2) => (Normal, upd_app (λ a, set_events (m :: events a) a) w2)
      | (Throw e, w2) => (Throw e, w2)
      end
  | None => (Normal, console_error "Failed to send message - no data channel available" w)
  end.

(** The two events of [sendTextMessage]. *)
Definition text_item_event (message : string) : Event :=
  {| event_id := None; type := Some "conversation.item.create"; response := None;
     session := None; item := Some {| role := "user"; text := message |};
     command := None |}.

Definition sendTextMessage (d : option nat) (message : string) (w : World) : Completion * World :=
  match sendClientEvent d (Literal (text_item_event message)) w with
  | (Normal, w1) => sendClientEvent d (Literal (plain_event "response.create")) w1
  | (Throw e, w1) => (Throw e, w1)
  end.

(** The "message" listener of the data channel. *)
Definition on_message (data : string) (w : World) : World :=
  match decode_event data with
  | Some ev => upd_app (λ a, set_events (ev :: events a) a) w
  | None => console_error "Error parsing message data:" w
  end.

(** The "open" listener of the data channel. *)
Definition on_open (w : World) : World :=
  upd_app (λ a, set_events [] (set_isSessionActive true a)) w.

(** ** ToolPanel *)

(** The follow-up prompt built by the deferred callback for an output named
    [n]. *)
Definition follow_up (n : string) : Event :=
  {| event_id := None;
     type := Some "response.create";
     response := Some
       {| output := None;
          instructions := Some
            (if String.eqb n "create_pixel_art"
             then "ask for feedback about the pixel art - don't describe it again, just ask if they like it"
             else "ask for feedback about the color palette - don't repeat the colors, just ask if they like the colors") |};
     session := None; item := None; command := None |}.

(** [setTimeout(() => sendClientEvent(...), 500)] in a render whose data
    channel is [d]. *)
Definition setTimeout (d : option nat) (m : Event) (delay : nat) (w : World) : World :=
  upd_env (λ e, set_timers
                  (timers e ++ [{| timer_delay := delay; timer_channel := d; timer_message := m |}]) e) w.

(** The [catch] block of the dispatcher. *)
Definition report_arguments_error (o : Output) (w : World) : World :=
  console_log "Raw arguments:" (arguments o)
    (console_error "Error parsing function arguments:" w).

(** The body of [mostRecentEvent.response.output.forEach], in a render whose
    data channel is [d]. *)
Definition handle_output (d : option nat) (o : Output) (w : World) : World :=
  if String.eqb (output_type o) "function_call" then
    let w1 := console_log "Function arguments:" (arguments o)
                (console_log "Function call detected:" (name o) w) in
    match JSON_parse (arguments o) with
    | None => report_arguments_error o w1
    | Some v =>
        let w2 := upd_panel (λ p, set_activeFunction (Some (name o))
                                    (set_functionCallOutput (Some o) p)) w1 in
        if String.eqb (name o) "control_snake" then
          match destructure_direction v with
          | inr direction => upd_panel (set_snakeCommand direction) w2
          | inl _ => report_arguments_error o w2
          end
        else setTimeout d (follow_up (name o)) 500 w2
    end
  else w.

(** The follow-up prompt of the panel variant that offers "create_game"
    instead of the snake. *)
Definition follow_up_game (n : string) : Event :=
  {| event_id := None;
     type := Some "response.create";
     response := Some
       {| output := None;
          instructions := Some
            (if String.eqb n "create_pixel_art"
             then "ask for feedback about the pixel art - don't describe it again, just ask if they like it"
             else if String.eqb n "create_game"
             then "ask if they would like to try the game and if they need any clarification about how to run it"
             else "ask for feedback about the color palette - don't repeat the colors, just ask if they like the colors") |};
     session := None; item := None; command := None |}.

(** The body of the [forEach] in that variant: it neither parses the
    arguments nor has a [catch]. *)
Definition handle_output_game (d : option nat) (o : Output) (w : World) : World :=
  if String.eqb (output_type o) "function_call" then
    let w1 := console_log "Function arguments:" (arguments o)
                (console_log "Function call detected:" (name o) w) in
    let w2 := upd_panel (λ p, set_activeFunction (Some (name o))
                                (set_functionCallOutput (Some o) p)) w1 in
    setTimeout d (follow_up_game (name o)) 500 w2
  else w.

(** [if (!functionAdded && firstEvent.type === "session.created") ...] *)
Definition register_tools (firstEvent : Event) (w : World) : Completion * World :=
  if negb (functionAdded (panel w)) && type_is "session.created" firstEvent then
    match sendClientEvent (dataChannel (app w)) SessionUpdateObject w with
    | (Normal, w1) => (Normal, upd_panel (set_functionAdded true) w1)
    | (Throw e, w1) => (Throw e, w1)
    end
  else (Normal, w).

(** [if (mostRecentEvent.type === "response.done" && ...output) ...forEach],
    in a render whose data channel is [d]; [handler] is the body of the
    [forEach]. *)
Definition route_response (handler : option nat → Output → World → World)
    (d : option nat) (mostRecentEvent : Event) (w : World) : Completion * World :=
  if type_is "response.done" mostRecentEvent then
    match response mostRecentEvent with
    | Some r =>
        match output r with
        | Some outputs => (Normal, fold_left (λ acc o, handler d o acc) outputs w)
        | None => (Normal, w)
        end
    | None => (Throw TypeError, w)
    end
  else (Normal, w).

(** The first effect of [ToolPanel] (dependency: [events]).  It reads
    [events], [functionAdded] and [sendClientEvent] of the render [w]. *)
Definition dispatch_effect_with (handler : option nat → Output → World → World)
    (w : World) : Completion * World :=
  match last (events (app w)), head (events (app w)) with
  | Some firstEvent, Some mostRecentEvent =>
      match register_tools firstEvent w with
      | (Normal, w1) => route_response handler (dataChannel (app w)) mostRecentEvent w1
      | (Throw e, w1) => (Throw e, w1)
      end
  | _, _ => (Normal, w)
  end.

Definition dispatch_effect : World → Completion * World :=
  dispatch_effect_with handle_output.

(** The same effect in the "create_game" variant.  Around the [forEach] body
    the code is the same; that variant's manifest lists other tools, which
    plays no part in how outputs are routed. *)
Definition dispatch_effect_game : World → Completion * World :=
  dispatch_effect_with handle_output_game.

(** The second effect of [ToolPanel] (dependency: [isSessionActive]). *)
Definition session_effect (w : World) : World :=
  if isSessionActive (app w) then w
  else upd_panel (λ p, set_activeFunction None
                         (set_functionCallOutput None (set_functionAdded false p))) w.

(** The third effect of [ToolPanel] (dependency: [events]). *)
Definition snake_effect (w : World) : World :=
  match head (events (app w)) with
  | Some lastEvent =>
      if type_is "snake.command" lastEvent
      then upd_panel (set_snakeCommand (command lastEvent)) w
      else w
  | None => w
  end.

(** ** Renders and effects *)

Definition events_changed (before after : World) : bool :=
  negb (length (events (app after)) =? length (events (app before)))%nat.

(** After a render in which [events] changed, the effects that depend on it
    run; if they changed [events] again, the next render runs them again.
    [fuel] bounds the number of rounds; one round on top of the first is
    always enough (lemma [commit_settles]).  The effects only ever prepend to
    [events], so the list changed exactly when its length did. *)
Fixpoint commit (fuel : nat) (w : World) : Completion * World :=
  match fuel with
  | 0 => (Normal, w)
  | S k =>
      match dispatch_effect w with
      | (Normal, w1) =>
          let w2 := snake_effect w1 in
          if events_changed w w2 then commit k w2 else (Normal, w2)
      | (Throw e, w1) => (Throw e, w1)
      end
  end.

Definition rerender (before : World) (r : Completion * World) : Completion * World :=
  match r with
  | (Normal, after) => if events_changed before after then commit 2 after else (Normal, after)
  | (Throw e, after) => (Throw e, after)
  end.

(** What can happen to the running application. *)
Inductive Stimulus :=
| Start (o : StartOutcome)                 (* the user starts a session *)
| Stop                                     (* the user stops the session *)
| ChannelOpen (c : nat)                    (* data channel [c] opens *)
| ChannelMessage (c : nat) (data : string) (* a message arrives on channel [c] *)
| ClientSend (m : Event)                   (* the UI calls sendClientEvent *)
| ClientText (message : string)            (* the UI calls sendTextMessage *)
| TimerFires.                              (* the oldest pending timer fires *)

Definition channel_state (c : nat) (w : World) : option ReadyState :=
  readyState <$> channels (env w) !! c.

(** One stimulus, followed by the renders and effects it causes.  An effect
    runs when its dependency changed: [session_effect] when [isSessionActive]
    did, the two effects on [events] when [events] did.  The listeners are
    attached to every channel that was stored by [setDataChannel]; a channel
    delivers "open" once, while it is connecting, and messages only while it
    is open. *)
Definition step (s : Stimulus) (w : World) : Completion * World :=
  match s with
  | Start o => startSession o w
  | Stop =>
      let '(r, w1) := stopSession w in
      (r, if isSessionActive (app w) then session_effect w1 else w1)
  | ChannelOpen c =>
      match channels (env w) !! c with
      | Some ch =>
          match readyState ch with
          | connecting =>
              let w1 := upd_env (λ e, set_channels
                                        (<[c := {| readyState := open; sent := sent ch |}]> (channels e)) e) w in
              let w2 := on_open w1 in
              commit 2 (if isSessionActive (app w) then w2 else session_effect w2)
          | _ => (Normal, w)
          end
      | None => (Normal, w)
      end
  | ChannelMessage c data =>
      match channel_state c w with
      | Some open => rerender w (Normal, on_message data w)
      | _ => (Normal, w)
      end
  | ClientSend m => rerender w (sendClientEvent (dataChannel (app w)) (Literal m) w)
  | ClientText message => rerender w (sendTextMessage (dataChannel (app w)) message w)
  | TimerFires =>
      match timers (env w) with
      | t :: rest =>
          let w1 := upd_env (set_timers rest) w in
          rerender w1 (sendClientEvent (timer_channel t) (Literal (timer_message t)) w1)
      | [] => (Normal, w)
      end
  end.

(** Running a sequence of stimuli.  An exception raised by an event handler
    or by a timer callback is reported by the browser and the application
    carries on.  The runs also carry on after an exception raised by an effect,
    where React, having no error boundary here, unmounts the tree: every run of
    the application is a run of the model up to such an exception, so what
    holds after every run of the model holds for the application as long as it
    is mounted. *)
Definition run (tr : list Stimulus) (w : World) : World :=
  fold_left (λ acc s, snd (step s acc)) tr w.

End Console.

Arguments commit : simpl never.
Arguments rerender : simpl never.
Arguments step : simpl never.
Arguments sendClientEvent : simpl never.

(** ** Notions used in the statements *)

(** The session is over: the flags and references that [stopSession] resets. *)
Definition session_closed (w : World) : Prop :=
  isSessionActive (app w) = false ∧
  dataChannel (app w) = None ∧
  peerConnection (app w) = None.




(** What sending, receiving and dispatching may do to the application state:
    only prepend to [events], draw ids, and set the registered flag. *)
Definition grows (w w' : World) : Prop :=
  isSessionActive (app w') = isSessionActive (app w) ∧
  dataChannel (app w') = dataChannel (app w) ∧
  peerConnection (app w') = peerConnection (app w) ∧
  (∃ new, events (app w') = new ++ events (app w)) ∧
  uuids (env w) ≤ uuids (env w') ∧
  (functionAdded (panel w) = true → functionAdded (panel w') = true).

(** No channel changed its state. *)
Definition keeps_states (w w' : World) : Prop :=
  ∀ c, channel_state c w' = channel_state c w.

(** Every channel that is not the current one is closed: sessions follow one
    another, none is left behind open. *)
Definition one_live_channel (w : World) : Prop :=
  ∀ c, dataChannel (app w) ≠ Some c →
       channel_state c w = None ∨ channel_state c w = Some closed.

(** The user starts a session only when none is under way. *)
Fixpoint starts_when_closed `{Platform} (tr : list Stimulus) (w : World) : Prop :=
  match tr with
  | [] => True
  | s :: rest =>
      match s with
      | Start _ => session_closed w
      | _ => True
      end ∧ starts_when_closed rest (step s w).2
  end.

(** The world without its console output. *)
Definition quiet (w : World) : World := upd_env (set_console []) w.


Definition is_open_stimulus (s : Stimulus) : Prop :=
  match s with
  | ChannelOpen _ => True
  | _ => False
  end.

(** The events list after the messages [rs] were decoded and recorded by the
    "message" listener, in the order of arrival. *)
Definition received (rs : list Event) (w : World) : World :=
  fold_left (λ acc ev, upd_app (λ a, set_events (ev :: events a) a) acc) rs w.

Section Sends.

Context `{Platform}.

(** Consecutive calls of [sendClientEvent] by one render. *)
Definition send_all (d : option nat) (ms : list Event) (w : World) : World :=
  fold_left (λ acc m, (sendClientEvent d (Literal m) acc).2) ms w.

(** The events [ms] with the ids the generator hands out from its [n]-th
    call on. *)
Fixpoint stamped (n : nat) (ms : list Event) : list Event :=
  match ms with
  | [] => []
  | m :: rest => with_event_id (Some (randomUUID n)) m :: stamped (S n) rest
  end.

End Sends.

(** ** A concrete platform, for running the model *)

Definition dq : string := String "034"%char "".

Definition quoted (s : string) : string := dq +:+ s +:+ dq.

Fixpoint ticks (n : nat) : string :=
  match n with
  | 0 => ""
  | S k => String "i"%char (ticks k)
  end.

Definition demo_uuid (n : nat) : string := String "u"%char (ticks n).

Definition palette_arguments : string :=
  "{" +:+ quoted "theme" +:+ ":" +:+ quoted "ocean" +:+ "}".

Definition snake_arguments : string :=
  "{" +:+ quoted "direction" +:+ ":" +:+ quoted "up" +:+ "}".

Definition demo_parse (s : string) : option JValue :=
  if String.eqb s palette_arguments then Some (JObject [("theme", JString "ocean")])
  else if String.eqb s snake_arguments then Some (JObject [("direction", JString "up")])
  else if String.eqb s "null" then Some JNull
  else None.

Definition server_event (i t : string) (outputs : option (list Output)) : Event :=
  {| event_id := Some i; type := Some t;
     response := (λ os, {| output := Some os; instructions := None |}) <$> outputs;
     session := None; item := None; command := None |}.

Definition palette_call : Output :=
  {| output_type := "function_call"; name := "display_color_palette";
     arguments := palette_arguments |}.

Definition snake_call : Output :=
  {| output_type := "function_call"; name := "control_snake";
     arguments := snake_arguments |}.

Definition broken_call : Output :=
  {| output_type := "function_call"; name := "display_color_palette";
     arguments := "{not json" |}.

Definition session_created : Event := server_event "event_1" "session.created" None.

Definition palette_done : Event :=
  server_event "event_2" "response.done" (Some [palette_call]).

Definition mixed_done : Event :=
  server_event "event_3" "response.done" (Some [broken_call; palette_call]).

Definition snake_done : Event :=
  server_event "event_5" "response.done" (Some [snake_call]).

Definition broken_done : Event :=
  server_event "event_4" "response.done" (Some [broken_call]).

Definition text_delta (i : string) : Event :=
  server_event i "response.text.delta" None.

(** Inbound messages are named by a tag instead of spelling out their JSON. *)
Definition demo_decode (data : string) : option Event :=
  if String.eqb data "session.created" then Some session_created
  else if String.eqb data "palette" then Some palette_done
  else if String.eqb data "mixed" then Some mixed_done
  else if String.eqb data "broken" then Some broken_done
  else if String.eqb data "snake" then Some snake_done
  else None.

Definition demo : Platform :=
  {| randomUUID := demo_uuid; JSON_parse := demo_parse; decode_event := demo_decode |}.

(** A session that was started, and one whose channel has opened. *)
Definition started : World := @run demo [Start start_succeeds] initial.

Definition opened : World := @run demo [ChannelOpen 0] started.

(** A session that was started, opened and greeted by the server. *)
Definition greeted : World :=
  @run demo [Start start_succeeds; ChannelOpen 0; ChannelMessage 0 "session.created"] initial.

(** The greeted session at the moment a response with an unparsable function
    call has been recorded, before the effects run. *)
Definition broken_arrived : World := @on_message demo "broken" greeted.

(** The same session after the server asked for a color palette. *)
Definition palette_requested : World :=
  @run demo [ChannelMessage 0 "palette"] greeted.

(** A "response.done" event that lacks its [response], and a platform that
    decodes the tag "bare" to it. *)
Definition bare_done : Event := server_event "event_6" "response.done" None.

Definition demo_bare : Platform :=
  {| randomUUID := demo_uuid;
     JSON_parse := demo_parse;
     decode_event := λ data, if String.eqb data "bare" then Some bare_done
                             else demo_decode data |}.

(** A full session with a palette request, stopped, and a new start. *)
Definition restarted : World :=
  @run demo [Start start_succeeds; ChannelOpen 0; ChannelMessage 0 "session.created";
             ChannelMessage 0 "palette"; Stop; Start start_succeeds] initial.

(** A snake call whose arguments are the JSON text [null]. *)
Definition null_call : Output :=
  {| output_type := "function_call"; name := "control_snake"; arguments := "null" |}.

(** A session whose first recorded event is not "session.created". *)
Definition palette_late : World :=
  @run demo [Start start_succeeds; ChannelOpen 0; ChannelMessage 0 "palette"] initial.

(** ** The snake game (Snake.jsx) *)

Module Snake.

Definition GRID_SIZE : Z := 20.

(** A coordinate: an integer, or [NaN].  A missing [x] or [y] acts as [NaN]
    in the arithmetic of the game loop. *)
Inductive Num := Int (n : Z) | NaN.

Definition add (a b : Num) : Num :=
  match a, b with
  | Int m, Int n => Int (m + n)
  | _, _ => NaN
  end.

(** [a % n]: the remainder has the sign of the dividend. *)
Definition rem (a : Num) (n : Z) : Num :=
  match a with
  | Int m => Int (Z.rem m n)
  | NaN => NaN
  end.

(** [a === b] on numbers: [NaN] equals nothing. *)
Definition same (a b : Num) : bool :=
  match a, b with
  | Int m, Int n => Z.eqb m n
  | _, _ => false
  end.

Record Point := { x : Num; y : Num }.

(** The value of the [direction] state variable.  The code stores objects
    with coordinates; through [directions[command]] a member inherited from
    [Object.prototype] can reach [setDirection], and what is stored then has
    no [x] and no [y]: it is [Other true] for an object ([Object.prototype],
    a wrapper object) and [Other false] for a primitive (a string,
    [false]). *)
Inductive Direction :=
| Vec (p : Point)
| Other (object : bool).

Coercion Vec : Point >-> Direction.

(** [direction.x] and [direction.y]. *)
Definition direction_x (d : Direction) : Num :=
  match d with
  | Vec p => x p
  | Other _ => NaN
  end.

Definition direction_y (d : Direction) : Num :=
  match d with
  | Vec p => y p
  | Other _ => NaN
  end.

Record State := {
  snake : list Point;
  direction : Direction;
  food : Point;
  isPlaying : bool
}.

Definition INITIAL_SNAKE : list Point := [{| x := Int 10; y := Int 10 |}].

Definition INITIAL_DIRECTION : Point := {| x := Int 1; y := Int 0 |}.

(** The state of a freshly mounted game, before its effects have run. *)
Definition mounted : State :=
  {| snake := INITIAL_SNAKE; direction := INITIAL_DIRECTION;
     food := {| x := Int 15; y := Int 15 |}; isPlaying := false |}.

Definition setDirection (d : Direction) (st : State) : State :=
  {| snake := snake st; direction := d; food := food st; isPlaying := isPlaying st |}.

Definition setIsPlaying (b : bool) (st : State) : State :=
  {| snake := snake st; direction := direction st; food := food st; isPlaying := b |}.

(** The own properties of [directions]. *)
Definition own_direction (k : string) : option Point :=
  if String.eqb k "up" then Some {| x := Int 0; y := Int (-1) |}
  else if String.eqb k "down" then Some {| x := Int 0; y := Int 1 |}
  else if String.eqb k "left" then Some {| x := Int (-1); y := Int 0 |}
  else if String.eqb k "right" then Some {| x := Int 1; y := Int 0 |}
  else None.

(** The names every object literal inherits from [Object.prototype]; each of
    them reads as a truthy value (a function, or the prototype itself). *)
Definition inherited (k : string) : bool :=
  existsb (String.eqb k)
    ["constructor"; "hasOwnProperty"; "isPrototypeOf"; "propertyIsEnumerable";
     "toLocaleString"; "toString"; "valueOf"; "__proto__";
     "__defineGetter__"; "__defineSetter__"; "__lookupGetter__"; "__lookupSetter__"].

(** [directions[k]] is truthy. *)
Definition names_member (k : string) : bool :=
  match own_direction k with
  | Some _ => true
  | None => inherited k
  end.

(** What [setDirection(directions[k])] makes of the direction [d], for a [k]
    that names a member.  An own member is stored.  So is [Object.prototype]
    ("__proto__"), which is not a function.  Every other inherited member is
    a function, and React takes a function handed to a state setter for an
    updater: it calls it with the current value (and no [this]) and stores the
    result.  [Object(d)] is [d] for an object and a wrapper object for a
    primitive; [toString] returns the string "[object Undefined]";
    [isPrototypeOf] returns [false] for a primitive; on an object it raises a
    TypeError, as the remaining methods always do, because they convert the
    missing [this] to an object.  [None] stands for that TypeError, which
    reaches React while it renders. *)
Definition updated_direction (k : string) (d : Direction) : option Direction :=
  match own_direction k with
  | Some p => Some (Vec p)
  | None =>
      if String.eqb k "__proto__" then Some (Other true)
      else if String.eqb k "constructor" then
        Some (match d with Other false => Other true | _ => d end)
      else if String.eqb k "toString" then Some (Other false)
      else if String.eqb k "isPrototypeOf" then
        match d with Other false => Some (Other false) | _ => None end
      else None
  end.

(** [!command] is false. *)
Definition truthy (v : JValue) : bool :=
  match v with
  | JNull => false
  | JBool b => b
  | JNumber n => negb (Z.eqb n 0)
  | JString s => negb (String.eqb s "")
  | JArray _ | JObject _ => true
  end.

(** Whether converting [v] to a property key raises a TypeError.  An object
    is converted by its [toString]; an own member of that name comes from
    JSON, is not callable, and [valueOf] does not yield a primitive either, so
    the conversion fails.  An array is converted by joining the conversions
    of its elements. *)
Fixpoint key_raises (v : JValue) : bool :=
  match v with
  | JObject ms => bool_decide (is_Some (member "toString" ms))
  | JArray items => existsb key_raises items
  | _ => false
  end.

(** The property key a command is converted to when the conversion does not
    raise, for the values whose key can name a member at all: a string is its
    own key, and an array with a single element has the key of that element.
    The key of a number, of a boolean, of an object and of any other array
    names no member of [directions]. *)
Fixpoint key_of (v : JValue) : option string :=
  match v with
  | JString s => Some s
  | JArray [e] => key_of e
  | _ => None
  end.

(** The body of the effect on [command].  [None]: a TypeError, raised by the
    effect itself (the command cannot be converted to a key) or by the updater
    it handed to [setDirection]; there is no error boundary, so React
    unmounts the tree. *)
Definition on_command (command : option JValue) (st : State) : option State :=
  match command with
  | None => Some st
  | Some v =>
      if truthy v then
        if key_raises v then None
        else
          match key_of v ≫= (λ k, if names_member k then Some k else None) with
          | Some k =>
              (λ d, setIsPlaying true (setDirection d st)) <$>
                updated_direction k (direction st)
          | None =>
              match v with
              | JString s => if String.eqb s "stop" then Some (setIsPlaying false st)
                             else Some st
              | _ => Some st
              end
          end
      else Some st
  end.

(** One run of the interval callback; [new_food] is what [generateFood()]
    returns if it is called.  [None]: the callback throws (there is no head). *)
Definition tick (new_food : Point) (st : State) : option State :=
  if isPlaying st then
    match snake st with
    | head :: _ =>
        let newHead :=
          {| x := rem (add (add (x head) (direction_x (direction st))) (Int GRID_SIZE))
                    GRID_SIZE;
             y := rem (add (add (y head) (direction_y (direction st))) (Int GRID_SIZE))
                    GRID_SIZE |} in
        if same (x newHead) (x (food st)) && same (y newHead) (y (food st)) then
          Some {| snake := newHead :: snake st; direction := direction st;
                  food := new_food; isPlaying := isPlaying st |}
        else
          Some {| snake := newHead :: removelast (snake st); direction := direction st;
                  food := food st; isPlaying := isPlaying st |}
    | [] => None
    end
  else Some st.

(** The own properties of [keyDirections]. *)
Definition own_key (k : string) : option string :=
  if String.eqb k "ArrowUp" then Some "up"
  else if String.eqb k "ArrowDown" then Some "down"
  else if String.eqb k "ArrowLeft" then Some "left"
  else if String.eqb k "ArrowRight" then Some "right"
  else if String.eqb k " " then Some "stop"
  else None.

Inductive KeyResult := Handled (st : State) | RaisesReferenceError.

(** [handleKeyPress].  Its [else] branch reads [directions], which is declared
    inside the callback of the command effect and is not in scope here. *)
Definition handleKeyPress (key : string) (st : State) : KeyResult :=
  match own_key key with
  | Some newCommand =>
      if String.eqb newCommand "stop" then Handled (setIsPlaying false st)
      else RaisesReferenceError
  | None => if inherited key then RaisesReferenceError else Handled st
  end.

Inductive Button := ButtonUp | ButtonLeft | ButtonStop | ButtonRight | ButtonDown.

(** The [onClick] handlers of the five buttons. *)
Definition onClick (b : Button) (st : State) : State :=
  match b with
  | ButtonUp => setIsPlaying true (setDirection {| x := Int 0; y := Int (-1) |} st)
  | ButtonLeft => setIsPlaying true (setDirection {| x := Int (-1); y := Int 0 |} st)
  | ButtonStop => setIsPlaying false st
  | ButtonRight => setIsPlaying true (setDirection {| x := Int 1; y := Int 0 |} st)
  | ButtonDown => setIsPlaying true (setDirection {| x := Int 0; y := Int 1 |} st)
  end.

(** What the user can do to a mounted game. *)
Inductive Input :=
| KeyDown (key : string)
| Click (b : Button).

(** An exception in an event handler leaves the state as it was. *)
Definition react (i : Input) (st : State) : State :=
  match i with
  | KeyDown k => match handleKeyPress k st with Handled st' => st' | RaisesReferenceError => st end
  | Click b => onClick b st
  end.

(** A mounted game: its state, and the [command] prop of its last render,
    on which the command effect depends. *)
Record Game := {
  state : State;
  command : option JValue
}.

(** [Object.is] on two values of the [command] prop.  Arrays and objects
    are compared by identity, and each command comes out of a [JSON.parse] of
    its own. *)
Definition same_value (a b : option JValue) : bool :=
  match a, b with
  | None, None => true
  | Some JNull, Some JNull => true
  | Some (JBool p), Some (JBool q) => Bool.eqb p q
  | Some (JNumber m), Some (JNumber n) => Z.eqb m n
  | Some (JString s), Some (JString t) => String.eqb s t
  | _, _ => false
  end.

(** What can happen to a mounted game. *)
Inductive Happening :=
| Command (c : option JValue)   (* the panel renders the game with a newly stored command *)
| Tick (new_food : Point)       (* the interval fires *)
| User (i : Input).             (* a key is pressed, a button is clicked *)

(** [None]: the tree was unmounted.  The command effect runs only when the
    [command] prop changed. *)
Definition advance (h : Happening) (g : Game) : option Game :=
  match h with
  | Command c =>
      if same_value c (command g) then Some g
      else (λ st, {| state := st; command := c |}) <$> on_command c (state g)
  | Tick nf => (λ st, {| state := st; command := command g |}) <$> tick nf (state g)
  | User i => Some {| state := react i (state g); command := command g |}
  end.

Fixpoint play (hs : list Happening) (g : Game) : option Game :=
  match hs with
  | [] => Some g
  | h :: rest => advance h g ≫= play rest
  end.

(** Mounting the game with the command [c]: the command effect runs once,
    whatever [c] is. *)
Definition mount (c : option JValue) : option Game :=
  (λ st, {| state := st; command := c |}) <$> on_command c mounted.

Definition in_grid (p : Point) : Prop :=
  ∃ a b, p = {| x := Int a; y := Int b |} ∧
         (0 ≤ a < GRID_SIZE)%Z ∧ (0 ≤ b < GRID_SIZE)%Z.

(** A step of one cell along one axis. *)
Definition unit_step (d : Point) : Prop :=
  d = {| x := Int 0; y := Int (-1) |} ∨ d = {| x := Int 0; y := Int 1 |} ∨
  d = {| x := Int (-1); y := Int 0 |} ∨ d = {| x := Int 1; y := Int 0 |}.

Definition on_board (st : State) : Prop :=
  snake st ≠ [] ∧ Forall in_grid (snake st) ∧ in_grid (food st) ∧
  ∃ p, direction st = Vec p ∧ unit_step p.

(** Commands of the kind the game is made for: they can be converted to a
    property key, and the key names no member inherited from
    [Object.prototype]. *)
Definition fair_command (c : option JValue) : Prop :=
  match c with
  | Some v => key_raises v = false ∧ ∀ k, key_of v = Some k → inherited k = false
  | None => True
  end.

(** Fair commands, and food inside the grid. *)
Definition fair (h : Happening) : Prop :=
  match h with
  | Command c => fair_command c
  | Tick nf => in_grid nf
  | User _ => True
  end.

End Snake.

(** ** What is put on the screen *)

(** [s.startsWith(p)] *)
Definition starts_with (s p : string) : bool := String.prefix p s.

(** [isClient] of the [Event] component of the log, as a truth value: the
    event has a non-empty id that does not start with "event_". *)
Definition isClient (event : Event) : bool :=
  match event_id event with
  | Some i => negb (String.eqb i "") && negb (starts_with i "event_")
  | None => false
  end.

(** [event.type?.endsWith("delta")], as a truth value. *)
Definition is_delta (event : Event) : bool :=
  match type event with
  | Some t => ends_with t "delta"
  | None => false
  end.

(** What [ToolPanel] renders below its heading. *)
Inductive View :=
| StartPrompt                          (* "Start the session to use these tools..." *)
| AskPrompt                            (* "Ask for a color palette, ..." *)
| PixelArtView (o : Output)            (* <PixelArtOutput functionCallOutput={o} /> *)
| SnakeView (command : option JValue)  (* <Snake command={snakeCommand} /> *)
| PaletteView (o : Output).            (* <FunctionCallOutput functionCallOutput={o} /> *)

Definition ToolPanel_view (w : World) : View :=
  if isSessionActive (app w) then
    match functionCallOutput (panel w) with
    | Some o =>
        if bool_decide (activeFunction (panel w) = Some "create_pixel_art") then PixelArtView o
        else if bool_decide (activeFunction (panel w) = Some "control_snake")
             then SnakeView (snakeCommand (panel w))
             else PaletteView o
    | None => AskPrompt
    end
  else StartPrompt.

(** The "Download PNG" handler of [PixelArtOutput]: the corner [(x, y)] of the
    32 by 32 square filled for the [i]-th color, on a canvas of
    [actualSize] by [actualSize].  [pixelCount] is the [size] argument, taken
    to be a non-zero integer ([%] is the truncated remainder, and the floor of
    the quotient is [Z.div]). *)
Definition actualSize (pixelCount : Z) : Z := pixelCount * 32.

Definition tile (pixelCount i : Z) : Z * Z :=
  (Z.rem i pixelCount * 32, (i / pixelCount) * 32)%Z.

(** The square [fillRect(x, y, 32, 32)] lies on the canvas. *)
Definition on_canvas (pixelCount : Z) (t : Z * Z) : Prop :=
  (0 ≤ t.1 ∧ t.1 + 32 ≤ actualSize pixelCount ∧
   0 ≤ t.2 ∧ t.2 + 32 ≤ actualSize pixelCount)%Z.

(** Neither touched a peer connection nor replaced the id the manifest has
    been given. *)
Definition keeps_peers (w w' : World) : Prop :=
  peers (env w') = peers (env w) ∧
  peerConnection (app w') = peerConnection (app w) ∧
  ∀ i, i ≠ "" → sessionUpdate_event_id (env w) = Some i →
       sessionUpdate_event_id (env w') = Some i.

(** The peer connection [p] is open and the application holds no reference
    to it. *)
Definition unreachable_peer (p : nat) (w : World) : Prop :=
  peer_closed <$> peers (env w) !! p = Some false ∧ peerConnection (app w) ≠ Some p.

Section Calls.

Context `{Platform}.

(** A function call the dispatcher takes: its arguments parse. *)
Definition accepted (o : Output) : bool :=
  String.eqb (output_type o) "function_call" &&
  bool_decide (is_Some (JSON_parse (arguments o))).

(** A call that is answered by a deferred follow-up prompt. *)
Definition deferred (o : Output) : bool :=
  accepted o && negb (String.eqb (name o) "control_snake").

(** What is stored for display went through the dispatcher's check, under
    its own name. *)
Definition valid_display (w : World) : Prop :=
  match functionCallOutput (panel w) with
  | Some o => accepted o = true ∧ activeFunction (panel w) = Some (name o)
  | None => activeFunction (panel w) = None
  end.

(** The session flag and the panel agree with the channels: an active session
    has its current channel open; without an active session no channel is
    open, nothing is stored for display and the tools count as not
    registered. *)
Definition session_in_step (w : World) : Prop :=
  (isSessionActive (app w) = true →
   ∃ c, dataChannel (app w) = Some c ∧ channel_state c w = Some open) ∧
  (isSessionActive (app w) = false →
   functionCallOutput (panel w) = None ∧ activeFunction (panel w) = None ∧
   functionAdded (panel w) = false ∧ ∀ c, channel_state c w ≠ Some open).

End Calls.

(** * Properties *)

Section Lifecycle.

Context `{Platform}.

(** ** Data channels in the store *)

Lemma channel_state_close (c c' : nat) (w : World) :
  channel_state c' (channel_close c w) =
    if decide (c = c') then (λ _, closed) <$> channel_state c' w
    else channel_state c' w.
Proof.
  unfold channel_state, channel_close.
  destruct (channels (env w) !! c) as [ch|] eqn:Hc; simpl.
  - case_decide as Hcc.
    + subst c'. rewrite list_lookup_insert_eq by (by eapply lookup_lt_Some).
      by rewrite Hc.
    + by rewrite list_lookup_insert_ne.
  - case_decide as Hcc; [subst c'; by rewrite Hc | done].
Qed.

Lemma channel_state_peer_close (p c' : nat) (w : World) :
  channel_state c' (peer_close p w) = channel_state c' w ∨
  channel_state c' (peer_close p w) = (λ _, closed) <$> channel_state c' w.
Proof.
  unfold peer_close. destruct (peers (env w) !! p) as [pr|]; [|by left].
  cbn zeta. destruct (peer_channel pr) as [c|]; [|by left].
  rewrite channel_state_close. case_decide; [right | left]; done.
Qed.

Lemma channel_state_env (w w' : World) (c : nat) :
  env w = env w' → channel_state c w = channel_state c w'.
Proof. unfold channel_state. by intros ->. Qed.

Lemma channel_close_app (c : nat) (w : World) : app (channel_close c w) = app w.
Proof. unfold channel_close. by destruct (channels (env w) !! c). Qed.

Lemma channel_close_panel (c : nat) (w : World) : panel (channel_close c w) = panel w.
Proof. unfold channel_close. by destruct (channels (env w) !! c). Qed.


Lemma peer_close_app (p : nat) (w : World) : app (peer_close p w) = app w.
Proof.
  unfold peer_close. destruct (peers (env w) !! p) as [pr|]; [|done].
  cbn zeta. destruct (peer_channel pr); [|done].
  by rewrite channel_close_app.
Qed.

Lemma peer_close_panel (p : nat) (w : World) : panel (peer_close p w) = panel w.
Proof.
  unfold peer_close. destruct (peers (env w) !! p) as [pr|]; [|done].
  cbn zeta. destruct (peer_channel pr); [|done].
  by rewrite channel_close_panel.
Qed.


(** What [stopSession] leaves behind, field by field. *)
Lemma stopSession_app (w : World) :
  app (stopSession w).2 =
    {| isSessionActive := false; events := events (app w);
       dataChannel := None; peerConnection := None |}.
Proof.
  unfold stopSession; simpl.
  destruct (peerConnection (app w)), (dataChannel (app w));
    rewrite ?peer_close_app, ?channel_close_app; done.
Qed.

Lemma stopSession_panel (w : World) : panel (stopSession w).2 = panel w.
Proof.
  unfold stopSession; simpl.
  destruct (peerConnection (app w)), (dataChannel (app w));
    rewrite ?peer_close_panel, ?channel_close_panel; done.
Qed.


Lemma stopSession_closed_is_noop (w : World) :
  session_closed w → stopSession w = (Normal, w).
Proof.
  intros (Ha & Hd & Hp). unfold stopSession. rewrite Hd, Hp.
  destruct w as [[a e d p] pn en]; simpl in *. by subst.
Qed.

Lemma step_stop_world (w : World) :
  step Stop w =
    (Normal, if isSessionActive (app w) then session_effect (stopSession w).2
             else (stopSession w).2).
Proof. reflexivity. Qed.

Lemma session_effect_app (w : World) : app (session_effect w) = app w.
Proof. unfold session_effect. by destruct (isSessionActive (app w)). Qed.

Lemma session_effect_env (w : World) : env (session_effect w) = env w.
Proof. unfold session_effect. by destruct (isSessionActive (app w)). Qed.

Lemma step_stop_app (w : World) :
  app (step Stop w).2 =
    {| isSessionActive := false; events := events (app w);
       dataChannel := None; peerConnection := None |}.
Proof.
  rewrite step_stop_world; simpl.
  destruct (isSessionActive (app w)); rewrite ?session_effect_app;
    apply stopSession_app.
Qed.

Lemma step_stop_env (w : World) : env (step Stop w).2 = env (stopSession w).2.
Proof.
  rewrite step_stop_world; simpl.
  destruct (isSessionActive (app w)); by rewrite ?session_effect_env.
Qed.

Lemma step_stop_closes_channel (w : World) (c : nat) :
  dataChannel (app w) = Some c →
  channel_state c (step Stop w).2 = (λ _, closed) <$> channel_state c w.
Proof.
  intros Hd.
  rewrite (channel_state_env _ (stopSession w).2) by apply step_stop_env.
  assert (Hc : channel_state c (channel_close c w) = (λ _, closed) <$> channel_state c w).
  { rewrite channel_state_close. by rewrite decide_True. }
  unfold stopSession. rewrite Hd.
  destruct (peerConnection (app w)) as [p|].
  - rewrite (channel_state_env _ (peer_close p (channel_close c w))) by done.
    destruct (channel_state_peer_close p c (channel_close c w)) as [-> | ->]; [done|].
    rewrite Hc. by destruct (channel_state c w).
  - by rewrite (channel_state_env _ (channel_close c w)).
Qed.

(** C5. Stopping never raises and always ends in the closed state, whatever
    the state before: stopping a session that was never started changes
    nothing, stopping a second time changes nothing more, and the channel that
    was in use is closed. *)
Theorem stop_is_unconditional_and_idempotent (w : World) :
  (step Stop w).1 = Normal ∧
  session_closed (step Stop w).2 ∧
  step Stop (step Stop w).2 = (Normal, (step Stop w).2) ∧
  step Stop initial = (Normal, initial) ∧
  match dataChannel (app w) with
  | Some c => channel_state c (step Stop w).2 = (λ _, closed) <$> channel_state c w
  | None => True
  end.
Proof.
  assert (Hclosed : session_closed (step Stop w).2).
  { unfold session_closed. by rewrite step_stop_app. }
  split_and!; [done | done | | done | ].
  - rewrite (step_stop_world (step Stop w).2).
    destruct Hclosed as (Ha & Hd & Hp). rewrite Ha.
    by rewrite stopSession_closed_is_noop.
  - destruct (dataChannel (app w)) as [c|] eqn:Hd; [|done].
    by apply step_stop_closes_channel.
Qed.

(** ** Sending *)

Lemma assign_event_id_app (msg : Message) (w : World) :
  app (assign_event_id msg w).2 = app w.
Proof. unfold assign_event_id. by repeat case_match. Qed.

Lemma assign_event_id_panel (msg : Message) (w : World) :
  panel (assign_event_id msg w).2 = panel w.
Proof. unfold assign_event_id. by repeat case_match. Qed.

Lemma assign_event_id_channels (msg : Message) (w : World) :
  channels (env (assign_event_id msg w).2) = channels (env w).
Proof. unfold assign_event_id. by repeat case_match. Qed.

Lemma assign_event_id_timers (msg : Message) (w : World) :
  timers (env (assign_event_id msg w).2) = timers (env w).
Proof. unfold assign_event_id. by repeat case_match. Qed.

Lemma assign_event_id_type (msg : Message) (w : World) :
  type (assign_event_id msg w).1 = type (read_message msg w).
Proof. unfold assign_event_id. by repeat case_match. Qed.

Lemma assign_event_id_uuids (msg : Message) (w : World) :
  uuids (env (assign_event_id msg w).2) =
    if carries_id (read_message msg w) then uuids (env w) else S (uuids (env w)).
Proof. unfold assign_event_id. by repeat case_match. Qed.

(** [sendClientEvent] spelled out by cases on the channel it closes over. *)
Lemma sendClientEvent_unfold (d : option nat) (msg : Message) (w : World) :
  sendClientEvent d msg w =
    match d with
    | None => (Normal, console_error "Failed to send message - no data channel available" w)
    | Some c =>
        let m := (assign_event_id msg w).1 in
        let w1 := (assign_event_id msg w).2 in
        match channels (env w) !! c with
        | Some ch =>
            match readyState ch with
            | open =>
                (Normal,
                 upd_app (λ a, set_events (m :: events a) a)
                   (upd_env (λ e, set_channels
                                    (<[c := {| readyState := open; sent := sent ch ++ [m] |}]>
                                       (channels e)) e) w1))
            | _ => (Throw InvalidStateError, w1)
            end
        | None => (Throw TypeError, w1)
        end
    end.
Proof.
  unfold sendClientEvent. destruct d as [c|]; [|done].
  destruct (assign_event_id msg w) as [m w1] eqn:Ha.
  pose proof (assign_event_id_channels msg w) as Hch. rewrite Ha in Hch. simpl in *.
  unfold channel_send. rewrite Hch.
  destruct (channels (env w) !! c) as [ch|]; [|done].
  by destruct (readyState ch).
Qed.


(** ** The dispatcher's handler leaves the application state alone *)

Lemma handle_output_app (d : option nat) (o : Output) (w : World) :
  app (handle_output d o w) = app w.
Proof. unfold handle_output. by repeat case_match. Qed.

Lemma handle_output_functionAdded (d : option nat) (o : Output) (w : World) :
  functionAdded (panel (handle_output d o w)) = functionAdded (panel w).
Proof. unfold handle_output. by repeat case_match. Qed.

Lemma handle_output_channels (d : option nat) (o : Output) (w : World) :
  channels (env (handle_output d o w)) = channels (env w).
Proof. unfold handle_output. by repeat case_match. Qed.

Lemma handle_output_uuids (d : option nat) (o : Output) (w : World) :
  uuids (env (handle_output d o w)) = uuids (env w).
Proof. unfold handle_output. by repeat case_match. Qed.

Local Abbreviation route d outputs w := (fold_left (λ acc o, handle_output d o acc) outputs w).

Lemma route_app (d : option nat) (outputs : list Output) (w : World) :
  app (route d outputs w) = app w.
Proof.
  revert w. induction outputs as [|o os IH]; intros w; simpl; [done|].
  by rewrite IH, handle_output_app.
Qed.

Lemma route_functionAdded (d : option nat) (outputs : list Output) (w : World) :
  functionAdded (panel (route d outputs w)) = functionAdded (panel w).
Proof.
  revert w. induction outputs as [|o os IH]; intros w; simpl; [done|].
  by rewrite IH, handle_output_functionAdded.
Qed.

Lemma route_channels (d : option nat) (outputs : list Output) (w : World) :
  channels (env (route d outputs w)) = channels (env w).
Proof.
  revert w. induction outputs as [|o os IH]; intros w; simpl; [done|].
  by rewrite IH, handle_output_channels.
Qed.

Lemma route_uuids (d : option nat) (outputs : list Output) (w : World) :
  uuids (env (route d outputs w)) = uuids (env w).
Proof.
  revert w. induction outputs as [|o os IH]; intros w; simpl; [done|].
  by rewrite IH, handle_output_uuids.
Qed.

Lemma snake_effect_app (w : World) : app (snake_effect w) = app w.
Proof. unfold snake_effect. by repeat case_match. Qed.

Lemma snake_effect_env (w : World) : env (snake_effect w) = env w.
Proof. unfold snake_effect. by repeat case_match. Qed.

Lemma snake_effect_functionAdded (w : World) :
  functionAdded (panel (snake_effect w)) = functionAdded (panel w).
Proof. unfold snake_effect. by repeat case_match. Qed.

(** ** Counting manifests on the wire *)








Lemma sendClientEvent_app (d : option nat) (msg : Message) (w : World) :
  isSessionActive (app (sendClientEvent d msg w).2) = isSessionActive (app w) ∧
  dataChannel (app (sendClientEvent d msg w).2) = dataChannel (app w) ∧
  peerConnection (app (sendClientEvent d msg w).2) = peerConnection (app w) ∧
  ∃ new, events (app (sendClientEvent d msg w).2) = (new ++ events (app w))%list.
Proof.
  rewrite sendClientEvent_unfold. destruct d as [c|]; simpl.
  - destruct (channels (env w) !! c) as [ch|]; [destruct (readyState ch)|]; simpl;
      rewrite assign_event_id_app; split_and!; try done;
      first [by exists [] | by eexists [_]].
  - split_and!; try done. by exists [].
Qed.

Lemma sendClientEvent_panel (d : option nat) (msg : Message) (w : World) :
  panel (sendClientEvent d msg w).2 = panel w.
Proof.
  rewrite sendClientEvent_unfold. destruct d as [c|]; simpl; [|done].
  destruct (channels (env w) !! c) as [ch|]; [destruct (readyState ch)|]; simpl;
    by rewrite assign_event_id_panel.
Qed.

Lemma sendClientEvent_timers (d : option nat) (msg : Message) (w : World) :
  timers (env (sendClientEvent d msg w).2) = timers (env w).
Proof.
  rewrite sendClientEvent_unfold. destruct d as [c|]; simpl; [|done].
  destruct (channels (env w) !! c) as [ch|]; [destruct (readyState ch)|]; simpl;
    by rewrite assign_event_id_timers.
Qed.

Lemma sendClientEvent_uuids (d : option nat) (msg : Message) (w : World) :
  (uuids (env w) ≤ uuids (env (sendClientEvent d msg w).2))%nat.
Proof.
  rewrite sendClientEvent_unfold. destruct d as [c|]; simpl; [|done].
  destruct (channels (env w) !! c) as [ch|]; [destruct (readyState ch)|]; simpl;
    rewrite assign_event_id_uuids; case_match; lia.
Qed.

(** ** Everything but start, stop and open only grows the state *)

Lemma grows_refl (w : World) : grows w w.
Proof. unfold grows. split_and!; try done. by exists []. Qed.

Lemma grows_trans (w1 w2 w3 : World) : grows w1 w2 → grows w2 w3 → grows w1 w3.
Proof.
  intros (Ha & Hd & Hp & [n1 He] & Hu & Hf) (Ha' & Hd' & Hp' & [n2 He'] & Hu' & Hf').
  unfold grows. split_and!; try congruence; try lia; try tauto.
  exists (n2 ++ n1). by rewrite He', He, (assoc_L (++)).
Qed.

Lemma grows_same (w w' : World) :
  app w' = app w → uuids (env w') = uuids (env w) →
  functionAdded (panel w') = functionAdded (panel w) → grows w w'.
Proof.
  intros Ha Hu Hf. unfold grows. rewrite Ha, Hu, Hf.
  split_and!; try done. by exists [].
Qed.

Lemma sendClientEvent_grows (d : option nat) (msg : Message) (w : World) :
  grows w (sendClientEvent d msg w).2.
Proof.
  destruct (sendClientEvent_app d msg w) as (Ha & Hd & Hp & He).
  unfold grows. split_and!; try done.
  - apply sendClientEvent_uuids.
  - by rewrite sendClientEvent_panel.
Qed.

Lemma route_grows (d : option nat) (outputs : list Output) (w : World) :
  grows w (route d outputs w).
Proof.
  apply grows_same; [apply route_app | apply route_uuids | apply route_functionAdded].
Qed.

Lemma snake_effect_grows (w : World) : grows w (snake_effect w).
Proof.
  apply grows_same; [apply snake_effect_app | by rewrite snake_effect_env
                    | apply snake_effect_functionAdded].
Qed.

Lemma register_tools_grows (firstEvent : Event) (w : World) :
  grows w (register_tools firstEvent w).2.
Proof.
  unfold register_tools. case_match; [|apply grows_refl].
  pose proof (sendClientEvent_grows (dataChannel (app w)) SessionUpdateObject w) as Hg.
  destruct (sendClientEvent _ _ w) as [[|e] w1]; simpl in *; [|done].
  destruct Hg as (Ha & Hd & Hp & He & Hu & Hf). unfold grows. by split_and!.
Qed.

Lemma route_response_grows (d : option nat) (mostRecentEvent : Event) (w : World) :
  grows w (route_response handle_output d mostRecentEvent w).2.
Proof.
  unfold route_response. repeat case_match; simpl;
    first [apply route_grows | apply grows_refl].
Qed.

Lemma dispatch_effect_grows (w : World) : grows w (dispatch_effect w).2.
Proof.
  unfold dispatch_effect, dispatch_effect_with.
  destruct (last (events (app w))) as [f|]; [|apply grows_refl].
  destruct (head (events (app w))) as [m|]; [|apply grows_refl].
  pose proof (register_tools_grows f w) as Hg.
  destruct (register_tools f w) as [[|e] w1]; simpl in *; [|done].
  eapply grows_trans; [done|]. apply route_response_grows.
Qed.

Lemma commit_S (k : nat) (w : World) :
  commit (S k) w =
    match dispatch_effect w with
    | (Normal, w1) =>
        if events_changed w (snake_effect w1) then commit k (snake_effect w1)
        else (Normal, snake_effect w1)
    | (Throw e, w1) => (Throw e, w1)
    end.
Proof. reflexivity. Qed.

Lemma commit_grows (fuel : nat) (w : World) : grows w (commit fuel w).2.
Proof.
  revert w. induction fuel as [|k IH]; intros w; [apply grows_refl|].
  rewrite commit_S.
  pose proof (dispatch_effect_grows w) as Hg.
  destruct (dispatch_effect w) as [[|e] w1]; simpl in *; [|done].
  assert (grows w (snake_effect w1)) as Hg2.
  { eapply grows_trans; [done|]. apply snake_effect_grows. }
  case_match; [|done]. eapply grows_trans; [done|]. apply IH.
Qed.

Lemma rerender_grows (before w : World) (r : Completion * World) :
  grows w r.2 → grows w (rerender before r).2.
Proof.
  intros Hg. unfold rerender. destruct r as [[|e] w1]; cbn [snd] in *; [|done].
  case_match; [|done]. eapply grows_trans; [done|]. apply commit_grows.
Qed.

Lemma on_message_grows (data : string) (w : World) : grows w (on_message data w).
Proof.
  unfold on_message. destruct (decode_event data) as [ev|].
  - unfold grows; simpl. split_and!; try done. by exists [ev].
  - by apply grows_same.
Qed.

Lemma sendTextMessage_grows (d : option nat) (message : string) (w : World) :
  grows w (sendTextMessage d message w).2.
Proof.
  unfold sendTextMessage.
  pose proof (sendClientEvent_grows d (Literal (text_item_event message)) w) as Hg.
  destruct (sendClientEvent d (Literal (text_item_event message)) w) as [[|e] w1];
    simpl in *; [|done].
  eapply grows_trans; [done|]. apply sendClientEvent_grows.
Qed.

(** During a session the state only grows: every stimulus other than start,
    stop and open keeps the session fields, prepends to [events], and leaves
    a set registered flag set. *)
Lemma step_grows (s : Stimulus) (w : World) :
  match s with
  | Start _ | Stop | ChannelOpen _ => True
  | _ => grows w (step s w).2
  end.
Proof.
  destruct s as [o| |c|c data|m|message|]; try done; unfold step.
  - repeat case_match; try apply grows_refl.
    apply rerender_grows. apply on_message_grows.
  - apply rerender_grows, sendClientEvent_grows.
  - apply rerender_grows, sendTextMessage_grows.
  - destruct (timers (env w)) as [|t rest]; [apply grows_refl|].
    eapply (grows_trans _ (upd_env (set_timers rest) w)); [by apply grows_same|].
    apply rerender_grows, sendClientEvent_grows.
Qed.

(** ** Start, stop and open *)

Lemma commit_empty (fuel : nat) (w : World) :
  events (app w) = [] → commit fuel w = (Normal, w).
Proof.
  intros He. destruct fuel as [|k]; [done|]. rewrite commit_S.
  assert (dispatch_effect w = (Normal, w)) as ->.
  { unfold dispatch_effect, dispatch_effect_with. by rewrite He. }
  assert (snake_effect w = w) as ->.
  { unfold snake_effect. by rewrite He. }
  unfold events_changed. by rewrite Nat.eqb_refl.
Qed.

Lemma session_effect_active (w : World) :
  isSessionActive (app w) = true → session_effect w = w.
Proof. unfold session_effect. by intros ->. Qed.

(** The "open" event of a connecting channel: the channel becomes open, the
    session active, and the event list empty. *)
Lemma step_open (c : nat) (w : World) (ch : Channel) :
  channels (env w) !! c = Some ch → readyState ch = connecting →
  step (ChannelOpen c) w =
    (Normal,
     on_open (upd_env (λ e, set_channels
                              (<[c := {| readyState := open; sent := sent ch |}]> (channels e)) e) w)).
Proof.
  intros Hc Hr. unfold step. rewrite Hc, Hr.
  rewrite (session_effect_active (on_open _)) by done.
  destruct (isSessionActive (app w)); by apply commit_empty.
Qed.

Lemma step_open_ignored (c : nat) (w : World) :
  channel_state c w ≠ Some connecting → step (ChannelOpen c) w = (Normal, w).
Proof.
  unfold channel_state, step. destruct (channels (env w) !! c) as [ch|]; [|done].
  simpl. by destruct (readyState ch).
Qed.

Lemma startSession_app (o : StartOutcome) (w : World) :
  isSessionActive (app (startSession o w).2) = isSessionActive (app w) ∧
  events (app (startSession o w).2) = events (app w).
Proof. by destruct o. Qed.

Lemma startSession_panel (o : StartOutcome) (w : World) :
  panel (startSession o w).2 = panel w.
Proof. by destruct o. Qed.

Lemma startSession_uuids (o : StartOutcome) (w : World) :
  uuids (env (startSession o w).2) = uuids (env w).
Proof. by destruct o. Qed.

Lemma channel_close_uuids (c : nat) (w : World) :
  uuids (env (channel_close c w)) = uuids (env w).
Proof. unfold channel_close. by destruct (channels (env w) !! c). Qed.

Lemma peer_close_uuids (p : nat) (w : World) :
  uuids (env (peer_close p w)) = uuids (env w).
Proof.
  unfold peer_close. destruct (peers (env w) !! p) as [pr|]; [|done].
  cbn zeta. destruct (peer_channel pr); [|done].
  by rewrite channel_close_uuids.
Qed.

Lemma step_stop_uuids (w : World) : uuids (env (step Stop w).2) = uuids (env w).
Proof.
  rewrite step_stop_env. unfold stopSession; simpl.
  destruct (peerConnection (app w)), (dataChannel (app w));
    rewrite ?peer_close_uuids, ?channel_close_uuids; done.
Qed.

(** Every stimulus either empties the event list (a channel opening) or
    prepends to it. *)
Lemma step_events (s : Stimulus) (w : World) :
  events (app (step s w).2) = [] ∨
  ∃ new, events (app (step s w).2) = new ++ events (app w).
Proof.
  pose proof (step_grows s w) as Hg.
  destruct s as [o| |c|c data|m|message|];
    try (right; by destruct Hg as (_ & _ & _ & He & _)).
  - right. exists []. apply startSession_app.
  - right. exists []. by rewrite step_stop_app.
  - destruct (decide (channel_state c w = Some connecting)) as [Hc|Hc].
    + unfold channel_state in Hc.
      destruct (channels (env w) !! c) as [ch|] eqn:Hch; [|done].
      simpl in Hc. left. rewrite (step_open c w ch); [done|done|congruence].
    + right. exists []. by rewrite step_open_ignored.
Qed.

(** No stimulus takes back an id that was drawn. *)
Lemma step_uuids (s : Stimulus) (w : World) :
  uuids (env w) ≤ uuids (env (step s w).2).
Proof.
  pose proof (step_grows s w) as Hg.
  destruct s as [o| |c|c data|m|message|];
    try (by destruct Hg as (_ & _ & _ & _ & Hu & _)).
  - unfold step. by rewrite startSession_uuids.
  - by rewrite step_stop_uuids.
  - destruct (decide (channel_state c w = Some connecting)) as [Hc|Hc].
    + unfold channel_state in Hc.
      destruct (channels (env w) !! c) as [ch|] eqn:Hch; [|done].
      simpl in Hc. rewrite (step_open c w ch); [done|done|congruence].
    + by rewrite step_open_ignored.
Qed.


(** ** Order of the event list *)

Lemma run_cons (s : Stimulus) (tr : list Stimulus) (w : World) :
  run (s :: tr) w = run tr (step s w).2.
Proof. reflexivity. Qed.

Lemma step_events_in_session (s : Stimulus) (w : World) :
  ¬ is_open_stimulus s →
  ∃ new, events (app (step s w).2) = new ++ events (app w).
Proof.
  intros Hs. pose proof (step_grows s w) as Hg.
  destruct s as [o| |c|c data|m|message|];
    try (by destruct Hg as (_ & _ & _ & He & _)).
  - exists []. apply startSession_app.
  - exists []. by rewrite step_stop_app.
  - by destruct Hs.
Qed.

Lemma run_events_in_session (tr : list Stimulus) (w : World) :
  Forall (λ s, ¬ is_open_stimulus s) tr →
  ∃ new, events (app (run tr w)) = new ++ events (app w).
Proof.
  revert w. induction tr as [|s tr IH]; intros w Htr.
  - by exists [].
  - apply Forall_cons in Htr as [Hs Htr]. rewrite run_cons.
    destruct (IH (step s w).2 Htr) as [n2 He2].
    destruct (step_events_in_session s w Hs) as [n1 He1].
    exists (n2 ++ n1). by rewrite He2, He1, (assoc_L (++)).
Qed.

(** C10. The event list is kept newest first.  A send over an open channel
    completes and puts its event at the front, a send that fails leaves the
    list as it is, and a decoded inbound message is put at the front; when
    such an event arrives or is sent by the user interface, it is at the front
    of the list that the effects see, and whatever the effects send in turn
    comes in front of it.  Every stimulus either empties the list (a channel
    opening) or prepends to it.  So while no channel opens the list only grows
    at the front: what was the oldest event stays last, which is where the
    dispatcher looks for the first event of the session, and the latest event
    is at index 0. *)
Theorem events_kept_newest_first (tr : list Stimulus) (w : World) (oldest : Event)
    (Htr : Forall (λ s, ¬ is_open_stimulus s) tr)
    (Hold : last (events (app w)) = Some oldest) :
  (∀ c msg w0,
     match sendClientEvent (Some c) msg w0 with
     | (Normal, w') => events (app w') = (assign_event_id msg w0).1 :: events (app w0)
     | (Throw _, w') => events (app w') = events (app w0)
     end) ∧
  (∀ c ch msg w0,
     channels (env w0) !! c = Some ch → readyState ch = open →
     ∃ w', sendClientEvent (Some c) msg w0 = (Normal, w') ∧
           events (app w') = (assign_event_id msg w0).1 :: events (app w0) ∧
           head (events (app w')) = Some (assign_event_id msg w0).1 ∧
           last (events (app w')) =
             match last (events (app w0)) with
             | Some first => Some first
             | None => Some (assign_event_id msg w0).1
             end) ∧
  (∀ data w0,
     events (app (on_message data w0)) =
       match decode_event data with
       | Some ev => ev :: events (app w0)
       | None => events (app w0)
       end) ∧
  (∀ c data ev w0,
     channel_state c w0 = Some open → decode_event data = Some ev →
     ∃ sent_by_effects,
       events (app (step (ChannelMessage c data) w0).2) =
         sent_by_effects ++ ev :: events (app w0)) ∧
  (∀ c ch m w0,
     dataChannel (app w0) = Some c →
     channels (env w0) !! c = Some ch → readyState ch = open →
     ∃ sent_by_effects,
       events (app (step (ClientSend m) w0).2) =
         sent_by_effects ++ (assign_event_id (Literal m) w0).1 :: events (app w0)) ∧
  (∀ s w0,
     events (app (step s w0).2) = [] ∨
     ∃ new, events (app (step s w0).2) = new ++ events (app w0)) ∧
  (∃ new, events (app (run tr w)) = new ++ events (app w)) ∧
  last (events (app (run tr w))) = Some oldest.
Proof.
  split_and!.
  - intros c msg w0. rewrite sendClientEvent_unfold. simpl.
    destruct (channels (env w0) !! c) as [ch|]; [destruct (readyState ch)|]; simpl;
      by rewrite assign_event_id_app.
  - intros c ch msg w0 Hc Ho. rewrite sendClientEvent_unfold. cbn zeta.
    rewrite Hc, Ho. eexists. split; [done|]. cbn.
    rewrite assign_event_id_app. split_and!; try done.
    rewrite last_cons. by destruct (last (events (app w0))).
  - intros data w0. unfold on_message. by destruct (decode_event data).
  - intros c data ev w0 Hc Hdec. unfold step. rewrite Hc.
    destruct (rerender_grows w0 (on_message data w0) (Normal, on_message data w0))
      as (_ & _ & _ & [new Hnew] & _); [apply grows_refl|].
    exists new. rewrite Hnew. unfold on_message. by rewrite Hdec.
  - intros c ch m w0 Hd Hc Ho. unfold step. rewrite Hd.
    assert (sendClientEvent (Some c) (Literal m) w0 =
              (Normal, (sendClientEvent (Some c) (Literal m) w0).2) ∧
            events (app (sendClientEvent (Some c) (Literal m) w0).2) =
              (assign_event_id (Literal m) w0).1 :: events (app w0)) as [Hsend Hev].
    { rewrite sendClientEvent_unfold. cbn zeta. rewrite Hc, Ho. cbn.
      by rewrite assign_event_id_app. }
    rewrite Hsend.
    destruct (rerender_grows w0 (sendClientEvent (Some c) (Literal m) w0).2
                (Normal, (sendClientEvent (Some c) (Literal m) w0).2))
      as (_ & _ & _ & [new Hnew] & _); [apply grows_refl|].
    exists new. by rewrite Hnew, Hev.
  - apply step_events.
  - by apply run_events_in_session.
  - destruct (run_events_in_session tr w Htr) as [new ->].
    by rewrite last_app, Hold.
Qed.

(** ** Event ids *)

Lemma send_fresh_literal (c : nat) (m : Event) (w : World) (ch : Channel) :
  channels (env w) !! c = Some ch → readyState ch = open → carries_id m = false →
  let m' := with_event_id (Some (randomUUID (uuids (env w)))) m in
  ∃ w', sendClientEvent (Some c) (Literal m) w = (Normal, w') ∧
        channels (env w') !! c = Some {| readyState := open; sent := sent ch ++ [m'] |} ∧
        events (app w') = m' :: events (app w) ∧
        uuids (env w') = S (uuids (env w)).
Proof.
  intros Hc Ho Hm m'. rewrite sendClientEvent_unfold. simpl. rewrite Hc, Ho.
  eexists; split; [done|].
  unfold assign_event_id; simpl. rewrite Hm; simpl. split_and!; try done.
  apply list_lookup_insert_eq. by eapply lookup_lt_Some.
Qed.

Lemma send_literal_with_id (c : nat) (m : Event) (w : World) (ch : Channel) :
  channels (env w) !! c = Some ch → readyState ch = open → carries_id m = true →
  ∃ w', sendClientEvent (Some c) (Literal m) w = (Normal, w') ∧
        channels (env w') !! c = Some {| readyState := open; sent := sent ch ++ [m] |} ∧
        events (app w') = m :: events (app w) ∧
        uuids (env w') = uuids (env w).
Proof.
  intros Hc Ho Hm. rewrite sendClientEvent_unfold. simpl. rewrite Hc, Ho.
  eexists; split; [done|].
  unfold assign_event_id; simpl. rewrite Hm; simpl. split_and!; try done.
  apply list_lookup_insert_eq. by eapply lookup_lt_Some.
Qed.

Lemma send_all_fresh (c : nat) (ms : list Event) (w : World) (ch : Channel) :
  channels (env w) !! c = Some ch → readyState ch = open →
  Forall (λ m, carries_id m = false) ms →
  channels (env (send_all (Some c) ms w)) !! c =
    Some {| readyState := open; sent := sent ch ++ stamped (uuids (env w)) ms |} ∧
  events (app (send_all (Some c) ms w)) =
    rev (stamped (uuids (env w)) ms) ++ events (app w) ∧
  uuids (env (send_all (Some c) ms w)) = uuids (env w) + length ms.
Proof.
  revert w ch. induction ms as [|m ms IH]; intros w ch Hc Ho Hms.
  - simpl. rewrite app_nil_r, Nat.add_0_r. split_and!; try done.
    rewrite Hc. by destruct ch; simpl in *; subst.
  - apply Forall_cons in Hms as [Hm Hms].
    destruct (send_fresh_literal c m w ch Hc Ho Hm) as (w' & Hsend & Hc' & He' & Hu').
    unfold send_all in *. simpl. rewrite Hsend. simpl.
    destruct (IH w' _ Hc' eq_refl Hms) as (IHc & IHe & IHu).
    rewrite IHc, IHe, IHu, Hu', He'. simpl.
    rewrite <- !(assoc_L (++)). simpl. split_and!; try done; lia.
Qed.

Lemma stamped_ids (n : nat) (ms : list Event) :
  event_id <$> stamped n ms = (λ k, Some (randomUUID k)) <$> seq n (length ms).
Proof.
  revert n. induction ms as [|m ms IH]; intros n; simpl; [done|]. by rewrite IH.
Qed.

(** C8. Sending events that carry no id over the open channel gives the
    [i]-th of them the id of the [i]-th next call of the generator; as the
    generator does not repeat itself, the assigned ids are pairwise distinct.
    Nothing that happens in between gives a drawn id back.  An event that
    carries an id (a non-empty [event_id]) is transmitted and recorded as it
    is, and draws no id. *)
Theorem assigned_ids_are_fresh (ms : list Event) (w : World) (c : nat) (ch : Channel)
    (Hinj : Inj (=) (=) randomUUID)
    (Hc : channels (env w) !! c = Some ch)
    (Ho : readyState ch = open)
    (Hms : Forall (λ m, carries_id m = false) ms) :
  channels (env (send_all (Some c) ms w)) !! c =
    Some {| readyState := open; sent := sent ch ++ stamped (uuids (env w)) ms |} ∧
  events (app (send_all (Some c) ms w)) =
    rev (stamped (uuids (env w)) ms) ++ events (app w) ∧
  event_id <$> stamped (uuids (env w)) ms =
    (λ k, Some (randomUUID k)) <$> seq (uuids (env w)) (length ms) ∧
  NoDup (event_id <$> stamped (uuids (env w)) ms) ∧
  uuids (env (send_all (Some c) ms w)) = uuids (env w) + length ms ∧
  (∀ s w0, uuids (env w0) ≤ uuids (env (step s w0).2)) ∧
  (∀ m, carries_id m = true →
     ∃ w', sendClientEvent (Some c) (Literal m) w = (Normal, w') ∧
           channels (env w') !! c = Some {| readyState := open; sent := sent ch ++ [m] |} ∧
           events (app w') = m :: events (app w) ∧
           uuids (env w') = uuids (env w)).
Proof.
  destruct (send_all_fresh c ms w ch Hc Ho Hms) as (Hsent & Hev & Hu).
  split_and!; try done.
  - apply stamped_ids.
  - rewrite stamped_ids. apply NoDup_fmap_2; [|apply NoDup_seq].
    intros x y Hxy. apply Hinj. congruence.
  - apply step_uuids.
  - intros m Hm. by apply send_literal_with_id.
Qed.

End Lifecycle.

(** ** The event log *)

Section Log.

Implicit Types (st : gmap string Event * list Event) (D : gmap string Event).

Lemma record_event_display D (L : list Event) (ev : option Event) :
  record_event (D, L) ev =
    ((record_event (D, []) ev).1, L ++ (record_event (D, []) ev).2).
Proof.
  unfold record_event; simpl.
  repeat case_match; simpl; by rewrite ?app_nil_r.
Qed.

Lemma record_fold_display (evs : list (option Event)) D (L : list Event) :
  fold_left record_event evs (D, L) =
    ((fold_left record_event evs (D, [])).1,
     L ++ (fold_left record_event evs (D, [])).2).
Proof.
  revert D L. induction evs as [|ev evs IH]; intros D L; simpl.
  - by rewrite app_nil_r.
  - rewrite record_event_display.
    destruct (record_event (D, []) ev) as [D1 l1] eqn:Hr; simpl.
    rewrite IH. rewrite (IH D1 l1). simpl. by rewrite (assoc_L (++)).
Qed.

(** Events of another type do not touch the entry of type [t]. *)
Lemma record_fold_other (evs : list (option Event)) D (t : string) :
  Forall (λ o, ∀ x, o = Some x → type x ≠ Some t) evs →
  (fold_left record_event evs (D, [])).1 !! t = D !! t ∧
  filter (λ x, type x = Some t) (fold_left record_event evs (D, [])).2 = [].
Proof.
  revert D. induction evs as [|ev evs IH]; intros D Hevs; simpl; [done|].
  apply Forall_cons in Hevs as [Hev Hevs].
  rewrite record_event_display, record_fold_display. simpl.
  destruct (record_event (D, []) ev) as [D1 l1] eqn:Hr; simpl.
  destruct (IH D1 Hevs) as [IHD IHL]. rewrite IHD, filter_app, IHL, app_nil_r.
  unfold record_event in Hr. simpl in Hr.
  destruct ev as [x|]; [|by simplify_eq].
  specialize (Hev x eq_refl).
  destruct (type x) as [t'|] eqn:Ht'; [|simplify_eq; split; [done|]].
  - destruct (ends_with t' "delta").
    + destruct (D !! t') eqn:HD; simplify_eq; [done|].
      split; [apply lookup_insert_ne; congruence|].
      rewrite filter_cons, decide_False by congruence. done.
    + simplify_eq. split; [done|].
      rewrite filter_cons, decide_False by congruence. done.
  - rewrite filter_cons, decide_False by congruence. done.
Qed.

(** Once a delta of type [t] is on display, later ones of that type are
    skipped. *)
Lemma record_fold_seen (evs : list (option Event)) D (t : string) :
  ends_with t "delta" = true → is_Some (D !! t) →
  filter (λ x, type x = Some t) (fold_left record_event evs (D, [])).2 = [].
Proof.
  intros Hd. revert D. induction evs as [|ev evs IH]; intros D HD; simpl; [done|].
  rewrite record_event_display, record_fold_display. simpl.
  destruct (record_event (D, []) ev) as [D1 l1] eqn:Hr; simpl.
  unfold record_event in Hr. simpl in Hr. rewrite filter_app.
  destruct ev as [x|]; [|simplify_eq; by rewrite IH].
  destruct (type x) as [t'|] eqn:Ht'.
  - destruct (ends_with t' "delta") eqn:Hd'.
    + destruct (D !! t') eqn:HD'; simplify_eq; [by rewrite IH|].
      assert (t' ≠ t) as Hne by (intros ->; rewrite HD' in HD; by destruct HD).
      rewrite IH by (by rewrite lookup_insert_ne).
      rewrite filter_cons, decide_False by congruence. done.
    + simplify_eq. assert (t' ≠ t) as Hne by congruence.
      rewrite IH by done.
      rewrite filter_cons, decide_False by congruence. done.
  - simplify_eq. rewrite IH by done.
    rewrite filter_cons, decide_False by congruence. done.
Qed.

(** The first delta of a type in the list handed to the log is the one
    displayed, where it stands; the later ones of that type are dropped. *)
Lemma EventLog_first_delta_kept (pre post : list (option Event)) (e : Event) (t : string) :
  type e = Some t → ends_with t "delta" = true →
  Forall (λ o, ∀ x, o = Some x → type x ≠ Some t) pre →
  filter (λ x, type x = Some t) (EventLog (pre ++ Some e :: post)) = [e] ∧
  ∃ tail, EventLog (pre ++ Some e :: post) = EventLog pre ++ e :: tail.
Proof.
  intros Ht Hd Hpre. unfold EventLog.
  rewrite fold_left_app. cbn [fold_left].
  destruct (record_fold_other pre ∅ t Hpre) as [HD HL].
  destruct (fold_left record_event pre (∅, [])) as [D1 L1] eqn:Hfold.
  cbn [fst snd] in *. rewrite lookup_empty in HD.
  assert (record_event (D1, L1) (Some e) = (<[t := e]> D1, L1 ++ [e])) as ->.
  { unfold record_event; simpl. by rewrite Ht, Hd, HD. }
  rewrite record_fold_display. simpl. split.
  - rewrite !filter_app, HL. simpl.
    rewrite record_fold_seen; [|done|by rewrite lookup_insert_eq].
    rewrite filter_cons, decide_True by done. done.
  - eexists. by rewrite <- (assoc_L (++)).
Qed.

Lemma received_events (rs : list Event) (w : World) :
  events (app (received rs w)) = rev rs ++ events (app w).
Proof.
  revert w. induction rs as [|r rs IH]; intros w; simpl; [done|].
  unfold received in *. simpl. rewrite IH. simpl. by rewrite <- (assoc_L (++)).
Qed.

(** C4 (as amended). Of the delta events of one type, the log displays
    exactly one, the most recently received, whatever older ones of that type
    arrived before it.  Nothing is replaced in place: the events list is
    newest first, so that entry is the first of its type in the list handed to
    the log, and it is displayed at the place of that latest arrival, right
    after the entries of the events received after it, not at the place of the
    delta that was received first. *)
Theorem eventlog_keeps_latest_delta (older newer : list Event) (e : Event) (t : string)
    (w : World)
    (Hw : events (app w) = [])
    (Ht : type e = Some t)
    (Hd : ends_with t "delta" = true)
    (Hn : Forall (λ x, type x ≠ Some t) newer) :
  events (app (received (older ++ e :: newer) w)) = rev newer ++ e :: rev older ∧
  filter (λ x, type x = Some t)
    (EventLog (Some <$> events (app (received (older ++ e :: newer) w)))) = [e] ∧
  ∃ tail,
    EventLog (Some <$> events (app (received (older ++ e :: newer) w))) =
      EventLog (Some <$> rev newer) ++ e :: tail.
Proof.
  assert (events (app (received (older ++ e :: newer) w)) = rev newer ++ e :: rev older)
    as Hev.
  { rewrite received_events, Hw, app_nil_r, rev_app_distr. simpl.
    by rewrite <- (assoc_L (++)). }
  rewrite Hev. split; [done|].
  rewrite fmap_app, fmap_cons.
  apply EventLog_first_delta_kept; [done|done|].
  apply Forall_fmap, Forall_rev. eapply Forall_impl; [exact Hn|].
  intros x Hx y [= <-]. done.
Qed.

End Log.

(** ** The dispatcher *)

Section Dispatcher.

Context `{Platform}.

Local Abbreviation route d outputs w := (fold_left (λ acc o, handle_output d o acc) outputs w).

Local Abbreviation not_manifest := (λ t : Timer, type (timer_message t) ≠ Some "session.update").

(** *** One-time registration *)


Lemma handle_output_timers (d : option nat) (o : Output) (w : World) :
  timers (env (handle_output d o w)) = timers (env w) ∨
  timers (env (handle_output d o w)) =
    timers (env w) ++
      [{| timer_delay := 500; timer_channel := d; timer_message := follow_up (name o) |}].
Proof. unfold handle_output. repeat case_match; simpl; auto. Qed.




















(** Once registered, an event that is neither a completed response nor a
    snake command makes the effects do nothing. *)
Lemma commit_idle (fuel : nat) (w : World) :
  functionAdded (panel w) = true →
  (∀ m, head (events (app w)) = Some m →
        type m ≠ Some "response.done" ∧ type m ≠ Some "snake.command") →
  commit fuel w = (Normal, w).
Proof.
  intros Hf Hm. destruct fuel as [|k]; [done|]. rewrite commit_S.
  assert (dispatch_effect w = (Normal, w)) as ->.
  { unfold dispatch_effect, dispatch_effect_with.
    destruct (last (events (app w))) as [f|]; [|done].
    destruct (head (events (app w))) as [m|]; [|done].
    unfold register_tools. rewrite Hf. simpl.
    unfold route_response, type_is.
    destruct (Hm m eq_refl) as [Hd _]. by rewrite bool_decide_eq_false_2. }
  assert (snake_effect w = w) as ->.
  { unfold snake_effect. destruct (head (events (app w))) as [m|]; [|done].
    destruct (Hm m eq_refl) as [_ Hs]. unfold type_is.
    by rewrite bool_decide_eq_false_2. }
  unfold events_changed. by rewrite Nat.eqb_refl.
Qed.

Lemma assign_event_id_upd_app (f : AppState → AppState) (msg : Message) (w : World) :
  (assign_event_id msg (upd_app f w)).1 = (assign_event_id msg w).1.
Proof. destruct msg; unfold assign_event_id; simpl; by case_match. Qed.


(** The effects change [events] only by recording the manifest they sent. *)
Lemma dispatch_effect_changed (w w1 : World) :
  dispatch_effect w = (Normal, w1) →
  events_changed w (snake_effect w1) = true →
  functionAdded (panel (snake_effect w1)) = true ∧
  ∀ m, head (events (app (snake_effect w1))) = Some m → type m = Some "session.update".
Proof.
  unfold events_changed. rewrite snake_effect_app, snake_effect_functionAdded.
  unfold dispatch_effect, dispatch_effect_with.
  destruct (last (events (app w))) as [f|]; cycle 1.
  { intros [= <-]. by rewrite Nat.eqb_refl. }
  destruct (head (events (app w))) as [m0|]; cycle 1.
  { intros [= <-]. by rewrite Nat.eqb_refl. }
  destruct (register_tools f w) as [[|e] w2] eqn:Hreg; [|done].
  intros Hroute Hch.
  assert (app w1 = app w2 ∧ functionAdded (panel w1) = functionAdded (panel w2))
    as [Happ Hflag].
  { unfold route_response in Hroute.
    repeat case_match; simplify_eq; try done.
    by rewrite route_app, route_functionAdded. }
  rewrite Happ in *. rewrite Hflag. clear Hroute Happ Hflag.
  unfold register_tools in Hreg.
  destruct (negb (functionAdded (panel w)) && type_is "session.created" f); cycle 1.
  { simplify_eq. by rewrite Nat.eqb_refl in Hch. }
  rewrite sendClientEvent_unfold in Hreg.
  destruct (dataChannel (app w)) as [c|]; cycle 1.
  { simplify_eq. simpl in Hch. by rewrite Nat.eqb_refl in Hch. }
  cbn zeta in Hreg.
  destruct (channels (env w) !! c) as [ch|]; [|done].
  destruct (readyState ch); simplify_eq. simpl. split; [done|].
  intros m [= <-]. by rewrite assign_event_id_type.
Qed.

(** One more round of effects is always enough: a round that changed
    [events] is followed by a round that does nothing. *)
Lemma commit_settles (k : nat) (w : World) : commit (S k) w = commit 1 w.
Proof.
  rewrite !commit_S.
  destruct (dispatch_effect w) as [[|e] w1] eqn:Hd; [|done].
  destruct (events_changed w (snake_effect w1)) eqn:Hch; [|done].
  destruct (dispatch_effect_changed w w1 Hd Hch) as [Hf Hm].
  rewrite !commit_idle; try done; intros m Hhead; by rewrite (Hm m Hhead).
Qed.

(** X20. The dispatcher looks for "session.created" at the old end of the list
    only: when some other event is the oldest one, a "session.created" that
    arrives later is recorded and no manifest is sent. *)
Lemma late_session_created_is_not_registered (c : nat) (data : string) (ev old : Event)
    (w : World) :
  decode_event data = Some ev → type ev = Some "session.created" →
  channel_state c w = Some open →
  last (events (app w)) = Some old → type old ≠ Some "session.created" →
  step (ChannelMessage c data) w = (Normal, on_message data w).
Proof.
  intros Hdec Hty Hc Hlast Hold. unfold step. rewrite Hc.
  unfold rerender. case_match; [|done].
  unfold on_message. rewrite Hdec.
  set (w1 := upd_app (λ a, set_events (ev :: events a) a) w).
  assert (last (events (app w1)) = Some old) as Hlast1.
  { simpl. destruct (events (app w)); [done|]. by rewrite last_cons, Hlast. }
  rewrite commit_S.
  assert (dispatch_effect w1 = (Normal, w1)) as ->.
  { unfold dispatch_effect, dispatch_effect_with. rewrite Hlast1. simpl.
    unfold register_tools, type_is.
    rewrite (bool_decide_eq_false_2 _ Hold), andb_false_r.
    unfold route_response, type_is. by rewrite Hty. }
  assert (snake_effect w1 = w1) as ->.
  { unfold snake_effect, type_is. simpl. by rewrite Hty. }
  unfold events_changed. by rewrite Nat.eqb_refl.
Qed.

Lemma register_tools_timers (firstEvent : Event) (w : World) :
  timers (env (register_tools firstEvent w).2) = timers (env w).
Proof.
  unfold register_tools. case_match; [|done].
  pose proof (sendClientEvent_timers (dataChannel (app w)) SessionUpdateObject w) as Ht.
  by destruct (sendClientEvent _ _ w) as [[|e] w1].
Qed.

Lemma register_tools_head (firstEvent : Event) (w : World) :
  head (events (app (register_tools firstEvent w).2)) = head (events (app w)) ∨
  ∃ m, head (events (app (register_tools firstEvent w).2)) = Some m ∧
       type m = Some "session.update".
Proof.
  unfold register_tools. case_match; [|by left].
  rewrite sendClientEvent_unfold.
  destruct (dataChannel (app w)) as [c|]; [|by left]. cbn zeta.
  destruct (channels (env w) !! c) as [ch|]; [destruct (readyState ch)|]; simpl;
    rewrite ?assign_event_id_app; try (by left).
  right. eexists; split; [done|]. by rewrite assign_event_id_type.
Qed.

Lemma dispatch_effect_sets_no_timer (w : World) :
  (∀ m, head (events (app w)) = Some m → type m ≠ Some "response.done") →
  timers (env (dispatch_effect w).2) = timers (env w).
Proof.
  intros Hm. unfold dispatch_effect, dispatch_effect_with.
  destruct (last (events (app w))) as [f|]; [|done].
  destruct (head (events (app w))) as [m|]; [|done].
  pose proof (register_tools_timers f w) as Ht.
  destruct (register_tools f w) as [[|e] w1]; simpl in *; [|done].
  unfold route_response, type_is.
  by rewrite (bool_decide_eq_false_2 _ (Hm m eq_refl)).
Qed.

(** Unless the latest event is a completed response, the effects set no
    timer. *)
Lemma commit_sets_no_timer (fuel : nat) (w : World) :
  (∀ m, head (events (app w)) = Some m → type m ≠ Some "response.done") →
  timers (env (commit fuel w).2) = timers (env w).
Proof.
  intros Hm. destruct fuel as [|k]; [done|].
  rewrite commit_settles, commit_S.
  pose proof (dispatch_effect_sets_no_timer w Hm) as Ht.
  destruct (dispatch_effect w) as [[|e] w1]; simpl in *; [|done].
  unfold commit. case_match; simpl; by rewrite snake_effect_env.
Qed.

(** A fired follow-up is gone: the timer is one-shot. *)
Lemma follow_up_fires_once (t : Timer) (rest : list Timer) (w : World) :
  timers (env w) = t :: rest →
  type (timer_message t) ≠ Some "response.done" →
  timers (env (step TimerFires w).2) = rest.
Proof.
  intros Ht Hty. unfold step. rewrite Ht.
  set (w1 := upd_env (set_timers rest) w).
  pose proof (sendClientEvent_timers (timer_channel t) (Literal (timer_message t)) w1) as Hts.
  assert (∀ m, head (events (app (sendClientEvent (timer_channel t)
                                     (Literal (timer_message t)) w1).2)) = Some m →
               events_changed w1 (sendClientEvent (timer_channel t)
                                    (Literal (timer_message t)) w1).2 = true →
               type m ≠ Some "response.done") as Hhead.
  { rewrite sendClientEvent_unfold. unfold events_changed.
    destruct (timer_channel t) as [c|]; cycle 1.
    { simpl. intros m _. by rewrite Nat.eqb_refl. }
    cbn zeta.
    destruct (channels (env w1) !! c) as [ch|]; [destruct (readyState ch)|]; simpl;
      rewrite ?assign_event_id_app; try (intros m _; by rewrite Nat.eqb_refl).
    intros m [= <-] _. by rewrite assign_event_id_type. }
  unfold rerender.
  destruct (sendClientEvent _ _ w1) as [[|e] w2]; simpl in *; [|done].
  destruct (events_changed w1 w2) eqn:Hch; [|done].
  rewrite commit_sets_no_timer; [done|]. intros m Hm. by apply Hhead.
Qed.

(** The module-level manifest object keeps the id of its first send: later
    sends, in later sessions too, draw no new id for it. *)
Lemma manifest_keeps_its_id (i : string) (w : World) :
  sessionUpdate_event_id (env w) = Some i → i ≠ "" →
  assign_event_id SessionUpdateObject w = (with_event_id (Some i) sessionUpdate, w).
Proof.
  intros Hi Hne. unfold assign_event_id, carries_id. simpl. rewrite Hi. simpl.
  by rewrite (proj2 (String.eqb_neq i "") Hne).
Qed.

(** The first event of a freshly opened session is "session.created": the
    manifest goes out once, is recorded, and the flag is set. *)
Lemma first_session_created (c : nat) (data : string) (ev : Event) (w : World)
    (ch : Channel) :
  decode_event data = Some ev → type ev = Some "session.created" →
  dataChannel (app w) = Some c →
  channels (env w) !! c = Some ch → readyState ch = open →
  events (app w) = [] → functionAdded (panel w) = false →
  ∃ w', step (ChannelMessage c data) w = (Normal, w') ∧
        channels (env w') !! c =
          Some {| readyState := open;
                  sent := sent ch ++ [(assign_event_id SessionUpdateObject w).1] |} ∧
        events (app w') = [(assign_event_id SessionUpdateObject w).1; ev] ∧
        functionAdded (panel w') = true ∧
        dataChannel (app w') = Some c.
Proof.
  intros Hdec Hty Hd Hc Ho Hev Hf.
  unfold step, channel_state. rewrite Hc; simpl. rewrite Ho.
  unfold on_message. rewrite Hdec.
  set (w1 := upd_app (λ a, set_events (ev :: events a) a) w).
  assert (events (app w1) = [ev]) as Hev1 by (simpl; by rewrite Hev).
  unfold rerender, events_changed. rewrite Hev1, Hev. simpl.
  rewrite commit_S.
  set (m := (assign_event_id SessionUpdateObject w).1).
  set (w2 := upd_panel (set_functionAdded true)
               (sendClientEvent (Some c) SessionUpdateObject w1).2).
  assert (sendClientEvent (Some c) SessionUpdateObject w1 =
            (Normal,
             upd_app (λ a, set_events (m :: events a) a)
               (upd_env (λ e, set_channels
                                (<[c := {| readyState := open; sent := sent ch ++ [m] |}]>
                                   (channels e)) e)
                  (assign_event_id SessionUpdateObject w1).2))) as Hsend.
  { rewrite sendClientEvent_unfold. cbn zeta.
    replace (channels (env w1)) with (channels (env w)) by done.
    rewrite Hc, Ho. subst m w1. by rewrite assign_event_id_upd_app. }
  assert (dispatch_effect w1 = (Normal, w2)) as ->.
  { unfold dispatch_effect, dispatch_effect_with. rewrite Hev1. simpl.
    unfold register_tools. simpl. rewrite Hf, Hd. unfold type_is at 1.
    rewrite Hty. simpl. subst w2. rewrite Hsend. simpl.
    unfold route_response, type_is. rewrite Hty. done. }
  assert (events (app w2) = [m; ev]) as Hev2.
  { subst w2. rewrite Hsend. simpl. by rewrite assign_event_id_app, Hev1. }
  assert (snake_effect w2 = w2) as ->.
  { unfold snake_effect. rewrite Hev2. simpl. unfold type_is.
    subst m. by rewrite assign_event_id_type. }
  unfold events_changed. rewrite Hev2, Hev1. simpl.
  rewrite commit_idle; cycle 1.
  { done. }
  { rewrite Hev2. intros ? [= <-]. subst m. by rewrite assign_event_id_type. }
  eexists; split_and!; try done.
  - subst w2. rewrite Hsend. simpl. rewrite assign_event_id_channels.
    apply list_lookup_insert_eq. by eapply lookup_lt_Some.
  - subst w2. rewrite Hsend. simpl. by rewrite assign_event_id_app.
Qed.






(** *** Routing of function calls *)

(** X25. In a registered session a completed response that arrives on an open
    channel is recorded and each of its outputs is handed to the handler, in
    order, with the data channel of that render; the effects end normally. *)
Lemma response_done_is_routed (c : nat) (data : string) (m : Event) (r : Response)
    (outputs : list Output) (w : World) :
  decode_event data = Some m → type m = Some "response.done" →
  response m = Some r → output r = Some outputs →
  channel_state c w = Some open → functionAdded (panel w) = true →
  step (ChannelMessage c data) w =
    (Normal, route (dataChannel (app w)) outputs (on_message data w)).
Proof.
  intros Hdec Hty Hr Ho Hc Hf. unfold step. rewrite Hc.
  unfold rerender, events_changed, on_message. rewrite Hdec.
  set (w1 := upd_app (λ a, set_events (m :: events a) a) w).
  assert (Nat.eqb (length (events (app w1))) (length (events (app w))) = false) as ->.
  { apply Nat.eqb_neq. simpl. lia. }
  simpl. rewrite commit_settles, commit_S.
  assert (dispatch_effect w1 =
            (Normal, route (dataChannel (app w)) outputs w1)) as ->.
  { unfold dispatch_effect, dispatch_effect_with.
    destruct (last (events (app w1))) as [f|] eqn:Hlast; cycle 1.
    { subst w1. simpl in Hlast. rewrite last_cons in Hlast.
      by destruct (last (events (app w))). }
    simpl. unfold register_tools. simpl. rewrite Hf. simpl.
    unfold route_response, type_is. by rewrite Hty, Hr, Ho, bool_decide_eq_true_2. }
  assert (snake_effect (route (dataChannel (app w)) outputs w1) =
            route (dataChannel (app w)) outputs w1) as ->.
  { unfold snake_effect. rewrite route_app. simpl. unfold type_is. by rewrite Hty. }
  unfold events_changed. by rewrite route_app, Nat.eqb_refl.
Qed.

Lemma name_is_control_snake (o : Output) :
  String.eqb (name o) "control_snake" = true ↔ name o = "control_snake".
Proof. apply String.eqb_eq. Qed.

(** C6 (as amended). A function call whose arguments parse is taken over by
    the panel ([functionCallOutput], [activeFunction]) and nothing is sent
    while it is handled.  For "control_snake" no timer is set, and what becomes
    the snake's command depends on the parsed value: the [direction] member of
    an object ([undefined] when it has none), [undefined] for any other value
    but [null], and nothing at all for [null], whose destructuring throws into
    the [catch] block: the command stays as it was and the error is reported.
    For any other capability one timer of 500 ms is appended whose callback
    sends the "response.create" follow-up over the data channel of the
    scheduling render; run on an open channel, that callback transmits the
    follow-up with a fresh id, and once fired the timer is gone. *)
Theorem function_call_routing (d : option nat) (o : Output) (w : World) (v : JValue)
    (Hty : output_type o = "function_call")
    (Hp : JSON_parse (arguments o) = Some v) :
  functionCallOutput (panel (handle_output d o w)) = Some o ∧
  activeFunction (panel (handle_output d o w)) = Some (name o) ∧
  app (handle_output d o w) = app w ∧
  channels (env (handle_output d o w)) = channels (env w) ∧
  (name o = "control_snake" →
   timers (env (handle_output d o w)) = timers (env w) ∧
   match v with
   | JObject ms =>
       snakeCommand (panel (handle_output d o w)) = member "direction" ms ∧
       console (env (handle_output d o w)) =
         console (env w) ++
           [ConsoleLog "Function call detected:" (name o);
            ConsoleLog "Function arguments:" (arguments o)]
   | JNull =>
       snakeCommand (panel (handle_output d o w)) = snakeCommand (panel w) ∧
       console (env (handle_output d o w)) =
         console (env w) ++
           [ConsoleLog "Function call detected:" (name o);
            ConsoleLog "Function arguments:" (arguments o);
            ConsoleError "Error parsing function arguments:";
            ConsoleLog "Raw arguments:" (arguments o)]
   | _ =>
       snakeCommand (panel (handle_output d o w)) = None ∧
       console (env (handle_output d o w)) =
         console (env w) ++
           [ConsoleLog "Function call detected:" (name o);
            ConsoleLog "Function arguments:" (arguments o)]
   end) ∧
  (name o ≠ "control_snake" →
     timers (env (handle_output d o w)) =
       timers (env w) ++
         [{| timer_delay := 500; timer_channel := d;
             timer_message := follow_up (name o) |}] ∧
     snakeCommand (panel (handle_output d o w)) = snakeCommand (panel w) ∧
     type (follow_up (name o)) = Some "response.create" ∧
     (∀ c ch w0,
        d = Some c → channels (env w0) !! c = Some ch → readyState ch = open →
        ∃ w1, sendClientEvent d (Literal (follow_up (name o))) w0 = (Normal, w1) ∧
              channels (env w1) !! c =
                Some {| readyState := open;
                        sent := sent ch ++
                          [with_event_id (Some (randomUUID (uuids (env w0))))
                             (follow_up (name o))] |}) ∧
     (∀ w0 rest,
        timers (env w0) =
          {| timer_delay := 500; timer_channel := d;
             timer_message := follow_up (name o) |} :: rest →
        timers (env (step TimerFires w0).2) = rest)).
Proof.
  split_and!.
  - unfold handle_output. rewrite Hty, Hp. simpl. by repeat case_match.
  - unfold handle_output. rewrite Hty, Hp. simpl. by repeat case_match.
  - apply handle_output_app.
  - apply handle_output_channels.
  - intros Hn. apply name_is_control_snake in Hn.
    unfold handle_output. rewrite Hty, Hp, Hn.
    destruct v; cbn; rewrite <- ?(assoc_L (++)); done.
  - intros Hn. assert (String.eqb (name o) "control_snake" = false) as Hn'.
    { apply not_true_is_false. by rewrite name_is_control_snake. }
    unfold handle_output. rewrite Hty, Hp, Hn'. simpl. split_and!; try done.
    + intros c ch w0 -> Hc Ho.
      destruct (send_fresh_literal c (follow_up (name o)) w0 ch Hc Ho eq_refl)
        as (w1 & Hsend & Hc1 & _).
      by exists w1.
    + intros w0 rest Ht. by apply (follow_up_fires_once _ _ _ Ht).
Qed.

(** X24. Arguments that parse to [null] cannot be destructured: the call is still
    shown as the active one, but no command reaches the snake and the error
    is reported. *)
Lemma null_arguments_give_no_command (d : option nat) (o : Output) (w : World) :
  output_type o = "function_call" → name o = "control_snake" →
  JSON_parse (arguments o) = Some JNull →
  snakeCommand (panel (handle_output d o w)) = snakeCommand (panel w) ∧
  functionCallOutput (panel (handle_output d o w)) = Some o ∧
  timers (env (handle_output d o w)) = timers (env w) ∧
  ConsoleError "Error parsing function arguments:" ∈ console (env (handle_output d o w)).
Proof.
  intros Hty Hn Hp. apply name_is_control_snake in Hn.
  unfold handle_output. rewrite Hty, Hp, Hn. simpl. split_and!; try done.
  set_solver.
Qed.

(** The handler of the "create_game" variant never looks at the arguments:
    whatever they are, the call becomes the active one and a follow-up is
    scheduled for it. *)
Lemma game_handler_never_validates (d : option nat) (o : Output) (w : World) :
  output_type o = "function_call" →
  functionCallOutput (panel (handle_output_game d o w)) = Some o ∧
  activeFunction (panel (handle_output_game d o w)) = Some (name o) ∧
  timers (env (handle_output_game d o w)) =
    timers (env w) ++
      [{| timer_delay := 500; timer_channel := d;
          timer_message := follow_up_game (name o) |}] ∧
  console (env (handle_output_game d o w)) =
    console (env w) ++
      [ConsoleLog "Function call detected:" (name o);
       ConsoleLog "Function arguments:" (arguments o)].
Proof.
  intros Hty. unfold handle_output_game. rewrite Hty. simpl.
  by rewrite <- (assoc_L (++)).
Qed.

Lemma quiet_handle_output (d : option nat) (o : Output) (w : World) :
  quiet (handle_output d o w) = quiet (handle_output d o (quiet w)).
Proof. unfold handle_output. by repeat case_match. Qed.

Lemma quiet_route (d : option nat) (outputs : list Output) (w w' : World) :
  quiet w = quiet w' → quiet (route d outputs w) = quiet (route d outputs w').
Proof.
  revert w w'. induction outputs as [|o os IH]; intros w w' Hq; simpl; [done|].
  apply IH. rewrite quiet_handle_output, Hq. by rewrite <- quiet_handle_output.
Qed.

Lemma handle_output_unparsable (d : option nat) (o : Output) (w : World) :
  output_type o = "function_call" → JSON_parse (arguments o) = None →
  handle_output d o w =
    report_arguments_error o
      (console_log "Function arguments:" (arguments o)
         (console_log "Function call detected:" (name o) w)).
Proof. intros Hty Hp. unfold handle_output. by rewrite Hty, Hp. Qed.

Lemma handle_output_console (d : option nat) (o : Output) (w : World) :
  ∃ l, console (env (handle_output d o w)) = console (env w) ++ l.
Proof.
  unfold handle_output, report_arguments_error.
  repeat case_match; simpl; rewrite <- ?(assoc_L (++)); eauto using app_nil_r.
Qed.

Lemma route_console (d : option nat) (outputs : list Output) (w : World) :
  ∃ l, console (env (route d outputs w)) = console (env w) ++ l.
Proof.
  revert w. induction outputs as [|o os IH]; intros w; simpl.
  - exists []. by rewrite app_nil_r.
  - destruct (IH (handle_output d o w)) as [l2 ->].
    destruct (handle_output_console d o w) as [l1 ->].
    exists (l1 ++ l2). by rewrite (assoc_L (++)).
Qed.

Lemma route_timers (d : option nat) (outputs : list Output) (w : World) :
  ∃ l, timers (env (route d outputs w)) = timers (env w) ++ l.
Proof.
  revert w. induction outputs as [|o os IH]; intros w; simpl.
  - exists []. by rewrite app_nil_r.
  - destruct (IH (handle_output d o w)) as [l2 ->].
    destruct (handle_output_timers d o w) as [-> | ->]; [by eexists|].
    eexists. by rewrite <- (assoc_L (++)).
Qed.

(** In the dispatcher with the [try]/[catch], a function call whose arguments
    do not parse leaves nothing but console output: the batch is handled as if
    the call were not in it, the error is reported, and each parseable
    non-interactive call of the batch still gets its follow-up scheduled. *)
Lemma malformed_call_is_skipped (d : option nat) (pre post : list Output)
    (bad : Output) (w : World) :
  output_type bad = "function_call" → JSON_parse (arguments bad) = None →
  (∀ m r, type m = Some "response.done" → response m = Some r →
          output r = Some (pre ++ bad :: post) →
          route_response handle_output d m w =
            (Normal, route d (pre ++ bad :: post) w)) ∧
  quiet (route d (pre ++ bad :: post) w) = quiet (route d (pre ++ post) w) ∧
  ConsoleError "Error parsing function arguments:"
    ∈ console (env (route d (pre ++ bad :: post) w)) ∧
  ∀ good v, good ∈ pre ++ post →
    output_type good = "function_call" → JSON_parse (arguments good) = Some v →
    name good ≠ "control_snake" →
    {| timer_delay := 500; timer_channel := d; timer_message := follow_up (name good) |}
      ∈ timers (env (route d (pre ++ bad :: post) w)).
Proof.
  intros Hty Hp.
  assert (quiet (route d (pre ++ bad :: post) w) = quiet (route d (pre ++ post) w)) as Hq.
  { rewrite !fold_left_app. cbn [fold_left]. apply quiet_route.
    by rewrite (handle_output_unparsable d bad _ Hty Hp). }
  split_and!; [|done| |].
  - intros m r Hm Hr Ho. unfold route_response, type_is.
    by rewrite Hm, Hr, Ho, bool_decide_eq_true_2.
  - rewrite fold_left_app. cbn [fold_left].
    destruct (route_console d post (handle_output d bad (route d pre w))) as [l ->].
    rewrite (handle_output_unparsable d bad _ Hty Hp). simpl. set_solver.
  - intros good v Hin Hgty Hgp Hgn.
    assert (timers (env (route d (pre ++ bad :: post) w)) =
              timers (env (route d (pre ++ post) w))) as ->.
    { change (timers (env (quiet (route d (pre ++ bad :: post) w))) =
              timers (env (quiet (route d (pre ++ post) w)))). by rewrite Hq. }
    apply list_elem_of_split in Hin as (l1 & l2 & ->).
    rewrite fold_left_app. cbn [fold_left].
    destruct (route_timers d l2 (handle_output d good (route d l1 w))) as [l ->].
    assert (String.eqb (name good) "control_snake" = false) as Hn'.
    { apply not_true_is_false. by rewrite name_is_control_snake. }
    unfold handle_output at 1. rewrite Hgty, Hgp, Hn'. simpl. set_solver.
Qed.

(** *** Channel states along a run *)

Lemma keeps_states_refl (w : World) : keeps_states w w.
Proof. by intros c. Qed.

Lemma keeps_states_trans (w1 w2 w3 : World) :
  keeps_states w1 w2 → keeps_states w2 w3 → keeps_states w1 w3.
Proof. intros H12 H23 c. by rewrite H23, H12. Qed.

Lemma keeps_states_env (w w' : World) :
  channels (env w') = channels (env w) → keeps_states w w'.
Proof. intros Hch c. unfold channel_state. by rewrite Hch. Qed.

Lemma sendClientEvent_keeps_states (d : option nat) (msg : Message) (w : World) :
  keeps_states w (sendClientEvent d msg w).2.
Proof.
  rewrite sendClientEvent_unfold. destruct d as [c|]; [|by apply keeps_states_env].
  cbn zeta. destruct (channels (env w) !! c) as [ch|] eqn:Hc;
    [destruct (readyState ch) eqn:Hr|];
    try (apply keeps_states_env; simpl; apply assign_event_id_channels).
  intros c'. unfold channel_state. simpl. rewrite assign_event_id_channels.
  destruct (decide (c = c')) as [<-|Hne].
  - rewrite list_lookup_insert_eq by (by eapply lookup_lt_Some).
    rewrite Hc. simpl. by rewrite Hr.
  - by rewrite list_lookup_insert_ne.
Qed.

Lemma dispatch_effect_keeps_states (w : World) : keeps_states w (dispatch_effect w).2.
Proof.
  unfold dispatch_effect, dispatch_effect_with.
  destruct (last (events (app w))) as [f|]; [|apply keeps_states_refl].
  destruct (head (events (app w))) as [m|]; [|apply keeps_states_refl].
  assert (keeps_states w (register_tools f w).2) as Hreg.
  { unfold register_tools. case_match; [|apply keeps_states_refl].
    pose proof (sendClientEvent_keeps_states (dataChannel (app w)) SessionUpdateObject w)
      as Hs.
    destruct (sendClientEvent _ _ w) as [[|e] w1]; [|done].
    eapply keeps_states_trans; [exact Hs|]. by apply keeps_states_env. }
  destruct (register_tools f w) as [[|e] w1]; simpl in *; [|done].
  eapply keeps_states_trans; [exact Hreg|].
  unfold route_response. repeat case_match; simpl; try apply keeps_states_refl.
  apply keeps_states_env, route_channels.
Qed.

Lemma commit_keeps_states (fuel : nat) (w : World) : keeps_states w (commit fuel w).2.
Proof.
  revert w. induction fuel as [|k IH]; intros w; [apply keeps_states_refl|].
  rewrite commit_S.
  pose proof (dispatch_effect_keeps_states w) as Hd.
  destruct (dispatch_effect w) as [[|e] w1]; simpl in *; [|done].
  assert (keeps_states w (snake_effect w1)) as Hs.
  { eapply keeps_states_trans; [exact Hd|].
    apply keeps_states_env. by rewrite snake_effect_env. }
  case_match; [|done]. eapply keeps_states_trans; [exact Hs|]. apply IH.
Qed.

Lemma rerender_keeps_states (before w : World) (r : Completion * World) :
  keeps_states w r.2 → keeps_states w (rerender before r).2.
Proof.
  intros Hr. unfold rerender. destruct r as [[|e] w1]; cbn [snd] in *; [|done].
  case_match; [|done]. eapply keeps_states_trans; [exact Hr|]. apply commit_keeps_states.
Qed.

(** Only start, stop and open change the state of a channel. *)
Lemma step_keeps_states (s : Stimulus) (w : World) :
  match s with
  | Start _ | Stop | ChannelOpen _ => True
  | _ => keeps_states w (step s w).2
  end.
Proof.
  destruct s as [o| |c|c data|m|message|]; try done; unfold step.
  - repeat case_match; try apply keeps_states_refl.
    apply rerender_keeps_states, keeps_states_env.
    unfold on_message. by destruct (decode_event data).
  - apply rerender_keeps_states, sendClientEvent_keeps_states.
  - apply rerender_keeps_states. unfold sendTextMessage.
    pose proof (sendClientEvent_keeps_states (dataChannel (app w))
                  (Literal (text_item_event message)) w) as H1.
    destruct (sendClientEvent _ (Literal (text_item_event message)) w) as [[|e] w1];
      simpl in *; [|done].
    eapply keeps_states_trans; [exact H1|]. apply sendClientEvent_keeps_states.
  - destruct (timers (env w)) as [|t rest]; [apply keeps_states_refl|].
    apply rerender_keeps_states.
    eapply keeps_states_trans; [|apply sendClientEvent_keeps_states].
    by apply keeps_states_env.
Qed.

Lemma stopSession_closes_or_keeps (c : nat) (w : World) :
  channel_state c (stopSession w).2 = channel_state c w ∨
  channel_state c (stopSession w).2 = (λ _, closed) <$> channel_state c w.
Proof.
  unfold stopSession. cbn [snd].
  assert (∀ c0 w0, channel_state c (channel_close c0 w0) = channel_state c w0 ∨
                   channel_state c (channel_close c0 w0) =
                     (λ _, closed) <$> channel_state c w0) as Hclose.
  { intros c0 w0. rewrite channel_state_close. case_decide; auto. }
  destruct (dataChannel (app w)) as [d|], (peerConnection (app w)) as [p|].
  - rewrite (channel_state_env _ (peer_close p (channel_close d w))) by done.
    destruct (channel_state_peer_close p c (channel_close d w)) as [-> | ->],
      (Hclose d w) as [-> | ->]; auto.
    right. by destruct (channel_state c w).
  - rewrite (channel_state_env _ (channel_close d w)) by done. apply Hclose.
  - rewrite (channel_state_env _ (peer_close p w)) by done.
    apply channel_state_peer_close.
  - left. by apply channel_state_env.
Qed.

Lemma step_one_live_channel (s : Stimulus) (w : World) :
  match s with Start _ => session_closed w | _ => True end →
  one_live_channel w → one_live_channel (step s w).2.
Proof.
  intros Hs Hw. pose proof (step_keeps_states s w) as Hk.
  pose proof (step_grows s w) as Hg.
  destruct s as [o| |c0|c0 data|m|message|];
    try (intros c Hc; destruct Hg as (_ & Hd & _); rewrite Hd in Hc;
         rewrite Hk; by apply Hw).
  - destruct Hs as (_ & Hd & _).
    destruct o; [done|intros c Hc; apply Hw; by rewrite Hd| |];
      (intros c Hc; unfold step, channel_state; simpl in *;
       destruct (decide (c < length (channels (env w)))) as [Hlt|Hge];
       [ rewrite lookup_app_l by done; apply Hw; by rewrite Hd
       | rewrite lookup_app_r by lia;
         destruct (c - length (channels (env w))) as [|k] eqn:Hk';
         [ exfalso; apply Hc; f_equal; lia | by left ] ]).
  - intros c _.
    rewrite (channel_state_env _ (stopSession w).2) by apply step_stop_env.
    destruct (decide (dataChannel (app w) = Some c)) as [Hd|Hd].
    + rewrite <- (channel_state_env (step Stop w).2) by apply step_stop_env.
      rewrite (step_stop_closes_channel w c Hd).
      destruct (channel_state c w); auto.
    + destruct (stopSession_closes_or_keeps c w) as [-> | ->],
        (Hw c Hd) as [-> | ->]; auto.
  - destruct (decide (channel_state c0 w = Some connecting)) as [Hc0|Hc0];
      [|by rewrite step_open_ignored].
    assert (dataChannel (app w) = Some c0) as Hcur.
    { destruct (decide (dataChannel (app w) = Some c0)) as [|Hne]; [done|].
      destruct (Hw c0 Hne) as [Hn|Hn]; rewrite Hn in Hc0; done. }
    unfold channel_state in Hc0.
    destruct (channels (env w) !! c0) as [ch|] eqn:Hch; [|done]. simpl in Hc0.
    rewrite (step_open c0 w ch) by congruence.
    intros c Hc. simpl in Hc. unfold channel_state. simpl.
    rewrite list_lookup_insert_ne by congruence. by apply Hw.
Qed.


Lemma initial_one_live_channel : one_live_channel initial.
Proof. intros c _. by left. Qed.



(** *** Follow-ups across the end of the session *)


End Dispatcher.

(** * The model at work on a concrete platform *)

Lemma demo_uuid_inj : Inj (=) (=) demo_uuid.
Proof.
  intros x y Hxy. unfold demo_uuid in Hxy. injection Hxy as Hxy.
  revert y Hxy. induction x as [|x IH]; intros [|y] Hxy; simpl in *; try done.
  injection Hxy as Hxy. f_equal. by apply IH.
Qed.




Lemma eventlog_keeps_latest_delta_witness :
  filter (λ x, type x = Some "response.text.delta")
    (EventLog (Some <$> events (app (received
       ([text_delta "event_a"; session_created] ++
          text_delta "event_b" :: [palette_done]) initial)))) =
    [text_delta "event_b"].
Proof.
  apply (eventlog_keeps_latest_delta [text_delta "event_a"; session_created]
           [palette_done] (text_delta "event_b") "response.text.delta" initial).
  - reflexivity.
  - reflexivity.
  - reflexivity.
  - repeat constructor. discriminate.
Defined.

Lemma assigned_ids_are_fresh_witness :
  NoDup (event_id <$> @stamped demo (uuids (env opened))
           [plain_event "response.create"; text_item_event "hello"]) ∧
  events (app (@send_all demo (Some 0)
                 [plain_event "response.create"; text_item_event "hello"] opened)) =
    rev (@stamped demo (uuids (env opened))
           [plain_event "response.create"; text_item_event "hello"]) ++ events (app opened).
Proof.
  pose proof (@assigned_ids_are_fresh demo
                [plain_event "response.create"; text_item_event "hello"]
                opened 0 {| readyState := open; sent := [] |}) as Hthm.
  destruct Hthm as (_ & Hev & _ & Hnodup & _).
  - exact demo_uuid_inj.
  - reflexivity.
  - reflexivity.
  - repeat constructor.
  - split; [exact Hnodup | exact Hev].
Defined.



(** Two deltas of one type with another event between them.  The log shows
    the later delta at the top, where it arrived; replacing the earlier delta
    in place would have left it at the bottom. *)
Lemma delta_is_not_replaced_in_place :
  events (app (received [text_delta "event_a"; session_created; text_delta "event_b"]
                 initial)) =
    [text_delta "event_b"; session_created; text_delta "event_a"] ∧
  EventLog (Some <$> events (app (received
     [text_delta "event_a"; session_created; text_delta "event_b"] initial))) =
    [text_delta "event_b"; session_created] ∧
  EventLog (Some <$> events (app (received
     [text_delta "event_a"; session_created; text_delta "event_b"] initial))) ≠
    [session_created; text_delta "event_b"].
Proof. split_and!; [reflexivity|reflexivity|discriminate]. Qed.

(** A second start without a stop in between: the follow-up of the first
    session holds a channel that the stop does not close, and when it fires
    after the stop it is transmitted. *)
Example follow_up_of_an_unstopped_session_is_sent :
  (@step demo TimerFires
     (@run demo [Start start_succeeds; ChannelOpen 0; ChannelMessage 0 "session.created";
                 ChannelMessage 0 "palette"; Start start_succeeds; Stop] initial)).1 =
    Normal ∧
  sent <$> channels (env (@run demo [Start start_succeeds; ChannelOpen 0;
                                     ChannelMessage 0 "session.created";
                                     ChannelMessage 0 "palette"; Start start_succeeds;
                                     Stop; TimerFires] initial)) !! 0 =
    Some [with_event_id (Some (demo_uuid 0)) sessionUpdate;
          with_event_id (Some (demo_uuid 1)) (follow_up "display_color_palette")].
Proof. split; reflexivity. Qed.


Lemma events_kept_newest_first_witness :
  last (events (app greeted)) = Some session_created ∧
  last (events (app (@run demo [ChannelMessage 0 "palette"; TimerFires] greeted))) =
    Some session_created ∧
  ∃ w', @sendClientEvent demo (Some 0) (Literal (plain_event "response.create")) greeted =
          (Normal, w') ∧
        head (events (app w')) =
          Some (with_event_id (Some (demo_uuid 1)) (plain_event "response.create")) ∧
        last (events (app w')) = Some session_created.
Proof.
  split; [reflexivity|].
  destruct (@events_kept_newest_first demo [ChannelMessage 0 "palette"; TimerFires]
              greeted session_created)
    as (_ & Hsend & _ & _ & _ & _ & _ & Hlast).
  - repeat constructor; simpl; tauto.
  - reflexivity.
  - split; [exact Hlast|].
    destruct (Hsend 0 {| readyState := open;
                         sent := [with_event_id (Some (demo_uuid 0)) sessionUpdate] |}
                (Literal (plain_event "response.create")) greeted eq_refl eq_refl)
      as (w' & Hok & _ & Hhead & Hold).
    exists w'. split_and!; [exact Hok | exact Hhead | exact Hold].
Defined.

Lemma function_call_routing_witness :
  functionCallOutput (panel (@handle_output demo (Some 0) palette_call greeted)) =
    Some palette_call ∧
  timers (env (@handle_output demo (Some 0) palette_call greeted)) =
    [{| timer_delay := 500; timer_channel := Some 0;
        timer_message := follow_up "display_color_palette" |}] ∧
  snakeCommand (panel (@handle_output demo (Some 0) snake_call greeted)) =
    Some (JString "up") ∧
  timers (env (@handle_output demo (Some 0) snake_call greeted)) = [].
Proof.
  destruct (@function_call_routing demo (Some 0) palette_call greeted
              (JObject [("theme", JString "ocean")]))
    as (Hshown & _ & _ & _ & _ & Hdeferred); [reflexivity|reflexivity|].
  destruct (@function_call_routing demo (Some 0) snake_call greeted
              (JObject [("direction", JString "up")]))
    as (_ & _ & _ & _ & Hsnake & _); [reflexivity|reflexivity|].
  destruct Hdeferred as (Htimer & _); [discriminate|].
  destruct Hsnake as (Hnone & Hcommand & _); [reflexivity|].
  split_and!; [exact Hshown | exact Htimer | exact Hcommand | exact Hnone].
Defined.

(** A snake call whose arguments are the JSON text [null]: the arguments
    parse, the call is shown as the active one, but no direction is forwarded;
    the command of the earlier call is still in place. *)
Lemma null_call_forwards_no_direction :
  demo_parse (arguments null_call) = Some JNull ∧
  snakeCommand (panel (@run demo [ChannelMessage 0 "snake"] greeted)) =
    Some (JString "up") ∧
  functionCallOutput
    (panel (@handle_output demo (Some 0) null_call
              (@run demo [ChannelMessage 0 "snake"] greeted))) = Some null_call ∧
  snakeCommand
    (panel (@handle_output demo (Some 0) null_call
              (@run demo [ChannelMessage 0 "snake"] greeted))) = Some (JString "up") ∧
  ConsoleError "Error parsing function arguments:" ∈
    console (env (@handle_output demo (Some 0) null_call
                    (@run demo [ChannelMessage 0 "snake"] greeted))).
Proof. split_and!; [reflexivity|reflexivity|reflexivity|reflexivity|]. vm_compute. set_solver. Qed.



(** C2 (the defect). The dispatcher of the panel variant with "create_game"
    has no validation: a function call whose arguments do not parse is taken
    over like any other, a follow-up is scheduled for it, and no error is
    reported.  The dispatcher with the [try]/[catch] reports the error and
    does neither, on the same input. *)
Theorem game_dispatcher_takes_unparsable_call :
  demo_parse (arguments broken_call) = None ∧
  (@dispatch_effect_game demo broken_arrived).1 = Normal ∧
  functionCallOutput (panel (@dispatch_effect_game demo broken_arrived).2) =
    Some broken_call ∧
  activeFunction (panel (@dispatch_effect_game demo broken_arrived).2) =
    Some "display_color_palette" ∧
  timers (env (@dispatch_effect_game demo broken_arrived).2) =
    [{| timer_delay := 500; timer_channel := Some 0;
        timer_message := follow_up_game "display_color_palette" |}] ∧
  console (env (@dispatch_effect_game demo broken_arrived).2) =
    [ConsoleLog "Function call detected:" "display_color_palette";
     ConsoleLog "Function arguments:" "{not json"] ∧
  functionCallOutput (panel (@dispatch_effect demo broken_arrived).2) = None ∧
  timers (env (@dispatch_effect demo broken_arrived).2) = [] ∧
  console (env (@dispatch_effect demo broken_arrived).2) =
    [ConsoleLog "Function call detected:" "display_color_palette";
     ConsoleLog "Function arguments:" "{not json";
     ConsoleError "Error parsing function arguments:";
     ConsoleLog "Raw arguments:" "{not json"].
Proof. split_and!; reflexivity. Qed.

(** In arrival order the retained delta is shown where the latest of its type
    arrived, at the top of the list, not where the earliest one was. *)
Example delta_is_shown_at_its_latest_arrival :
  EventLog (Some <$> events (app (received
     [text_delta "event_a"; session_created; text_delta "event_b"] initial))) =
    [text_delta "event_b"; session_created].
Proof. reflexivity. Qed.

(** The palette scenario: the call becomes the active one, one follow-up is
    pending, and nothing but the manifest has been sent so far. *)
Example palette_scenario :
  functionCallOutput (panel palette_requested) = Some palette_call ∧
  activeFunction (panel palette_requested) = Some "display_color_palette" ∧
  length (timers (env palette_requested)) = 1 ∧
  (sent <$> channels (env palette_requested)) =
    [[with_event_id (Some (demo_uuid 0)) sessionUpdate]].
Proof. split_and!; reflexivity. Qed.

(** A batch with one unparsable and one parseable call, in the dispatcher with
    the [try]/[catch]: only the parseable call is taken over. *)
Example mixed_batch_scenario :
  functionCallOutput (panel (@run demo [ChannelMessage 0 "mixed"] greeted)) =
    Some palette_call ∧
  timers (env (@run demo [ChannelMessage 0 "mixed"] greeted)) =
    [{| timer_delay := 500; timer_channel := Some 0;
        timer_message := follow_up "display_color_palette" |}] ∧
  ConsoleError "Error parsing function arguments:"
    ∈ console (env (@run demo [ChannelMessage 0 "mixed"] greeted)).
Proof. split_and!; [reflexivity|reflexivity|]. vm_compute. set_solver. Qed.

(** The snake scenario: the direction reaches the game, nothing is scheduled
    and nothing more is sent. *)
Example snake_scenario :
  snakeCommand (panel (@run demo [ChannelMessage 0 "snake"] greeted)) =
    Some (JString "up") ∧
  activeFunction (panel (@run demo [ChannelMessage 0 "snake"] greeted)) =
    Some "control_snake" ∧
  timers (env (@run demo [ChannelMessage 0 "snake"] greeted)) = [] ∧
  channels (env (@run demo [ChannelMessage 0 "snake"] greeted)) =
    channels (env greeted).
Proof. split_and!; reflexivity. Qed.

(** * The snake game *)

Section SnakeGame.

Import Snake.

Lemma Forall_removelast {A} (P : A → Prop) (l : list A) :
  Forall P l → Forall P (removelast l).
Proof.
  induction 1 as [|a l Ha Hl IH]; simpl; [constructor|].
  destruct l; [constructor|]. by constructor.
Qed.

Lemma length_removelast_cons {A} (a : A) (l : list A) :
  length (removelast (a :: l)) = length l.
Proof.
  rewrite removelast_firstn_len, length_take. simpl. lia.
Qed.

Lemma own_direction_unit (k : string) (d : Point) :
  own_direction k = Some d → unit_step d.
Proof.
  unfold own_direction, unit_step. repeat case_match; intros [= <-]; auto.
Qed.

Lemma inherited_not_own (k : string) : inherited k = true → own_direction k = None.
Proof.
  unfold inherited. simpl. rewrite !orb_true_iff.
  intros H; repeat (destruct H as [H|H]); try done;
    apply String.eqb_eq in H; by subst k.
Qed.

Lemma wrap_in_range (a d : Z) :
  (0 ≤ a < GRID_SIZE)%Z → (-1 ≤ d ≤ 1)%Z →
  Z.rem (a + d + GRID_SIZE) GRID_SIZE = ((a + d) `mod` GRID_SIZE)%Z ∧
  (0 ≤ Z.rem (a + d + GRID_SIZE) GRID_SIZE < GRID_SIZE)%Z.
Proof.
  unfold GRID_SIZE. intros Ha Hd.
  rewrite Z.rem_mod_nonneg by lia.
  rewrite <- (Z.add_mod_idemp_r (a + d) 20 20) by lia.
  rewrite Z.mod_same, Z.add_0_r by lia.
  split; [done|]. apply Z.mod_pos_bound. lia.
Qed.

Lemma unit_step_components (d : Point) :
  unit_step d → ∃ dx dy, d = {| x := Int dx; y := Int dy |} ∧
                         (-1 ≤ dx ≤ 1)%Z ∧ (-1 ≤ dy ≤ 1)%Z.
Proof.
  intros [-> | [-> | [-> | ->]]]; eexists _, _; (split; [done|lia]).
Qed.

(** The head after a tick on the board: one cell further, wrapping around
    the edges. *)
Lemma tick_on_board (nf : Point) (st : State) (a b dx dy : Z) (tl : list Point) :
  isPlaying st = true →
  snake st = {| x := Int a; y := Int b |} :: tl →
  direction st = {| x := Int dx; y := Int dy |} →
  (0 ≤ a < GRID_SIZE)%Z → (0 ≤ b < GRID_SIZE)%Z →
  (-1 ≤ dx ≤ 1)%Z → (-1 ≤ dy ≤ 1)%Z →
  ∃ st', tick nf st = Some st' ∧
         head (snake st') =
           Some {| x := Int ((a + dx) `mod` GRID_SIZE); y := Int ((b + dy) `mod` GRID_SIZE) |} ∧
         (snake st' = {| x := Int ((a + dx) `mod` GRID_SIZE);
                         y := Int ((b + dy) `mod` GRID_SIZE) |} :: snake st ∧
          food st' = nf
          ∨ snake st' = {| x := Int ((a + dx) `mod` GRID_SIZE);
                           y := Int ((b + dy) `mod` GRID_SIZE) |} :: removelast (snake st) ∧
            food st' = food st).
Proof.
  intros Hp Hs Hd Ha Hb Hdx Hdy. unfold tick. rewrite Hp, Hs, Hd. simpl.
  destruct (wrap_in_range a dx Ha Hdx) as [-> _].
  destruct (wrap_in_range b dy Hb Hdy) as [-> _].
  case_match; eexists; (split; [done|]); simpl; auto.
Qed.

Lemma tick_keeps_the_board (nf : Point) (st : State) :
  in_grid nf → on_board st → ∃ st', tick nf st = Some st' ∧ on_board st'.
Proof.
  intros Hnf (Hne & Hs & Hf & p & Hd & Hp).
  destruct (isPlaying st) eqn:Hplay; cycle 1.
  { exists st. unfold tick. rewrite Hplay. split; [done|].
    split_and!; try done. by exists p. }
  destruct (snake st) as [|hd tl] eqn:Hsn; [done|].
  apply Forall_cons in Hs as [Hhd Htl].
  destruct Hhd as (a & b & -> & Ha & Hb).
  destruct (unit_step_components _ Hp) as (dx & dy & -> & Hdx & Hdy).
  destruct (tick_on_board nf st a b dx dy tl Hplay Hsn Hd Ha Hb Hdx Hdy)
    as (st' & Htick & _ & Hshape).
  exists st'. split; [done|].
  assert (in_grid {| x := Int ((a + dx) `mod` GRID_SIZE);
                     y := Int ((b + dy) `mod` GRID_SIZE) |}) as Hnew.
  { eexists _, _. split; [done|].
    split; apply Z.mod_pos_bound; unfold GRID_SIZE; lia. }
  assert (direction st' = direction st) as Hdir'.
  { unfold tick in Htick. rewrite Hplay, Hsn in Htick.
    by repeat case_match; simplify_eq. }
  assert (Forall in_grid (snake st)) as Hall.
  { rewrite Hsn. constructor; [|done]. by eexists _, _. }
  destruct Hshape as [[Hs' Hf'] | [Hs' Hf']].
  - split_and!.
    + by rewrite Hs'.
    + rewrite Hs'. by constructor.
    + by rewrite Hf'.
    + eexists. by rewrite Hdir', Hd.
  - split_and!.
    + by rewrite Hs'.
    + rewrite Hs'. constructor; [done|]. by apply Forall_removelast.
    + by rewrite Hf'.
    + eexists. by rewrite Hdir', Hd.
Qed.

(** What the command effect does with a fair command. *)
Lemma on_command_fair (v : JValue) (st : State) :
  fair_command (Some v) →
  on_command (Some v) st =
    Some (if truthy v then
            match (key_of v ≫= own_direction : option Point) with
            | Some d => setIsPlaying true (setDirection d st)
            | None =>
                match v with
                | JString s => if String.eqb s "stop" then setIsPlaying false st else st
                | _ => st
                end
            end
          else st).
Proof.
  intros [Hraise Hfair]. unfold on_command. rewrite Hraise.
  destruct (truthy v); [|done].
  destruct (key_of v) as [k|] eqn:Hk; cbn [mbind option_bind].
  - unfold names_member, updated_direction.
    destruct (own_direction k) as [d|] eqn:Hown; [by rewrite Hown|].
    rewrite (Hfair k eq_refl). by repeat case_match.
  - by repeat case_match.
Qed.

Lemma on_command_on_board (c : option JValue) (st : State) :
  fair_command c → on_board st → ∃ st', on_command c st = Some st' ∧ on_board st'.
Proof.
  intros Hc (Hne & Hs & Hf & p & Hd & Hp).
  assert (on_board st) as Hst by (split_and!; try done; by exists p).
  destruct c as [v|]; [|by exists st].
  rewrite (on_command_fair v st Hc). eexists; split; [done|].
  destruct (truthy v); [|done].
  destruct (key_of v ≫= own_direction) as [d|] eqn:Hown.
  - split_and!; try done. exists d. split; [done|].
    destruct (key_of v) as [k|]; [|done]. by eapply own_direction_unit.
  - destruct v; try done. case_match; [|done]. split_and!; try done. by exists p.
Qed.

Lemma react_on_board (i : Input) (st : State) : on_board st → on_board (react i st).
Proof.
  intros (Hne & Hs & Hf & p & Hd & Hp).
  assert (on_board st) as Hst by (split_and!; try done; by exists p).
  destruct i as [k|b]; simpl.
  - unfold handleKeyPress. by repeat case_match; simplify_eq.
  - destruct b; simpl; try done; (split_and!; try done);
      eexists; (split; [done|]); unfold unit_step; auto.
Qed.

Lemma advance_on_board (h : Happening) (g : Game) :
  fair h → on_board (state g) → ∃ g', advance h g = Some g' ∧ on_board (state g').
Proof.
  intros Hh Hg. destruct h as [c|nf|i]; simpl.
  - destruct (same_value c (command g)); [by exists g|].
    destruct (on_command_on_board c (state g) Hh Hg) as (st' & -> & Hst').
    by eexists.
  - destruct (tick_keeps_the_board nf (state g) Hh Hg) as (st' & -> & Hst').
    by eexists.
  - eexists; split; [done|]. by apply react_on_board.
Qed.

Lemma play_on_board (hs : list Happening) (g : Game) :
  Forall fair hs → on_board (state g) → ∃ g', play hs g = Some g' ∧ on_board (state g').
Proof.
  revert g. induction hs as [|h rest IH]; intros g Hhs Hg; [by exists g|].
  apply Forall_cons in Hhs as [Hh Hrest]. simpl.
  destruct (advance_on_board h g Hh Hg) as (g1 & -> & Hg1). by apply IH.
Qed.

Lemma mounted_on_board : on_board mounted.
Proof.
  split_and!; try done.
  - repeat constructor. eexists _, _. split; [done|]. unfold GRID_SIZE. lia.
  - eexists _, _. split; [done|]. unfold GRID_SIZE. lia.
  - eexists. split; [done|]. unfold unit_step. auto.
Qed.

(** X1. The snake never leaves the board.  A game is mounted with some
    command and then receives commands, ticks, key presses and clicks.  As
    long as the food is put inside the grid and every command can be converted
    to a property key that names no member inherited from [Object.prototype],
    the game is never unmounted, the snake is not empty, every segment and the
    food are inside the 20 by 20 grid, the direction is one cell along one
    axis, and the next tick does not throw. *)
Theorem snake_stays_on_board (c : option JValue) (hs : list Happening) (nf : Point)
    (Hc : fair_command c)
    (Hfair : Forall fair hs) :
  ∃ g, mount c ≫= play hs = Some g ∧
       snake (state g) ≠ [] ∧
       Forall in_grid (snake (state g)) ∧
       in_grid (food (state g)) ∧
       (∃ p, direction (state g) = Vec p ∧ unit_step p) ∧
       is_Some (tick nf (state g)).
Proof.
  unfold mount.
  destruct (on_command_on_board c mounted Hc mounted_on_board) as (st0 & -> & Hst0).
  cbn [fmap option_fmap option_map mbind option_bind].
  destruct (play_on_board hs {| state := st0; command := c |} Hfair Hst0)
    as (g & Hplay & Hne & Hs & Hf & Hd).
  exists g. split_and!; try done.
  unfold tick. destruct (isPlaying _); [|done].
  destruct (snake _); [done|]. by repeat case_match.
Qed.

(** X2. A tick moves the head one cell along the direction, modulo 20, so that
    the snake wraps around the edges.  If the new head is on the food the
    snake grows by that head and fresh food is placed; otherwise the snake
    drops its last segment and keeps its length.  The tick checks nothing
    else: it does not end the game, whatever the head runs into. *)
Theorem tick_moves_and_grows (nf : Point) (st : State) (a b dx dy : Z) (tl : list Point)
    (Hp : isPlaying st = true)
    (Hs : snake st = {| x := Int a; y := Int b |} :: tl)
    (Hd : direction st = {| x := Int dx; y := Int dy |})
    (Ha : (0 ≤ a < GRID_SIZE)%Z) (Hb : (0 ≤ b < GRID_SIZE)%Z)
    (Hdx : (-1 ≤ dx ≤ 1)%Z) (Hdy : (-1 ≤ dy ≤ 1)%Z) :
  ∃ st', tick nf st = Some st' ∧
         isPlaying st' = true ∧
         direction st' = direction st ∧
         head (snake st') =
           Some {| x := Int ((a + dx) `mod` GRID_SIZE); y := Int ((b + dy) `mod` GRID_SIZE) |} ∧
         (food st = {| x := Int ((a + dx) `mod` GRID_SIZE);
                       y := Int ((b + dy) `mod` GRID_SIZE) |} →
          snake st' = {| x := Int ((a + dx) `mod` GRID_SIZE);
                         y := Int ((b + dy) `mod` GRID_SIZE) |} :: snake st ∧
          length (snake st') = S (length (snake st)) ∧ food st' = nf) ∧
         (food st ≠ {| x := Int ((a + dx) `mod` GRID_SIZE);
                       y := Int ((b + dy) `mod` GRID_SIZE) |} →
          snake st' = {| x := Int ((a + dx) `mod` GRID_SIZE);
                         y := Int ((b + dy) `mod` GRID_SIZE) |} :: removelast (snake st) ∧
          length (snake st') = length (snake st) ∧ food st' = food st).
Proof.
  unfold tick. rewrite Hp, Hs, Hd. cbn [x y add rem direction_x direction_y].
  destruct (wrap_in_range a dx Ha Hdx) as [-> _].
  destruct (wrap_in_range b dy Hb Hdy) as [-> _].
  set (nx := ((a + dx) `mod` GRID_SIZE)%Z). set (ny := ((b + dy) `mod` GRID_SIZE)%Z).
  assert (same (Int nx) (x (food st)) && same (Int ny) (y (food st)) = true ↔
          food st = {| x := Int nx; y := Int ny |}) as Hsame.
  { destruct (food st) as [[fx|] [fy|]]; simpl; rewrite ?andb_false_r;
      try (split; [done|intros [=]]).
    rewrite andb_true_iff, !Z.eqb_eq. split; [by intros [-> ->]|by intros [= -> ->]]. }
  destruct (same (Int nx) (x (food st)) && same (Int ny) (y (food st))).
  - eexists; split; [done|]. cbn [snake food isPlaying direction head].
    split_and!; try done. intros Hne. destruct Hne. by apply Hsame.
  - eexists; split; [done|]. cbn [snake food isPlaying direction head].
    split_and!; try done.
    + intros Hfood. apply Hsame in Hfood. done.
    + intros _. split_and!; try done.
      change (length (_ :: removelast ?l)) with (S (length (removelast l))).
      by rewrite length_removelast_cons.
Qed.

(** X3. A command steers and nothing more.  A command that can be converted
    to a property key naming no member inherited from [Object.prototype] never
    unmounts the game and never touches the snake or the food: the effect
    either changes nothing (a falsy command, an unknown word, a number, a
    boolean, an object without a [toString] member of its own), or pauses the
    game ("stop"), or sets one of the four unit directions and starts the
    game.  It runs only when the command differs from the one of the last
    render. *)
Theorem commands_only_steer (c : option JValue) (g : Game)
    (Hfair : fair_command c) :
  ∃ st', on_command c (state g) = Some st' ∧
         snake st' = snake (state g) ∧
         food st' = food (state g) ∧
         (st' = state g ∨
          st' = setIsPlaying false (state g) ∨
          ∃ d, unit_step d ∧ st' = setIsPlaying true (setDirection d (state g))) ∧
         (∀ k, c = Some (JString k) → own_direction k = None → k ≠ "stop" →
               st' = state g) ∧
         (c = Some (JString "stop") → st' = setIsPlaying false (state g)) ∧
         advance (Command c) g =
           Some (if same_value c (command g) then g
                 else {| state := st'; command := c |}).
Proof.
  assert (∀ st', on_command c (state g) = Some st' →
            advance (Command c) g =
              Some (if same_value c (command g) then g
                    else {| state := st'; command := c |})) as Hadv.
  { intros st' Hst'. cbn [advance]. rewrite Hst'. by destruct (same_value _ _). }
  destruct c as [v|]; [|exists (state g); split_and!; auto; done].
  pose proof (on_command_fair v (state g) Hfair) as Hon.
  eexists. split; [exact Hon|]. specialize (Hadv _ Hon).
  destruct (truthy v) eqn:Htruthy; cycle 1.
  { split_and!; auto. intros [= ->]. done. }
  destruct (key_of v ≫= own_direction) as [d|] eqn:Hd.
  - destruct (key_of v) as [k|] eqn:Hk; [|done]. cbn in Hd.
    split_and!; try done.
    + right. right. exists d. split; [by eapply own_direction_unit|done].
    + intros k' [= ->] Hown _. cbn in Hk. simplify_eq.
    + intros [= ->]. cbn in Hk. simplify_eq.
  - destruct v as [|b|n|s|items|members];
      try (by split_and!; auto; first [by intros ? [=] | by intros [=]]).
    destruct (String.eqb s "stop") eqn:Hstop.
    + apply String.eqb_eq in Hstop. subst s. split_and!; auto.
      intros k [= <-] _ Hne. done.
    + split_and!; auto.
      intros [= ->]. done.
Qed.

(** X4. A command that names a member inherited from [Object.prototype] is
    not ignored.  On a game whose direction is one the code stored:
    "constructor" starts the game and keeps the direction ([setDirection]
    runs [Object] as an updater); "toString" and "__proto__" start the game
    with a direction that has no coordinates, and the next tick puts a head
    with [NaN] coordinates in front of the snake, outside the grid; every
    other inherited name makes the updater raise a TypeError, which unmounts
    the game. *)
Theorem inherited_names_are_not_ignored (k : string) (nf hd p : Point) (tl : list Point)
    (st : State)
    (Hk : inherited k = true)
    (Hs : snake st = hd :: tl)
    (Hd : direction st = Vec p) :
  if String.eqb k "constructor" then
    on_command (Some (JString k)) st = Some (setIsPlaying true st)
  else if String.eqb k "toString" || String.eqb k "__proto__" then
    ∃ st' st'', on_command (Some (JString k)) st = Some st' ∧
                isPlaying st' = true ∧
                tick nf st' = Some st'' ∧
                snake st'' = {| x := NaN; y := NaN |} :: removelast (snake st) ∧
                ¬ in_grid {| x := NaN; y := NaN |}
  else on_command (Some (JString k)) st = None.
Proof.
  assert (truthy (JString k) = true) as Htruthy.
  { cbn. destruct (String.eqb k "") eqn:He; [|done].
    apply String.eqb_eq in He. by subst k. }
  assert (∀ a, add (add a NaN) (Int GRID_SIZE) = NaN) as Hnan by (by intros [|]).
  assert (¬ in_grid {| x := NaN; y := NaN |}) as Hout by (by intros (a & b & [=] & _)).
  pose proof (inherited_not_own k Hk) as Hown.
  unfold on_command. rewrite Htruthy. cbn [key_raises key_of mbind option_bind].
  unfold names_member. rewrite Hown, Hk. unfold updated_direction. rewrite Hown, Hd.
  destruct (String.eqb k "constructor") eqn:E1.
  { apply String.eqb_eq in E1. subst k. cbn. rewrite <- Hd. by destruct st. }
  destruct (String.eqb k "toString") eqn:E2.
  { apply String.eqb_eq in E2. subst k. cbn.
    eexists _, _. split; [done|]. split; [done|]. unfold tick. cbn. rewrite Hs, !Hnan.
    by split_and!. }
  destruct (String.eqb k "__proto__") eqn:E3.
  { apply String.eqb_eq in E3. subst k. cbn.
    eexists _, _. split; [done|]. split; [done|]. unfold tick. cbn. rewrite Hs, !Hnan.
    by split_and!. }
  cbn. by destruct (String.eqb k "isPrototypeOf").
Qed.

(** X5. The keyboard can stop the game and nothing else.  The four arrow keys
    raise a ReferenceError (the handler reads [directions], which is out of
    its scope); space pauses; every key that is handled leaves the snake, the
    food and the direction as they are and never starts the game. *)
Theorem keyboard_only_stops (key : string) (st : State) :
  handleKeyPress "ArrowUp" st = RaisesReferenceError ∧
  handleKeyPress "ArrowDown" st = RaisesReferenceError ∧
  handleKeyPress "ArrowLeft" st = RaisesReferenceError ∧
  handleKeyPress "ArrowRight" st = RaisesReferenceError ∧
  handleKeyPress " " st = Handled (setIsPlaying false st) ∧
  match handleKeyPress key st with
  | Handled st' =>
      snake st' = snake st ∧ food st' = food st ∧ direction st' = direction st ∧
      (st' = st ∨ key = " " ∧ isPlaying st' = false)
  | RaisesReferenceError => True
  end ∧
  direction (react (KeyDown key) st) = direction st ∧
  (isPlaying st = false → isPlaying (react (KeyDown key) st) = false).
Proof.
  split_and!; try done.
  - unfold handleKeyPress, own_key.
    destruct (String.eqb key " ") eqn:Hsp.
    + apply String.eqb_eq in Hsp. subst key. simpl. split_and!; auto.
    + repeat case_match; simplify_eq; try done; split_and!; auto.
  - simpl. destruct (handleKeyPress key st) as [st'|] eqn:Hh; [|done].
    unfold handleKeyPress in Hh. by repeat case_match; simplify_eq.
  - intros Hp. simpl. destruct (handleKeyPress key st) as [st'|] eqn:Hh; [|done].
    unfold handleKeyPress in Hh. by repeat case_match; simplify_eq.
Qed.

End SnakeGame.

Lemma snake_stays_on_board_witness :
  ∃ g, Snake.mount (Some (JString "up")) ≫=
         Snake.play
           [Snake.Tick {| Snake.x := Snake.Int 3; Snake.y := Snake.Int 4 |};
            Snake.User (Snake.KeyDown "ArrowLeft");
            Snake.Command (Some (JObject [("direction", JString "left")]));
            Snake.User (Snake.Click Snake.ButtonRight);
            Snake.Tick {| Snake.x := Snake.Int 0; Snake.y := Snake.Int 19 |};
            Snake.Command (Some (JNumber 7)); Snake.Command (Some (JString "jump"))] =
       Some g ∧
       Forall Snake.in_grid (Snake.snake (Snake.state g)).
Proof.
  destruct (snake_stays_on_board (Some (JString "up"))
              [Snake.Tick {| Snake.x := Snake.Int 3; Snake.y := Snake.Int 4 |};
               Snake.User (Snake.KeyDown "ArrowLeft");
               Snake.Command (Some (JObject [("direction", JString "left")]));
               Snake.User (Snake.Click Snake.ButtonRight);
               Snake.Tick {| Snake.x := Snake.Int 0; Snake.y := Snake.Int 19 |};
               Snake.Command (Some (JNumber 7)); Snake.Command (Some (JString "jump"))]
              {| Snake.x := Snake.Int 0; Snake.y := Snake.Int 0 |})
    as (g & Hplay & _ & Hgrid & _).
  - split; [reflexivity|]. by intros k [= <-].
  - repeat (apply Forall_cons; split); try apply Forall_nil; simpl; try done;
      try (eexists _, _; split; [done|]; unfold Snake.GRID_SIZE; lia);
      try (split; [reflexivity|]; by intros k [= <-]).
  - exists g. split; [exact Hplay | exact Hgrid].
Defined.

Lemma tick_moves_and_grows_witness :
  ∃ st', Snake.tick {| Snake.x := Snake.Int 1; Snake.y := Snake.Int 1 |}
           (Snake.onClick Snake.ButtonLeft
              {| Snake.snake := [{| Snake.x := Snake.Int 0; Snake.y := Snake.Int 5 |}];
                 Snake.direction := Snake.Vec Snake.INITIAL_DIRECTION;
                 Snake.food := {| Snake.x := Snake.Int 15; Snake.y := Snake.Int 15 |};
                 Snake.isPlaying := false |}) = Some st' ∧
         head (Snake.snake st') =
           Some {| Snake.x := Snake.Int 19; Snake.y := Snake.Int 5 |}.
Proof.
  destruct (tick_moves_and_grows
              {| Snake.x := Snake.Int 1; Snake.y := Snake.Int 1 |}
              (Snake.onClick Snake.ButtonLeft
                 {| Snake.snake := [{| Snake.x := Snake.Int 0; Snake.y := Snake.Int 5 |}];
                    Snake.direction := Snake.Vec Snake.INITIAL_DIRECTION;
                    Snake.food := {| Snake.x := Snake.Int 15; Snake.y := Snake.Int 15 |};
                    Snake.isPlaying := false |})
              0 5 (-1) 0 [])
    as (st' & Htick & _ & _ & Hhead & _);
    try reflexivity; try (unfold Snake.GRID_SIZE; lia).
  exists st'. split; [exact Htick | exact Hhead].
Defined.

Lemma commands_only_steer_witness :
  ∃ st', Snake.on_command (Some (JString "jump"))
           (Snake.state {| Snake.state := Snake.mounted; Snake.command := None |}) =
           Some st' ∧
         Snake.snake st' = Snake.snake Snake.mounted ∧
         Snake.food st' = Snake.food Snake.mounted.
Proof.
  destruct (commands_only_steer (Some (JString "jump"))
              {| Snake.state := Snake.mounted; Snake.command := None |})
    as (st' & Hon & Hs & Hf & _).
  - split; [reflexivity|]. by intros k [= <-].
  - exists st'. split_and!; [exact Hon | exact Hs | exact Hf].
Defined.

Lemma inherited_names_are_not_ignored_witness :
  Snake.on_command (Some (JString "valueOf")) Snake.mounted = None.
Proof.
  apply (inherited_names_are_not_ignored "valueOf"
           {| Snake.x := Snake.Int 0; Snake.y := Snake.Int 0 |}
           {| Snake.x := Snake.Int 10; Snake.y := Snake.Int 10 |}
           Snake.INITIAL_DIRECTION [] Snake.mounted);
    reflexivity.
Defined.

(** ** The event log as a whole *)

Section LogShape.

Implicit Types (D : gmap string Event).

Lemma record_fold_cons (ev : option Event) (evs : list (option Event)) D :
  (fold_left record_event (ev :: evs) (D, [])).2 =
    (record_event (D, []) ev).2 ++
    (fold_left record_event evs ((record_event (D, []) ev).1, [])).2.
Proof.
  cbn [fold_left]. destruct (record_event (D, []) ev) as [D1 l1].
  by rewrite record_fold_display.
Qed.

Lemma record_event_cases D (x : Event) :
  (is_delta x = false ∧ record_event (D, []) (Some x) = (D, [x])) ∨
  (∃ t, type x = Some t ∧ is_delta x = true ∧
     ((is_Some (D !! t) ∧ record_event (D, []) (Some x) = (D, [])) ∨
      (D !! t = None ∧ record_event (D, []) (Some x) = (<[t := x]> D, [x])))).
Proof.
  unfold is_delta, record_event. cbn [fst snd].
  destruct (type x) as [t|]; [|by left].
  destruct (ends_with t "delta"); [|by left].
  right. exists t. split_and!; try done.
  destruct (D !! t) eqn:HD; [left | right]; done.
Qed.

Lemma record_fold_shape (evs : list (option Event)) D :
  sublist (fold_left record_event evs (D, [])).2 (omap id evs) ∧
  filter (λ e, is_delta e = false) (fold_left record_event evs (D, [])).2 =
    filter (λ e, is_delta e = false) (omap id evs) ∧
  NoDup (type <$> filter (λ e, is_delta e = true) (fold_left record_event evs (D, [])).2) ∧
  (∀ e t, e ∈ (fold_left record_event evs (D, [])).2 →
          is_delta e = true → type e = Some t → D !! t = None) ∧
  (∀ e, Some e ∈ evs →
        (∃ e', e' ∈ (fold_left record_event evs (D, [])).2 ∧ type e' = type e) ∨
        (∃ t, type e = Some t ∧ is_delta e = true ∧ is_Some (D !! t))).
Proof.
  revert D. induction evs as [|ev evs IH]; intros D.
  { simpl. split_and!; try done; [constructor | by intros ?? ?%elem_of_nil
                                  | by intros ? ?%elem_of_nil]. }
  rewrite record_fold_cons.
  destruct ev as [x|]; cycle 1.
  { simpl. destruct (IH D) as (I1 & I2 & I3 & I4 & I5). split_and!; try done.
    intros e [?|He]%elem_of_cons; [done|]. by apply I5. }
  cbn [omap id]. change (omap id evs) with (omap (M := list) id evs).
  destruct (record_event_cases D x)
    as [[Hnd ->]|(t & Ht & Hd & [[Hseen ->]|[Hnew ->]])]; cbn [fst snd].
  - destruct (IH D) as (I1 & I2 & I3 & I4 & I5). simpl. split_and!.
    + by apply sublist_skip.
    + rewrite !filter_cons, !decide_True by done. by rewrite I2.
    + rewrite filter_cons, decide_False by (by rewrite Hnd). done.
    + intros e t' [->|He]%elem_of_cons Hde Hte; [congruence|]. by eapply I4.
    + intros e [[= ->]|He]%elem_of_cons.
      * left. exists x. split; [by left|done].
      * destruct (I5 e He) as [(e' & He' & Hty)|Hr]; [|by right].
        left. exists e'. split; [by right|done].
  - destruct (IH D) as (I1 & I2 & I3 & I4 & I5). simpl. split_and!; try done.
    + by apply sublist_cons.
    + rewrite (filter_cons _ x), decide_False by (by rewrite Hd). done.
    + intros e [[= ->]|He]%elem_of_cons; [|by apply I5].
      right. by exists t.
  - destruct (IH (<[t := x]> D)) as (I1 & I2 & I3 & I4 & I5). simpl. split_and!.
    + by apply sublist_skip.
    + rewrite (filter_cons _ x), (filter_cons _ x), !decide_False by (by rewrite Hd). done.
    + rewrite filter_cons, decide_True by done. rewrite fmap_cons.
      apply NoDup_cons. split; [|done].
      intros (e & Hte & [Hde He]%list_elem_of_filter)%list_elem_of_fmap.
      rewrite Ht in Hte. symmetry in Hte.
      specialize (I4 e t He Hde Hte). by rewrite lookup_insert_eq in I4.
    + intros e t' [->|He]%elem_of_cons Hde Hte; [congruence|].
      specialize (I4 e t' He Hde Hte). by apply lookup_insert_None in I4 as [? _].
    + intros e [[= ->]|He]%elem_of_cons.
      * left. exists x. split; [by left|done].
      * destruct (I5 e He) as [(e' & He' & Hty)|(t' & Hte & Hde & Hin)].
        -- left. exists e'. split; [by right|done].
        -- destruct (decide (t' = t)) as [->|Hne].
           ++ left. exists x. split; [by left|congruence].
           ++ right. exists t'. by rewrite lookup_insert_ne in Hin.
Qed.

Lemma record_fold_fixed (L : list Event) D :
  NoDup (type <$> filter (λ e, is_delta e = true) L) →
  (∀ e t, e ∈ L → is_delta e = true → type e = Some t → D !! t = None) →
  (fold_left record_event (Some <$> L) (D, [])).2 = L.
Proof.
  revert D. induction L as [|x L IH]; intros D Hnd Hfresh; [done|].
  rewrite fmap_cons, record_fold_cons.
  destruct (record_event_cases D x)
    as [[Hd ->]|(t & Ht & Hd & [[Hseen _]|[Hnew ->]])]; cbn [fst snd].
  - simpl. f_equal. apply IH.
    + by rewrite filter_cons, decide_False in Hnd by (by rewrite Hd).
    + intros e t' He. apply Hfresh. by right.
  - rewrite (Hfresh x t) in Hseen; [by destruct Hseen|by left|done|done].
  - simpl. f_equal. rewrite filter_cons, decide_True, fmap_cons in Hnd by done.
    apply NoDup_cons in Hnd as [Hx Hnd]. apply IH; [done|].
    intros e t' He Hde Hte. apply lookup_insert_None. split.
    + apply (Hfresh e t'); [by right|done|done].
    + intros <-. apply Hx. apply list_elem_of_fmap. exists e.
      split; [congruence|]. by apply list_elem_of_filter.
Qed.

(** X6. The log leaves out nothing but repeated deltas.  What it displays is
    a selection of the events it was handed, in their order, and every event
    whose type does not end in "delta" (or that has no type) is displayed. *)
Theorem eventlog_shows_every_other_event (evs : list (option Event)) :
  sublist (EventLog evs) (omap id evs) ∧
  filter (λ e, is_delta e = false) (EventLog evs) =
    filter (λ e, is_delta e = false) (omap id evs).
Proof.
  destruct (record_fold_shape evs ∅) as (I1 & I2 & _). by split.
Qed.

(** X7. Per delta type the log has one entry, and no type goes missing: the
    delta entries on display have pairwise different types, and every event
    handed to the log has an entry of its type on display. *)
Theorem eventlog_one_entry_per_delta_type (evs : list (option Event)) :
  NoDup (type <$> filter (λ e, is_delta e = true) (EventLog evs)) ∧
  ∀ e, Some e ∈ evs → ∃ e', e' ∈ EventLog evs ∧ type e' = type e.
Proof.
  destruct (record_fold_shape evs ∅) as (_ & _ & I3 & _ & I5). split; [done|].
  intros e He. destruct (I5 e He) as [?|(t & _ & _ & Hin)]; [done|].
  rewrite lookup_empty in Hin. by destruct Hin.
Qed.

(** X8. Coalescing is idempotent: handing the log what it displays gives the
    same display. *)
Theorem eventlog_is_idempotent (evs : list (option Event)) :
  EventLog (Some <$> EventLog evs) = EventLog evs.
Proof.
  destruct (record_fold_shape evs ∅) as (_ & _ & I3 & _ & _).
  apply record_fold_fixed; [done|]. intros. apply lookup_empty.
Qed.

End LogShape.

(** ** What every render preserves *)

(** A relation between worlds that holds across the sends, the handling of an
    output and the state updates of the effects holds across every stimulus
    other than start, stop and open. *)
Section Preserved.

Context `{Platform}.

Variable R : World → World → Prop.

Hypothesis R_refl : ∀ w, R w w.
Hypothesis R_trans : ∀ w1 w2 w3, R w1 w2 → R w2 w3 → R w1 w3.
Hypothesis R_send : ∀ d msg w, R w (sendClientEvent d msg w).2.
Hypothesis R_handle : ∀ d o w, R w (handle_output d o w).
Hypothesis R_flag : ∀ w, R w (upd_panel (set_functionAdded true) w).
Hypothesis R_snake : ∀ w, R w (snake_effect w).
Hypothesis R_message : ∀ data w, R w (on_message data w).
Hypothesis R_timers : ∀ rest w, R w (upd_env (set_timers rest) w).

Lemma preserved_route (d : option nat) (outputs : list Output) (w : World) :
  R w (fold_left (λ acc o, handle_output d o acc) outputs w).
Proof.
  revert w. induction outputs as [|o outputs IH]; intros w; simpl; [done|].
  eapply R_trans; [apply (R_handle d o)|apply IH].
Qed.

Lemma preserved_dispatch (w : World) : R w (dispatch_effect w).2.
Proof.
  unfold dispatch_effect, dispatch_effect_with.
  destruct (last (events (app w))) as [f|]; [|done].
  destruct (head (events (app w))) as [m|]; [|done].
  assert (R w (register_tools f w).2) as Hr.
  { unfold register_tools. case_match; [|done].
    pose proof (R_send (dataChannel (app w)) SessionUpdateObject w) as Hs.
    destruct (sendClientEvent _ _ w) as [[|e] w1]; cbn [snd] in *; [|done].
    eapply R_trans; [exact Hs|apply R_flag]. }
  destruct (register_tools f w) as [[|e] w1]; cbn [snd] in *; [|done].
  eapply R_trans; [exact Hr|].
  unfold route_response. repeat case_match; cbn [snd]; try done.
  apply preserved_route.
Qed.

Lemma preserved_commit (fuel : nat) (w : World) : R w (commit fuel w).2.
Proof.
  revert w. induction fuel as [|k IH]; intros w; [done|].
  rewrite commit_S.
  pose proof (preserved_dispatch w) as Hd.
  destruct (dispatch_effect w) as [[|e] w1]; cbn [snd] in *; [|done].
  assert (R w (snake_effect w1)) as Hs by (eapply R_trans; [exact Hd|apply R_snake]).
  case_match; [|done]. eapply R_trans; [exact Hs|apply IH].
Qed.

Lemma preserved_rerender (before w : World) (r : Completion * World) :
  R w r.2 → R w (rerender before r).2.
Proof.
  intros Hr. unfold rerender. destruct r as [[|e] w1]; cbn [snd] in *; [|done].
  case_match; [|done]. eapply R_trans; [exact Hr|apply preserved_commit].
Qed.

Lemma preserved_step (s : Stimulus) (w : World) :
  match s with
  | Start _ | Stop | ChannelOpen _ => True
  | _ => R w (step s w).2
  end.
Proof.
  destruct s as [o| |c|c data|m|message|]; try done; unfold step.
  - repeat case_match; try done. apply preserved_rerender, R_message.
  - apply preserved_rerender, R_send.
  - apply preserved_rerender. unfold sendTextMessage.
    pose proof (R_send (dataChannel (app w)) (Literal (text_item_event message)) w) as Hs.
    destruct (sendClientEvent _ (Literal (text_item_event message)) w) as [[|e] w1];
      cbn [snd] in *; [|done].
    eapply R_trans; [exact Hs|apply R_send].
  - destruct (timers (env w)) as [|t rest]; [done|].
    eapply R_trans; [apply (R_timers rest)|]. apply preserved_rerender, R_send.
Qed.

End Preserved.

(** ** Peer connections and the id of the manifest *)

Section Peers.

Context `{Platform}.

Lemma keeps_peers_refl (w : World) : keeps_peers w w.
Proof. by split_and!. Qed.

Lemma keeps_peers_trans (w1 w2 w3 : World) :
  keeps_peers w1 w2 → keeps_peers w2 w3 → keeps_peers w1 w3.
Proof.
  intros (A1 & A2 & A3) (B1 & B2 & B3). split_and!; [congruence|congruence|].
  intros i Hne Hi. apply B3; [done|]. by apply A3.
Qed.

Lemma keeps_peers_same (w w' : World) :
  peers (env w') = peers (env w) →
  peerConnection (app w') = peerConnection (app w) →
  sessionUpdate_event_id (env w') = sessionUpdate_event_id (env w) →
  keeps_peers w w'.
Proof. intros Hp Hc Hi. split_and!; [done|done|]. intros i _. by rewrite Hi. Qed.

Lemma assign_event_id_keeps_peers (msg : Message) (w : World) :
  keeps_peers w (assign_event_id msg w).2.
Proof.
  unfold assign_event_id.
  destruct (carries_id (read_message msg w)) eqn:Hc; [apply keeps_peers_refl|].
  destruct msg as [m|]; cbn [snd]; [by apply keeps_peers_same|].
  split_and!; [done|done|]. intros i Hne Hi. exfalso.
  unfold carries_id, read_message in Hc. cbn in Hc. rewrite Hi in Hc.
  apply negb_false_iff, String.eqb_eq in Hc. done.
Qed.

Lemma sendClientEvent_keeps_peers (d : option nat) (msg : Message) (w : World) :
  keeps_peers w (sendClientEvent d msg w).2.
Proof.
  rewrite sendClientEvent_unfold. destruct d as [c|]; [|by apply keeps_peers_same].
  cbn zeta. pose proof (assign_event_id_keeps_peers msg w) as Ha.
  destruct (channels (env w) !! c) as [ch|]; [|exact Ha].
  destruct (readyState ch); exact Ha.
Qed.

Lemma handle_output_keeps_peers (d : option nat) (o : Output) (w : World) :
  keeps_peers w (handle_output d o w).
Proof.
  unfold handle_output, report_arguments_error, setTimeout.
  repeat case_match; by apply keeps_peers_same.
Qed.

Lemma step_keeps_peers (s : Stimulus) (w : World) :
  match s with
  | Start _ | Stop | ChannelOpen _ => True
  | _ => keeps_peers w (step s w).2
  end.
Proof.
  apply (preserved_step keeps_peers).
  - apply keeps_peers_refl.
  - apply keeps_peers_trans.
  - apply sendClientEvent_keeps_peers.
  - apply handle_output_keeps_peers.
  - intros w0. by apply keeps_peers_same.
  - intros w0. unfold snake_effect. repeat case_match; by apply keeps_peers_same.
  - intros data w0. unfold on_message. case_match; by apply keeps_peers_same.
  - intros rest w0. by apply keeps_peers_same.
Qed.

Lemma step_open_keeps_peers (c : nat) (w : World) :
  keeps_peers w (step (ChannelOpen c) w).2.
Proof.
  destruct (channels (env w) !! c) as [ch|] eqn:Hc; cycle 1.
  { unfold step. rewrite Hc. apply keeps_peers_refl. }
  destruct (decide (readyState ch = connecting)) as [Hr|Hr].
  - rewrite (step_open c w ch Hc Hr). by apply keeps_peers_same.
  - unfold step. rewrite Hc. destruct (readyState ch); try done; apply keeps_peers_refl.
Qed.

Lemma channel_close_peers (c : nat) (w : World) :
  peers (env (channel_close c w)) = peers (env w).
Proof. unfold channel_close. by case_match. Qed.

Lemma channel_close_manifest_id (c : nat) (w : World) :
  sessionUpdate_event_id (env (channel_close c w)) = sessionUpdate_event_id (env w).
Proof. unfold channel_close. by case_match. Qed.

Lemma peer_close_manifest_id (p : nat) (w : World) :
  sessionUpdate_event_id (env (peer_close p w)) = sessionUpdate_event_id (env w).
Proof.
  unfold peer_close. destruct (peers (env w) !! p) as [pr|]; [|done].
  cbn zeta. destruct (peer_channel pr); [|done].
  by rewrite channel_close_manifest_id.
Qed.

Lemma step_manifest_id (s : Stimulus) (i : string) (w : World) :
  i ≠ "" → sessionUpdate_event_id (env w) = Some i →
  sessionUpdate_event_id (env (step s w).2) = Some i.
Proof.
  intros Hne Hi.
  pose proof (step_keeps_peers s w) as Hk.
  destruct s as [o| |c|c data|m|message|];
    try (destruct Hk as (_ & _ & Hk); by apply Hk).
  - unfold step, startSession. by destruct o.
  - rewrite step_stop_env. unfold stopSession. cbn [snd env upd_app].
    destruct (peerConnection (app w)), (dataChannel (app w));
      by rewrite ?peer_close_manifest_id, ?channel_close_manifest_id.
  - destruct (step_open_keeps_peers c w) as (_ & _ & Ho). by apply Ho.
Qed.

Lemma run_manifest_id (tr : list Stimulus) (i : string) (w : World) :
  i ≠ "" → sessionUpdate_event_id (env w) = Some i →
  sessionUpdate_event_id (env (run tr w)) = Some i.
Proof.
  intros Hne. revert w. induction tr as [|s tr IH]; intros w Hi; [done|].
  rewrite run_cons. apply IH. by apply step_manifest_id.
Qed.

Lemma peer_close_other (p p' : nat) (w : World) :
  p' ≠ p → peers (env (peer_close p' w)) !! p = peers (env w) !! p.
Proof.
  intros Hne. unfold peer_close. destruct (peers (env w) !! p') as [pr|]; [|done].
  cbn zeta. destruct (peer_channel pr); rewrite ?channel_close_peers; cbn;
    by rewrite list_lookup_insert_ne.
Qed.

Lemma step_unreachable_peer (s : Stimulus) (p : nat) (w : World) :
  unreachable_peer p w → unreachable_peer p (step s w).2.
Proof.
  intros [Hp Hc].
  pose proof (step_keeps_peers s w) as Hk.
  destruct s as [o| |c|c data|m|message|];
    try (destruct Hk as (Hk1 & Hk2 & _); split; by rewrite ?Hk1, ?Hk2).
  - unfold step, startSession. destruct o; [done| | |]; unfold unreachable_peer; cbn.
    + split; [|done]. rewrite lookup_app_l; [done|].
      apply lookup_lt_is_Some. destruct (peers (env w) !! p); [by eexists|done].
    + split; [|done]. rewrite lookup_app_l; [done|].
      apply lookup_lt_is_Some. destruct (peers (env w) !! p); [by eexists|done].
    + split.
      * rewrite lookup_app_l; [done|].
        apply lookup_lt_is_Some. destruct (peers (env w) !! p); [by eexists|done].
      * intros [= <-]. rewrite lookup_ge_None_2 in Hp; [done|lia].
  - split; [|by rewrite step_stop_app].
    rewrite step_stop_env. unfold stopSession. cbn [snd env upd_app].
    destruct (peerConnection (app w)) as [p'|] eqn:Hpc.
    + rewrite peer_close_other by congruence.
      destruct (dataChannel (app w)); by rewrite ?channel_close_peers.
    + destruct (dataChannel (app w)); by rewrite ?channel_close_peers.
  - destruct (step_open_keeps_peers c w) as (Hk1 & Hk2 & _). split; by rewrite ?Hk1, ?Hk2.
Qed.

Lemma run_unreachable_peer (tr : list Stimulus) (p : nat) (w : World) :
  unreachable_peer p w → unreachable_peer p (run tr w).
Proof.
  revert w. induction tr as [|s tr IH]; intros w Hw; [done|].
  rewrite run_cons. by apply IH, step_unreachable_peer.
Qed.

Lemma step_peer_allocated (s : Stimulus) (w : World) :
  (∀ p, peerConnection (app w) = Some p → p < length (peers (env w))) →
  ∀ p, peerConnection (app (step s w).2) = Some p → p < length (peers (env (step s w).2)).
Proof.
  intros Hw p.
  pose proof (step_keeps_peers s w) as Hk.
  destruct s as [o| |c|c data|m|message|];
    try (destruct Hk as (-> & -> & _); by apply Hw).
  - unfold step, startSession. destruct o; cbn; [apply Hw| | |].
    + rewrite length_app. intros Hp%Hw. lia.
    + rewrite length_app. intros Hp%Hw. lia.
    + rewrite length_app. intros [= <-]. simpl. lia.
  - by rewrite step_stop_app.
  - destruct (step_open_keeps_peers c w) as (-> & -> & _). by apply Hw.
Qed.

Lemma run_peer_allocated (tr : list Stimulus) (w : World) :
  (∀ p, peerConnection (app w) = Some p → p < length (peers (env w))) →
  ∀ p, peerConnection (app (run tr w)) = Some p → p < length (peers (env (run tr w))).
Proof.
  revert w. induction tr as [|s tr IH]; intros w Hw; [done|].
  rewrite run_cons. by apply IH, step_peer_allocated.
Qed.

(** X13. A start that fails while negotiating leaks the peer connection.  The
    data channel has been stored by then, the reference to the peer connection
    has not: a later stop closes the channel, but whatever happens afterwards,
    nothing the application does closes that peer connection. *)
Theorem failed_negotiation_leaks_the_peer (before after : list Stimulus) :
  dataChannel (app (step (Start start_fails_negotiating) (run before initial)).2) =
    Some (length (channels (env (run before initial)))) ∧
  peerConnection (app (step (Start start_fails_negotiating) (run before initial)).2) =
    peerConnection (app (run before initial)) ∧
  channel_state (length (channels (env (run before initial))))
    (step Stop (step (Start start_fails_negotiating) (run before initial)).2).2 =
    Some closed ∧
  peer_closed <$>
    peers (env (run after (step (Start start_fails_negotiating) (run before initial)).2))
      !! length (peers (env (run before initial))) =
    Some false.
Proof.
  set (w := run before initial).
  split_and!.
  - done.
  - done.
  - rewrite step_stop_closes_channel by done.
    unfold channel_state, step, startSession. cbn.
    by rewrite lookup_app_r, Nat.sub_diag by done.
  - apply run_unreachable_peer. split.
    + unfold step, startSession. cbn. by rewrite lookup_app_r, Nat.sub_diag by done.
    + unfold step, startSession. cbn. intros Hp.
      apply (run_peer_allocated before initial) in Hp; [fold w in Hp; lia|].
      intros p [=].
Qed.

End Peers.

(** ** Sending, receiving and labelling events *)

Section Traffic.

Context `{Platform}.

Lemma EventLog_head (e : Event) (evs : list (option Event)) :
  head (EventLog (Some e :: evs)) = Some e.
Proof.
  unfold EventLog. rewrite record_fold_cons.
  destruct (record_event_cases ∅ e) as [[_ ->]|(t & _ & _ & [[Hs _]|[_ ->]])];
    cbn [fst snd]; try done.
  rewrite lookup_empty in Hs. by destruct Hs.
Qed.

(** X9. What the application sends is shown as a client event, at the top of
    the log.  An event sent without an id gets a generated one, and as long as
    generated ids are not empty and do not start with "event_" the log labels
    it "client".  The label is read off the id alone: an event sent with an
    id of its own that starts with "event_" is labelled "server". *)
Theorem sent_events_are_labelled_client (c : nat) (ch : Channel) (m : Event) (w : World)
    (Huuid : ∀ n, randomUUID n ≠ "" ∧ starts_with (randomUUID n) "event_" = false)
    (Hc : channels (env w) !! c = Some ch)
    (Ho : readyState ch = open) :
  ∃ e, events (app (sendClientEvent (Some c) (Literal m) w).2) = e :: events (app w) ∧
       head (EventLog (Some <$> events (app (sendClientEvent (Some c) (Literal m) w).2))) =
         Some e ∧
       type e = type m ∧
       (carries_id m = false → isClient e = true) ∧
       (∀ i, event_id m = Some i → i ≠ "" → isClient e = negb (starts_with i "event_")).
Proof.
  destruct (carries_id m) eqn:Hm.
  - destruct (send_literal_with_id c m w ch Hc Ho Hm) as (w' & -> & _ & He & _).
    cbn [snd]. exists m. rewrite He, fmap_cons, EventLog_head.
    split_and!; try done.
    intros i Hi Hne. unfold isClient. rewrite Hi.
    by rewrite (proj2 (String.eqb_neq i "") Hne).
  - destruct (send_fresh_literal c m w ch Hc Ho Hm) as (w' & -> & _ & He & _).
    cbn [snd]. eexists. rewrite He, fmap_cons, EventLog_head.
    split_and!; try done.
    + intros _. unfold isClient. cbn.
      destruct (Huuid (uuids (env w))) as [Hne ->].
      by rewrite (proj2 (String.eqb_neq _ "") Hne).
    + intros i Hi Hne. unfold carries_id in Hm. rewrite Hi in Hm.
      by rewrite (proj2 (String.eqb_neq i "") Hne) in Hm.
Qed.

(** X10. A text message is two events.  Over an open channel
    [sendTextMessage] puts the user's message and then "response.create" on
    the wire, with the next two generated ids, and records them in the event
    list, the later one first. *)
Theorem text_message_sends_two_events (c : nat) (ch : Channel) (message : string)
    (w : World)
    (Hc : channels (env w) !! c = Some ch)
    (Ho : readyState ch = open) :
  ∃ w', sendTextMessage (Some c) message w = (Normal, w') ∧
        channels (env w') !! c =
          Some {| readyState := open;
                  sent := sent ch ++
                    [with_event_id (Some (randomUUID (uuids (env w))))
                       (text_item_event message);
                     with_event_id (Some (randomUUID (S (uuids (env w)))))
                       (plain_event "response.create")] |} ∧
        events (app w') =
          with_event_id (Some (randomUUID (S (uuids (env w)))))
            (plain_event "response.create") ::
          with_event_id (Some (randomUUID (uuids (env w)))) (text_item_event message) ::
          events (app w) ∧
        uuids (env w') = S (S (uuids (env w))).
Proof.
  unfold sendTextMessage.
  destruct (send_fresh_literal c (text_item_event message) w ch Hc Ho eq_refl)
    as (w1 & -> & Hc1 & He1 & Hu1).
  destruct (send_fresh_literal c (plain_event "response.create") w1 _ Hc1 eq_refl eq_refl)
    as (w2 & -> & Hc2 & He2 & Hu2).
  exists w2. cbn [sent] in Hc2. rewrite Hu1 in *. rewrite He1 in He2.
  split_and!; try done. by rewrite Hc2, <- (assoc_L (++)).
Qed.


(** X12. A message that is not JSON is dropped.  The listener catches the
    parse error: no exception escapes, and nothing changes but the console,
    which gets one line when the channel is open. *)
Theorem unparsable_message_is_dropped (c : nat) (data : string) (w : World)
    (Hdec : decode_event data = None) :
  (step (ChannelMessage c data) w).1 = Normal ∧
  quiet (step (ChannelMessage c data) w).2 = quiet w ∧
  (channel_state c w = Some open →
   console (env (step (ChannelMessage c data) w).2) =
     console (env w) ++ [ConsoleError "Error parsing message data:"]).
Proof.
  unfold step, on_message. rewrite Hdec.
  destruct (channel_state c w) as [[| | |]|]; try done.
  unfold rerender, events_changed. cbn. by rewrite Nat.eqb_refl.
Qed.

(** X14. The manifest keeps its id from session to session.  The id is
    written into the one shared manifest object the first time it is sent.
    From then on, whatever happens in between, the first "session.created" of
    a freshly opened session makes the dispatcher send the manifest with that
    same id. *)
Theorem manifest_id_is_reused (tr : list Stimulus) (i : string) (w : World)
    (c : nat) (ch : Channel) (data : string) (ev : Event)
    (Hi : sessionUpdate_event_id (env w) = Some i)
    (Hne : i ≠ "")
    (Hdec : decode_event data = Some ev)
    (Hty : type ev = Some "session.created")
    (Hd : dataChannel (app (run tr w)) = Some c)
    (Hc : channels (env (run tr w)) !! c = Some ch)
    (Ho : readyState ch = open)
    (Hev : events (app (run tr w)) = [])
    (Hf : functionAdded (panel (run tr w)) = false) :
  (∀ w0, sessionUpdate_event_id (env w0) = None →
         sessionUpdate_event_id (env (assign_event_id SessionUpdateObject w0).2) =
           Some (randomUUID (uuids (env w0)))) ∧
  ∃ w', step (ChannelMessage c data) (run tr w) = (Normal, w') ∧
        channels (env w') !! c =
          Some {| readyState := open;
                  sent := sent ch ++ [with_event_id (Some i) sessionUpdate] |} ∧
        events (app w') = [with_event_id (Some i) sessionUpdate; ev] ∧
        sessionUpdate_event_id (env w') = Some i.
Proof.
  split.
  { intros w0 H0. unfold assign_event_id, carries_id. cbn. by rewrite H0. }
  pose proof (run_manifest_id tr i w Hne Hi) as Hi'.
  destruct (first_session_created c data ev (run tr w) ch Hdec Hty Hd Hc Ho Hev Hf)
    as (w' & Hstep & Hc' & He' & _).
  rewrite (manifest_keeps_its_id i (run tr w) Hi' Hne) in Hc', He'.
  exists w'. split_and!; try done.
  replace w' with (step (ChannelMessage c data) (run tr w)).2 by (by rewrite Hstep).
  by apply step_manifest_id.
Qed.

End Traffic.

(** ** The tool panel *)

Section Panel.

Context `{Platform}.

Local Abbreviation route d outputs w := (fold_left (λ acc o, handle_output d o acc) outputs w).

Lemma handle_output_summary (d : option nat) (o : Output) (w : World) :
  timers (env (handle_output d o w)) =
    timers (env w) ++
      (if deferred o
       then [{| timer_delay := 500; timer_channel := d;
                timer_message := follow_up (name o) |}]
       else []) ∧
  functionCallOutput (panel (handle_output d o w)) =
    (if accepted o then Some o else functionCallOutput (panel w)) ∧
  activeFunction (panel (handle_output d o w)) =
    (if accepted o then Some (name o) else activeFunction (panel w)).
Proof.
  unfold handle_output, deferred, accepted, report_arguments_error, setTimeout.
  destruct (String.eqb (output_type o) "function_call"); cbn [andb];
    [|by rewrite app_nil_r].
  destruct (JSON_parse (arguments o)) as [v|] eqn:Hp.
  - rewrite bool_decide_eq_true_2 by (by eexists). cbn [andb].
    destruct (String.eqb (name o) "control_snake"); cbn [negb].
    + destruct (destructure_direction v); cbn; by rewrite app_nil_r.
    + done.
  - rewrite bool_decide_eq_false_2 by (by intros [? [=]]). cbn. by rewrite app_nil_r.
Qed.

(** X15. A batch of outputs is handled call by call, in order.  Exactly the
    function calls whose arguments parse are taken: each of them that is not
    "control_snake" schedules one follow-up, in the order of the batch, and the
    panel ends up showing the last of them.  Outputs of another type and calls
    with unparsable arguments leave no trace in the panel or the timers, and
    nothing is sent while the batch is handled. *)
Theorem batch_is_routed_call_by_call (d : option nat) (outputs : list Output) (w : World) :
  timers (env (route d outputs w)) =
    timers (env w) ++
      ((λ o, {| timer_delay := 500; timer_channel := d;
                timer_message := follow_up (name o) |}) <$>
         filter (λ o, deferred o = true) outputs) ∧
  functionCallOutput (panel (route d outputs w)) =
    match last (filter (λ o, accepted o = true) outputs) with
    | Some o => Some o
    | None => functionCallOutput (panel w)
    end ∧
  activeFunction (panel (route d outputs w)) =
    match last (filter (λ o, accepted o = true) outputs) with
    | Some o => Some (name o)
    | None => activeFunction (panel w)
    end ∧
  app (route d outputs w) = app w ∧
  channels (env (route d outputs w)) = channels (env w).
Proof.
  split_and!; [| | |apply route_app|apply route_channels];
    revert w; induction outputs as [|o os IH]; intros w; cbn [fold_left];
    try (by rewrite ?app_nil_r);
    rewrite IH; destruct (handle_output_summary d o w) as (Ht & Hf & Ha);
    rewrite filter_cons.
  - rewrite Ht. destruct (deferred o); [rewrite decide_True by done|rewrite decide_False by done].
    + by rewrite fmap_cons, <- (assoc_L (++)).
    + by rewrite app_nil_r.
  - rewrite Hf. destruct (accepted o); [rewrite decide_True by done|by rewrite decide_False].
    rewrite last_cons. by destruct (last _).
  - rewrite Ha. destruct (accepted o); [rewrite decide_True by done|by rewrite decide_False].
    rewrite last_cons. by destruct (last _).
Qed.

(** X16. A "response.done" event without a [response] makes the dispatcher
    effect raise a TypeError: the event has been recorded by then, nothing is
    routed, and the panel and the timers are as before. *)
Theorem response_done_without_response_throws (c : nat) (data : string) (m : Event)
    (w : World)
    (Hdec : decode_event data = Some m)
    (Hty : type m = Some "response.done")
    (Hr : response m = None)
    (Hopen : channel_state c w = Some open)
    (Hf : functionAdded (panel w) = true) :
  step (ChannelMessage c data) w = (Throw TypeError, on_message data w) ∧
  events (app (on_message data w)) = m :: events (app w) ∧
  panel (on_message data w) = panel w ∧
  env (on_message data w) = env w.
Proof.
  unfold step. rewrite Hopen. unfold on_message. rewrite Hdec.
  split; [|done].
  unfold rerender, events_changed. cbn [app upd_app events set_events length].
  replace (S (length (events (app w))) =? length (events (app w))) with false
    by (symmetry; apply Nat.eqb_neq; lia).
  cbn [negb]. rewrite commit_S.
  unfold dispatch_effect, dispatch_effect_with.
  cbn [app upd_app events set_events head].
  destruct (last (m :: events (app w))) as [f|] eqn:Hl;
    [|by rewrite last_cons in Hl; destruct (last (events (app w)))].
  unfold register_tools. cbn [panel upd_app]. rewrite Hf. cbn [negb andb].
  unfold route_response, type_is. rewrite Hty, Hr.
  by rewrite bool_decide_eq_true_2.
Qed.


(** X23. A snake call steers the game.  A "control_snake" call whose
    arguments are an object with [direction] "up", "down", "left" or "right"
    makes an active panel show the game with that command and schedules no
    follow-up.  A game that is mounted with this command, or whose last render
    had another command, runs its command effect, which sets that direction
    and starts playing.  A game whose last render had the same command does
    not run the effect: it stays as it is, paused if it was paused. *)
Theorem snake_call_steers_the_game (d : option nat) (o : Output) (w : World)
    (ms : list (string * JValue)) (k : string) (dir : Snake.Point) (g : Snake.Game)
    (Hty : output_type o = "function_call")
    (Hn : name o = "control_snake")
    (Hp : JSON_parse (arguments o) = Some (JObject ms))
    (Hm : member "direction" ms = Some (JString k))
    (Hk : Snake.own_direction k = Some dir)
    (Ha : isSessionActive (app w) = true) :
  ToolPanel_view (handle_output d o w) = SnakeView (Some (JString k)) ∧
  timers (env (handle_output d o w)) = timers (env w) ∧
  Snake.unit_step dir ∧
  Snake.mount (snakeCommand (panel (handle_output d o w))) =
    Some {| Snake.state :=
              Snake.setIsPlaying true (Snake.setDirection (Snake.Vec dir) Snake.mounted);
            Snake.command := Some (JString k) |} ∧
  (Snake.command g ≠ Some (JString k) →
   Snake.advance (Snake.Command (snakeCommand (panel (handle_output d o w)))) g =
     Some {| Snake.state :=
               Snake.setIsPlaying true
                 (Snake.setDirection (Snake.Vec dir) (Snake.state g));
             Snake.command := Some (JString k) |}) ∧
  (Snake.command g = Some (JString k) →
   Snake.advance (Snake.Command (snakeCommand (panel (handle_output d o w)))) g = Some g).
Proof.
  assert (handle_output d o w =
          upd_panel (set_snakeCommand (Some (JString k)))
            (upd_panel (λ p, set_activeFunction (Some (name o))
                               (set_functionCallOutput (Some o) p))
               (console_log "Function arguments:" (arguments o)
                  (console_log "Function call detected:" (name o) w)))) as ->.
  { unfold handle_output. rewrite Hty, Hp, Hn. cbn. by rewrite Hm. }
  cbn [snakeCommand panel upd_panel set_snakeCommand].
  assert (∀ st, Snake.on_command (Some (JString k)) st =
                Some (Snake.setIsPlaying true (Snake.setDirection (Snake.Vec dir) st)))
    as Hon.
  { intros st. unfold Snake.on_command.
    assert (Snake.truthy (JString k) = true) as ->.
    { cbn. destruct (String.eqb k "") eqn:He; [|done].
      apply String.eqb_eq in He. subst k. done. }
    cbn. unfold Snake.names_member, Snake.updated_direction. rewrite Hk. cbn.
    by rewrite Hk. }
  assert (∀ c, Snake.same_value (Some (JString k)) c = true ↔ c = Some (JString k))
    as Hsame.
  { intros [[|b|n|s|items|members]|]; cbn; try (split; [done|by intros [=]]).
    rewrite String.eqb_eq. split; [by intros ->|by intros [= ->]]. }
  split_and!.
  - unfold ToolPanel_view. cbn. rewrite Ha, Hn. done.
  - done.
  - by eapply own_direction_unit.
  - unfold Snake.mount. by rewrite Hon.
  - intros Hne. cbn [Snake.advance].
    destruct (Snake.same_value _ _) eqn:Hs; [by apply Hsame in Hs|].
    by rewrite Hon.
  - intros He. cbn [Snake.advance]. by rewrite (proj2 (Hsame _) He).
Qed.

End Panel.

(** ** The download of a pixel drawing *)

Section Download.

(** X22. The download paints a [pixelCount] by [pixelCount] grid of 32-pixel
    squares.  For a positive [pixelCount]: the square of each of the first
    [pixelCount * pixelCount] colors lies on the canvas; color
    [row * pixelCount + col] fills the cell of that row and column; different
    colors never share a square; and every further color is painted below the
    canvas. *)
Theorem download_tiles_fill_the_canvas (pixelCount : Z) (Hpos : (0 < pixelCount)%Z) :
  (∀ i, (0 ≤ i < pixelCount * pixelCount)%Z → on_canvas pixelCount (tile pixelCount i)) ∧
  (∀ col row, (0 ≤ col < pixelCount)%Z → (0 ≤ row)%Z →
              tile pixelCount (row * pixelCount + col) = (col * 32, row * 32)%Z) ∧
  (∀ i j, (0 ≤ i)%Z → (0 ≤ j)%Z → tile pixelCount i = tile pixelCount j → i = j) ∧
  (∀ i, (pixelCount * pixelCount ≤ i)%Z → ¬ on_canvas pixelCount (tile pixelCount i)).
Proof.
  split_and!.
  - intros i [Hi0 Hi]. unfold on_canvas, tile, actualSize. cbn [fst snd].
    rewrite Z.rem_mod_nonneg by lia.
    pose proof (Z.mod_pos_bound i pixelCount Hpos).
    assert (0 ≤ i / pixelCount < pixelCount)%Z.
    { split; [apply Z.div_pos; lia|apply Z.div_lt_upper_bound; lia]. }
    lia.
  - intros col row Hcol Hrow. unfold tile.
    rewrite Z.rem_mod_nonneg by nia.
    rewrite Z.add_comm, Z_mod_plus_full, Z.mod_small by lia.
    rewrite Z.div_add, Z.div_small by lia. f_equal. 
  - intros i j Hi Hj. unfold tile. rewrite !Z.rem_mod_nonneg by lia.
    intros [= Hx Hy].
    rewrite (Z.div_mod i pixelCount), (Z.div_mod j pixelCount) by lia. 
    assert (i `mod` pixelCount = j `mod` pixelCount)%Z as -> by lia.
    assert (i `div` pixelCount = j `div` pixelCount)%Z as -> by lia.
    done.
  - intros i Hi [_ [_ [_ Hy]]]. unfold tile, actualSize in Hy. cbn [snd] in Hy.
    assert (pixelCount ≤ i / pixelCount)%Z by (apply Z.div_le_lower_bound; lia).
    lia.
Qed.

End Download.

(** ** What the panel shows, session after session *)

Section Sessions.

Context `{Platform}.

Lemma step_open_panel (c : nat) (w : World) :
  panel (step (ChannelOpen c) w).2 = panel w.
Proof.
  destruct (decide (channel_state c w = Some connecting)) as [Hc|Hc];
    [|by rewrite step_open_ignored].
  unfold channel_state in Hc.
  destruct (channels (env w) !! c) as [ch|] eqn:Hch; [|done]. cbn in Hc.
  by rewrite (step_open c w ch) by congruence.
Qed.

Lemma step_stop_panel (w : World) :
  panel (step Stop w).2 = panel w ∨
  functionCallOutput (panel (step Stop w).2) = None ∧
  activeFunction (panel (step Stop w).2) = None.
Proof.
  rewrite step_stop_world. destruct (isSessionActive (app w)).
  - right. unfold session_effect. by rewrite stopSession_app.
  - left. apply stopSession_panel.
Qed.

Lemma step_valid_display_in_session (s : Stimulus) (w : World) :
  match s with
  | Start _ | Stop | ChannelOpen _ => True
  | _ => valid_display w → valid_display (step s w).2
  end.
Proof.
  apply (preserved_step (λ w w', valid_display w → valid_display w')).
  - done.
  - intros w1 w2 w3 H12 H23 Hw. by apply H23, H12.
  - intros d msg w0. unfold valid_display. by rewrite sendClientEvent_panel.
  - intros d o w0. unfold valid_display.
    destruct (handle_output_summary d o w0) as (_ & -> & ->).
    by destruct (accepted o) eqn:Ha.
  - done.
  - intros w0 Hw. unfold snake_effect. destruct (head _); [|done].
    destruct (type_is _ _); exact Hw.
  - intros data w0 Hw. unfold on_message. destruct (decode_event data); exact Hw.
  - done.
Qed.

Lemma step_valid_display (s : Stimulus) (w : World) :
  valid_display w → valid_display (step s w).2.
Proof.
  pose proof (step_valid_display_in_session s w) as Hp.
  destruct s as [o| |c|c data|m|message|]; try done; intros Hw; unfold valid_display.
  - change (step (Start o) w) with (startSession o w). by rewrite startSession_panel.
  - destruct (step_stop_panel w) as [->|[-> ->]]; done.
  - by rewrite step_open_panel.
Qed.

Lemma run_valid_display (tr : list Stimulus) (w : World) :
  valid_display w → valid_display (run tr w).
Proof.
  revert w. induction tr as [|s tr IH]; intros w Hw; [done|].
  rewrite run_cons. by apply IH, step_valid_display.
Qed.

(** X17. Whatever is on display went through the dispatcher's check.  After
    any sequence of stimuli from the mounted application: an output rendered as
    pixel art or as a palette is a function call whose arguments parse;
    pixel art is shown for the name "create_pixel_art", the game for
    "control_snake", and an accepted call of any other name is rendered as a
    palette. *)
Theorem displayed_call_was_validated (tr : list Stimulus) :
  match ToolPanel_view (run tr initial) with
  | PixelArtView o => accepted o = true ∧ name o = "create_pixel_art"
  | PaletteView o =>
      accepted o = true ∧ name o ≠ "create_pixel_art" ∧ name o ≠ "control_snake"
  | SnakeView _ =>
      ∃ o, functionCallOutput (panel (run tr initial)) = Some o ∧
           accepted o = true ∧ name o = "control_snake"
  | StartPrompt | AskPrompt => True
  end.
Proof.
  pose proof (run_valid_display tr initial eq_refl) as Hv.
  unfold valid_display in Hv. unfold ToolPanel_view.
  destruct (isSessionActive (app (run tr initial))); [|done].
  destruct (functionCallOutput (panel (run tr initial))) as [o|]; [|done].
  destruct Hv as [Ha Hn]. rewrite Hn.
  repeat case_bool_decide; simplify_eq; try done.
  - by exists o.
  - split_and!; [done|congruence|congruence].
Qed.

Lemma send_needs_open_channel (d : option nat) (msg : Message) (w : World) :
  (∀ c, channel_state c w ≠ Some open) →
  events (app (sendClientEvent d msg w).2) = events (app w).
Proof.
  intros Hno. rewrite sendClientEvent_unfold. destruct d as [c|]; [|done].
  cbn zeta. specialize (Hno c). unfold channel_state in Hno.
  destruct (channels (env w) !! c) as [ch|]; cbn in *; [|by rewrite assign_event_id_app].
  destruct (readyState ch); try done; cbn; by rewrite assign_event_id_app.
Qed.

Lemma rerender_same_events (before : World) (r : Completion * World) :
  events (app r.2) = events (app before) → rerender before r = r.
Proof.
  intros He. unfold rerender. destruct r as [[|e] w1]; [|done].
  unfold events_changed. cbn in He. by rewrite He, Nat.eqb_refl.
Qed.

Lemma sendTextMessage_panel (d : option nat) (message : string) (w : World) :
  panel (sendTextMessage d message w).2 = panel w.
Proof.
  unfold sendTextMessage.
  pose proof (sendClientEvent_panel d (Literal (text_item_event message)) w) as Hp.
  destruct (sendClientEvent d (Literal (text_item_event message)) w) as [[|e] w1];
    cbn [snd] in *; [|done].
  by rewrite sendClientEvent_panel.
Qed.

Lemma sendTextMessage_needs_open_channel (d : option nat) (message : string) (w : World) :
  (∀ c, channel_state c w ≠ Some open) →
  events (app (sendTextMessage d message w).2) = events (app w).
Proof.
  intros Hno. unfold sendTextMessage.
  pose proof (send_needs_open_channel d (Literal (text_item_event message)) w Hno) as He.
  pose proof (sendClientEvent_keeps_states d (Literal (text_item_event message)) w) as Hk.
  destruct (sendClientEvent d (Literal (text_item_event message)) w) as [[|e] w1];
    cbn [snd] in *; [|done].
  rewrite send_needs_open_channel; [done|]. intros c. rewrite Hk. apply Hno.
Qed.

(** Without an open channel nothing reaches the panel. *)
Lemma step_without_open_channel (s : Stimulus) (w : World) :
  (∀ c, channel_state c w ≠ Some open) →
  match s with
  | Start _ | Stop | ChannelOpen _ => True
  | _ => panel (step s w).2 = panel w
  end.
Proof.
  intros Hno. destruct s as [o| |c|c data|m|message|]; try done; unfold step.
  - specialize (Hno c). by destruct (channel_state c w) as [[| | |]|].
  - rewrite rerender_same_events by (by apply send_needs_open_channel).
    apply sendClientEvent_panel.
  - rewrite rerender_same_events by (by apply sendTextMessage_needs_open_channel).
    apply sendTextMessage_panel.
  - destruct (timers (env w)) as [|t rest]; [done|].
    rewrite rerender_same_events by (by rewrite send_needs_open_channel).
    by rewrite sendClientEvent_panel.
Qed.

Lemma step_session_in_step (s : Stimulus) (w : World) :
  match s with Start _ => session_closed w | _ => True end →
  one_live_channel w → session_in_step w → session_in_step (step s w).2.
Proof.
  intros Hs Hlive [Hon Hoff].
  pose proof (step_keeps_states s w) as Hk.
  pose proof (step_grows s w) as Hg.
  pose proof (step_without_open_channel s w) as Hq.
  destruct s as [o| |c0|c0 data|m|message|];
    try (destruct Hg as (Ha & Hd & _); split; rewrite Ha, ?Hd;
         [ intros Hact; destruct (Hon Hact) as (c & Hc & Hopen); exists c;
           by rewrite Hk
         | intros Hact; destruct (Hoff Hact) as (Hf & Haf & Hfa & Hno);
           rewrite (Hq Hno); split_and!; try done; intros c; rewrite Hk; apply Hno ]).
  - destruct Hs as (Hact & Hd & _).
    destruct (Hoff Hact) as (Hf & Haf & Hfa & Hno).
    change (step (Start o) w) with (startSession o w).
    split; [by rewrite (proj1 (startSession_app o w)), Hact|].
    intros _. rewrite startSession_panel. split_and!; try done.
    intros c. destruct o; [apply Hno|apply Hno| |];
      (unfold channel_state, startSession; cbn;
       destruct (decide (c < length (channels (env w)))) as [Hlt|Hge];
       [ rewrite lookup_app_l by done; apply Hno
       | rewrite lookup_app_r by lia;
         by destruct (c - length (channels (env w))) as [|k] ]).
  - split; [by rewrite step_stop_app|]. intros _.
    assert (∀ c, channel_state c (step Stop w).2 ≠ Some open) as Hclosed.
    { intros c.
      destruct (decide (dataChannel (app w) = Some c)) as [Hd|Hd].
      - rewrite (step_stop_closes_channel w c Hd). by destruct (channel_state c w).
      - rewrite (channel_state_env _ (stopSession w).2) by apply step_stop_env.
        destruct (stopSession_closes_or_keeps c w) as [-> | ->],
          (Hlive c Hd) as [-> | ->]; done. }
    rewrite step_stop_world. cbn [snd].
    rewrite step_stop_world in Hclosed. cbn [snd] in Hclosed.
    destruct (isSessionActive (app w)) eqn:Hact.
    + unfold session_effect in *. rewrite stopSession_app in *. cbn in *. by split_and!.
    + destruct (Hoff eq_refl) as (Hf & Haf & Hfa & _).
      rewrite stopSession_panel. by split_and!.
  - destruct (decide (channel_state c0 w = Some connecting)) as [Hc0|Hc0];
      [|rewrite step_open_ignored by done; by split].
    assert (dataChannel (app w) = Some c0) as Hcur.
    { destruct (decide (dataChannel (app w) = Some c0)) as [|Hne]; [done|].
      destruct (Hlive c0 Hne) as [Hn|Hn]; rewrite Hn in Hc0; done. }
    unfold channel_state in Hc0.
    destruct (channels (env w) !! c0) as [ch|] eqn:Hch; [|done]. cbn in Hc0.
    rewrite (step_open c0 w ch) by congruence.
    split; [|done]. intros _. exists c0. split; [done|].
    unfold channel_state. cbn.
    rewrite list_lookup_insert_eq by (by eapply lookup_lt_Some). done.
Qed.

Lemma run_session_in_step (tr : list Stimulus) (w : World) :
  starts_when_closed tr w → one_live_channel w → session_in_step w →
  session_in_step (run tr w) ∧ one_live_channel (run tr w).
Proof.
  revert w. induction tr as [|s tr IH]; intros w Htr Hlive Hw; [done|].
  destruct Htr as [Hs Htr]. rewrite run_cons.
  apply IH; [done|by apply step_one_live_channel|by apply step_session_in_step].
Qed.

Lemma initial_session_in_step : session_in_step initial.
Proof. split; [done|]. intros _. by split_and!. Qed.

(** X19. The session flag tells the truth about the channel.  In a run from
    the mounted application in which a session is started only when none is
    under way (and channels close only when the application closes them),
    [isSessionActive] holds exactly when the current data channel is open,
    and no other channel is ever open. *)
Theorem session_flag_tracks_the_channel (tr : list Stimulus)
    (Htr : starts_when_closed tr initial) :
  (isSessionActive (app (run tr initial)) = true ↔
   ∃ c, dataChannel (app (run tr initial)) = Some c ∧
        channel_state c (run tr initial) = Some open) ∧
  (∀ c, channel_state c (run tr initial) = Some open →
        dataChannel (app (run tr initial)) = Some c).
Proof.
  destruct (run_session_in_step tr initial Htr initial_one_live_channel
              initial_session_in_step) as [[Hon Hoff] Hlive].
  split.
  - split; [done|]. intros (c & _ & Hopen).
    destruct (isSessionActive (app (run tr initial))); [done|].
    destruct (Hoff eq_refl) as (_ & _ & _ & Hno). by destruct (Hno c).
  - intros c Hopen.
    destruct (decide (dataChannel (app (run tr initial)) = Some c)) as [|Hne]; [done|].
    destruct (Hlive c Hne) as [Hn|Hn]; rewrite Hn in Hopen; done.
Qed.

(** X18. A session opens on a clean panel.  In a run in which a session is
    started only when none is under way, the moment a connecting channel opens
    the panel shows the "Ask for ..." prompt, nothing of an earlier session is
    stored for display, and the tools count as not registered, so that the
    first "session.created" of the new session registers them. *)
Theorem session_opens_on_a_clean_panel (tr : list Stimulus) (c : nat)
    (Htr : starts_when_closed tr initial)
    (Hc : channel_state c (run tr initial) = Some connecting) :
  ToolPanel_view (step (ChannelOpen c) (run tr initial)).2 = AskPrompt ∧
  functionCallOutput (panel (step (ChannelOpen c) (run tr initial)).2) = None ∧
  functionAdded (panel (step (ChannelOpen c) (run tr initial)).2) = false ∧
  dataChannel (app (step (ChannelOpen c) (run tr initial)).2) = Some c ∧
  ToolPanel_view (run tr initial) = StartPrompt.
Proof.
  destruct (run_session_in_step tr initial Htr initial_one_live_channel
              initial_session_in_step) as [[Hon Hoff] Hlive].
  set (w := run tr initial) in *.
  assert (dataChannel (app w) = Some c) as Hcur.
  { destruct (decide (dataChannel (app w) = Some c)) as [|Hne]; [done|].
    destruct (Hlive c Hne) as [Hn|Hn]; rewrite Hn in Hc; done. }
  assert (isSessionActive (app w) = false) as Hact.
  { destruct (isSessionActive (app w)); [|done].
    destruct (Hon eq_refl) as (c' & Hc' & Hopen). congruence. }
  destruct (Hoff Hact) as (Hf & Haf & Hfa & _).
  unfold channel_state in Hc.
  destruct (channels (env w) !! c) as [ch|] eqn:Hch; [|done]. cbn in Hc.
  rewrite (step_open c w ch) by congruence.
  unfold ToolPanel_view. cbn. rewrite Hf, Hfa, Hact. done.
Qed.

End Sessions.

(** ** The two dispatchers side by side *)

Section Variants.

Context `{Platform}.

Lemma handle_output_game_summary (d : option nat) (o : Output) (w : World) :
  timers (env (handle_output_game d o w)) =
    timers (env w) ++
      (if String.eqb (output_type o) "function_call"
       then [{| timer_delay := 500; timer_channel := d;
                timer_message := follow_up_game (name o) |}]
       else []) ∧
  functionCallOutput (panel (handle_output_game d o w)) =
    (if String.eqb (output_type o) "function_call" then Some o
     else functionCallOutput (panel w)).
Proof.
  unfold handle_output_game, setTimeout.
  destruct (String.eqb (output_type o) "function_call"); [done|].
  by rewrite app_nil_r.
Qed.

(** X26. On well-formed calls the two dispatchers do the same.  For a batch
    in which every function call has arguments that parse and is named neither
    "control_snake" nor "create_game", the validating [forEach] body and the
    one of the "create_game" variant leave the same panel, timers and
    console. *)
Theorem dispatchers_agree_on_well_formed_calls (d : option nat) (outputs : list Output)
    (w : World)
    (Hok : Forall (λ o, output_type o = "function_call" →
                        is_Some (JSON_parse (arguments o)) ∧
                        name o ≠ "control_snake" ∧ name o ≠ "create_game") outputs) :
  fold_left (λ acc o, handle_output d o acc) outputs w =
  fold_left (λ acc o, handle_output_game d o acc) outputs w.
Proof.
  revert w. induction Hok as [|o os Ho Hos IH]; intros w; [done|].
  cbn [fold_left]. rewrite IH. f_equal.
  unfold handle_output, handle_output_game.
  destruct (String.eqb (output_type o) "function_call") eqn:Hty; [|done].
  apply String.eqb_eq in Hty. destruct (Ho Hty) as ([v ->] & Hsnake & Hgame).
  rewrite (proj2 (String.eqb_neq _ _) Hsnake).
  unfold follow_up, follow_up_game.
  by rewrite (proj2 (String.eqb_neq _ "create_game") Hgame).
Qed.

(** X27. The "create_game" variant takes every function call.  Each output
    of type "function_call", parseable or not, schedules one follow-up, in the
    order of the batch, and the panel ends up showing the last of them. *)
Theorem game_dispatcher_takes_every_call (d : option nat) (outputs : list Output)
    (w : World) :
  timers (env (fold_left (λ acc o, handle_output_game d o acc) outputs w)) =
    timers (env w) ++
      ((λ o, {| timer_delay := 500; timer_channel := d;
                timer_message := follow_up_game (name o) |}) <$>
         filter (λ o, output_type o = "function_call") outputs) ∧
  functionCallOutput (panel (fold_left (λ acc o, handle_output_game d o acc) outputs w)) =
    match last (filter (λ o, output_type o = "function_call") outputs) with
    | Some o => Some o
    | None => functionCallOutput (panel w)
    end.
Proof.
  split; revert w; induction outputs as [|o os IH]; intros w; cbn [fold_left];
    try (by rewrite ?app_nil_r);
    rewrite IH; destruct (handle_output_game_summary d o w) as (Ht & Hf);
    rewrite filter_cons; destruct (String.eqb (output_type o) "function_call") eqn:Hty.
  - apply String.eqb_eq in Hty. rewrite decide_True by done.
    by rewrite Ht, fmap_cons, <- (assoc_L (++)).
  - apply String.eqb_neq in Hty. rewrite decide_False by done.
    by rewrite Ht, app_nil_r.
  - apply String.eqb_eq in Hty. rewrite decide_True by done.
    rewrite Hf, last_cons. by destruct (last _).
  - apply String.eqb_neq in Hty. rewrite decide_False by done. by rewrite Hf.
Qed.

End Variants.

(** ** The properties above on the concrete platform *)

Lemma sent_events_are_labelled_client_witness :
  ∃ e, events (app (@sendClientEvent demo (Some 0)
                      (Literal (plain_event "response.create")) opened).2) =
         e :: events (app opened) ∧
       isClient e = true.
Proof.
  destruct (@sent_events_are_labelled_client demo 0 {| readyState := open; sent := [] |}
              (plain_event "response.create") opened)
    as (e & He & _ & _ & Hclient & _).
  - intros n. split; [discriminate|reflexivity].
  - reflexivity.
  - reflexivity.
  - exists e. split; [exact He|]. apply Hclient. reflexivity.
Defined.

Lemma text_message_sends_two_events_witness :
  ∃ w', @sendTextMessage demo (Some 0) "hello" opened = (Normal, w') ∧
        uuids (env w') = 2.
Proof.
  destruct (@text_message_sends_two_events demo 0 {| readyState := open; sent := [] |}
              "hello" opened)
    as (w' & Hsend & _ & _ & Hu).
  - reflexivity.
  - reflexivity.
  - exists w'. split; [exact Hsend | exact Hu].
Defined.


Lemma unparsable_message_is_dropped_witness :
  (@step demo (ChannelMessage 0 "{not json") opened).1 = Normal ∧
  quiet (@step demo (ChannelMessage 0 "{not json") opened).2 = quiet opened.
Proof.
  destruct (@unparsable_message_is_dropped demo 0 "{not json" opened) as (Hn & Hq & _).
  - reflexivity.
  - split; [exact Hn | exact Hq].
Defined.

Lemma manifest_id_is_reused_witness :
  ∃ w', @step demo (ChannelMessage 1 "session.created")
          (@run demo [Stop; Start start_succeeds; ChannelOpen 1] greeted) = (Normal, w') ∧
        channels (env w') !! 1 =
          Some {| readyState := open;
                  sent := [with_event_id (Some (demo_uuid 0)) sessionUpdate] |}.
Proof.
  destruct (@manifest_id_is_reused demo [Stop; Start start_succeeds; ChannelOpen 1]
              (demo_uuid 0) greeted 1 {| readyState := open; sent := [] |}
              "session.created" session_created)
    as (_ & w' & Hstep & Hsent & _).
  - reflexivity.
  - discriminate.
  - reflexivity.
  - reflexivity.
  - reflexivity.
  - reflexivity.
  - reflexivity.
  - reflexivity.
  - reflexivity.
  - exists w'. split; [exact Hstep | exact Hsent].
Defined.

Lemma response_done_without_response_throws_witness :
  @step demo_bare (ChannelMessage 0 "bare") greeted =
    (Throw TypeError, @on_message demo_bare "bare" greeted).
Proof.
  apply (@response_done_without_response_throws demo_bare 0 "bare" bare_done greeted);
    reflexivity.
Defined.

Lemma session_flag_tracks_the_channel_witness :
  dataChannel
    (app (@run demo [Start start_succeeds; ChannelOpen 0;
                     ChannelMessage 0 "session.created"; ChannelMessage 0 "palette";
                     Stop; Start start_succeeds; ChannelOpen 1] initial)) = Some 1.
Proof.
  destruct (@session_flag_tracks_the_channel demo
              [Start start_succeeds; ChannelOpen 0; ChannelMessage 0 "session.created";
               ChannelMessage 0 "palette"; Stop; Start start_succeeds; ChannelOpen 1])
    as [_ Hopen].
  - repeat split; reflexivity.
  - apply Hopen. reflexivity.
Defined.

Lemma session_opens_on_a_clean_panel_witness :
  ToolPanel_view (@step demo (ChannelOpen 1) restarted).2 = AskPrompt.
Proof.
  apply (@session_opens_on_a_clean_panel demo
           [Start start_succeeds; ChannelOpen 0; ChannelMessage 0 "session.created";
            ChannelMessage 0 "palette"; Stop; Start start_succeeds] 1).
  - repeat split; reflexivity.
  - reflexivity.
Defined.

Lemma late_session_created_is_not_registered_witness :
  @step demo (ChannelMessage 0 "session.created") palette_late =
    (Normal, @on_message demo "session.created" palette_late).
Proof.
  apply (@late_session_created_is_not_registered demo 0 "session.created"
           session_created palette_done palette_late);
    first [reflexivity | discriminate].
Defined.


Lemma download_tiles_fill_the_canvas_witness :
  tile 8 9 = (32, 32)%Z ∧ on_canvas 8 (tile 8 63).
Proof.
  destruct (download_tiles_fill_the_canvas 8) as (Hon & Hcell & _); [lia|].
  split; [apply (Hcell 1 1)%Z; lia | apply Hon; lia].
Defined.

Lemma snake_call_steers_the_game_witness :
  ToolPanel_view (@handle_output demo (Some 0) snake_call greeted) =
    SnakeView (Some (JString "up")) ∧
  Snake.advance
    (Snake.Command (snakeCommand (panel (@handle_output demo (Some 0) snake_call greeted))))
    {| Snake.state := Snake.setIsPlaying false Snake.mounted;
       Snake.command := Some (JString "up") |} =
    Some {| Snake.state := Snake.setIsPlaying false Snake.mounted;
            Snake.command := Some (JString "up") |}.
Proof.
  destruct (@snake_call_steers_the_game demo (Some 0) snake_call greeted
              [("direction", JString "up")] "up"
              {| Snake.x := Snake.Int 0; Snake.y := Snake.Int (-1) |}
              {| Snake.state := Snake.setIsPlaying false Snake.mounted;
                 Snake.command := Some (JString "up") |})
    as (Hview & _ & _ & _ & _ & Hsame); try reflexivity.
  split; [exact Hview|]. apply Hsame. reflexivity.
Defined.

Lemma null_arguments_give_no_command_witness :
  snakeCommand (panel (@handle_output demo (Some 0) null_call greeted)) =
    snakeCommand (panel greeted) ∧
  functionCallOutput (panel (@handle_output demo (Some 0) null_call greeted)) =
    Some null_call.
Proof.
  destruct (@null_arguments_give_no_command demo (Some 0) null_call greeted)
    as (Hc & Hf & _); [reflexivity|reflexivity|reflexivity|].
  split; [exact Hc | exact Hf].
Defined.

Lemma response_done_is_routed_witness :
  @step demo (ChannelMessage 0 "palette") greeted =
    (Normal,
     fold_left (λ acc o, @handle_output demo (Some 0) o acc) [palette_call]
       (@on_message demo "palette" greeted)).
Proof.
  apply (@response_done_is_routed demo 0 "palette" palette_done
           {| output := Some [palette_call]; instructions := None |}
           [palette_call] greeted);
    reflexivity.
Defined.

Lemma dispatchers_agree_on_well_formed_calls_witness :
  fold_left (λ acc o, @handle_output demo (Some 0) o acc) [palette_call] greeted =
  fold_left (λ acc o, handle_output_game (Some 0) o acc) [palette_call] greeted.
Proof.
  apply (@dispatchers_agree_on_well_formed_calls demo (Some 0) [palette_call] greeted).
  apply Forall_cons. split; [|constructor].
  intros _. split; [by eexists|split; discriminate].
Defined.
